(** * graph_search: a shallow embedding of the routing core

    The Go package [graph_search] holds a directed weighted graph with dual
    adjacency lists (pbf.go), a k-d tree (kdtree.go), a binary min-heap and a
    Dijkstra engine (dijkstra.go).  This file embeds those parts and proves
    properties of them.

    Conventions of the embedding.
    - [int32] and [int] values are integers in [Z]; the one narrowing
      conversion of the code, [int32(len(g.Nodes))], is written out as
      [int32] (two's-complement wrap-around).
    - [float32] and [float64] values are exact rationals in [Q]: rounding,
      NaN and the infinities are outside the model.  The two constants
      [math.MaxFloat32] and [math.MaxFloat64] keep their exact values.
    - A slice is a [list]; [nil] and the empty slice are both [[]].  An index
      out of range, a division by zero and a nil dereference panic in Go: a
      function that can panic returns [option], and [None] is the panic.
    - A Go [map] is a [gmap]; [big.Int] used as a bit set is a [Z] read with
      [Z.testbit].
    - [sort.Slice] and [math.Sqrt] belong to the Go library: the k-d tree
      section takes them as parameters together with their contracts. *)

From Stdlib Require Import ZArith QArith Qabs Lia Lqa Reals Qreals Lra.
From Stdlib Require Import Sorting.Sorted Sorting.Permutation.
From stdpp Require Import gmap list strings.

Local Open Scope Z_scope.

(** ** Machine numbers *)

Abbreviation float32 := Q (only parsing).
Abbreviation float64 := Q (only parsing).

(** [int32(x)] for an [int] x: the low 32 bits, read as a signed number. *)
Definition int32 (x : Z) : Z := (x + 2 ^ 31) mod 2 ^ 32 - 2 ^ 31.

Definition in_int32 (x : Z) : Prop := - 2 ^ 31 <= x < 2 ^ 31.

(** [a < b] and [a <= b] on floats. *)
Definition fltb (a b : Q) : bool := (Qnum a * QDen b <? Qnum b * QDen a)%Z.
Definition fleb (a b : Q) : bool := (Qnum a * QDen b <=? Qnum b * QDen a)%Z.

(** [s[i]] on a slice: panics when [i] is out of range. *)
Definition at_index {A} (s : list A) (i : Z) : option A :=
  if i <? 0 then None else s !! Z.to_nat i.

(** [s[i] = x] on a slice: panics when [i] is out of range. *)
Definition set_index {A} (s : list A) (i : Z) (x : A) : option (list A) :=
  if (0 <=? i) && (i <? Z.of_nat (length s))
  then Some (<[Z.to_nat i := x]> s) else None.

(** ** The graph (pbf.go) *)

Record MetaData := {
  Speed : float32;
  Distance : float32;
  RoadType : string
}.

Record Node := {
  ID : Z;
  Location : Z;
  Rank : Z
}.

Inductive EdgeDirection := Bidirectional | LeftToRight | RightToLeft.

Record Edge := {
  eID : Z;
  Weight : float32;
  Metadata : MetaData
}.

Definition Relations := list (list Edge).

Record Graph := {
  Nodes : list Node;
  IncomingEdges : Relations;
  OutgoingEdges : Relations
}.

Definition EmptyGraph : Graph :=
  {| Nodes := []; IncomingEdges := []; OutgoingEdges := [] |}.

(** The zero value [MetaData{}]. *)
Definition MetaData0 : MetaData :=
  {| Speed := 0%Q; Distance := 0%Q; RoadType := "" |}.

(** [g.AddNode(n)]: the graph after the call and the returned id. *)
Definition AddNode (g : Graph) (n : Node) : Graph * Z :=
  let id := Z.of_nat (length (Nodes g)) in
  let n := {| ID := int32 id; Location := Location n; Rank := Rank n |} in
  ({| Nodes := Nodes g ++ [n];
      IncomingEdges := IncomingEdges g ++ [[]];
      OutgoingEdges := OutgoingEdges g ++ [[]] |},
   int32 id).

Definition addOutgoingEdge (g : Graph) (from to : Z) (weight : float32)
    (metaData : MetaData) : option Graph :=
  es ← at_index (OutgoingEdges g) from;
  out ← set_index (OutgoingEdges g) from
          (es ++ [{| eID := to; Weight := weight; Metadata := metaData |}]);
  Some {| Nodes := Nodes g; IncomingEdges := IncomingEdges g;
          OutgoingEdges := out |}.

Definition addIncomingEdge (g : Graph) (from to : Z) (weight : float32)
    (metaData : MetaData) : option Graph :=
  es ← at_index (IncomingEdges g) to;
  inc ← set_index (IncomingEdges g) to
          (es ++ [{| eID := from; Weight := weight; Metadata := metaData |}]);
  Some {| Nodes := Nodes g; IncomingEdges := inc;
          OutgoingEdges := OutgoingEdges g |}.

Definition RelateNodes (g : Graph) (a b : Node) (weight : float32)
    (dir : EdgeDirection) (metaData : MetaData) : option Graph :=
  match dir with
  | Bidirectional =>
      g ← addOutgoingEdge g (ID a) (ID b) weight metaData;
      g ← addIncomingEdge g (ID b) (ID a) weight metaData;
      g ← addOutgoingEdge g (ID b) (ID a) weight metaData;
      addIncomingEdge g (ID a) (ID b) weight metaData
  | LeftToRight =>
      g ← addOutgoingEdge g (ID a) (ID b) weight metaData;
      addIncomingEdge g (ID a) (ID b) weight metaData
  | RightToLeft =>
      g ← addOutgoingEdge g (ID b) (ID a) weight metaData;
      addIncomingEdge g (ID b) (ID a) weight metaData
  end.

(** The graph after [g.AddNode(n)] for each [n] of [ns], in order. *)
Definition AddNodes (g : Graph) (ns : list Node) : Graph :=
  fold_left (fun g n => fst (AddNode g n)) ns g.

(** The three collections of a graph have one length. *)
Definition aligned (g : Graph) : Prop :=
  length (OutgoingEdges g) = length (Nodes g) /\
  length (IncomingEdges g) = length (Nodes g).

(** [id] is the id of a node of [g]. *)
Definition has_node (g : Graph) (id : Z) : Prop :=
  0 <= id < Z.of_nat (length (Nodes g)).

(** [outgoing[a]] holds the edge [e]; [incoming[b]] holds the edge [e]. *)
Definition out_has (g : Graph) (a : Z) (e : Edge) : Prop :=
  exists es, at_index (OutgoingEdges g) a = Some es /\ e ∈ es.

Definition in_has (g : Graph) (b : Z) (e : Edge) : Prop :=
  exists es, at_index (IncomingEdges g) b = Some es /\ e ∈ es.

(** The same edge seen from its other end. *)
Definition mirror (from : Z) (e : Edge) : Edge :=
  {| eID := from; Weight := Weight e; Metadata := Metadata e |}.

(** Every edge recorded in [outgoing[a]] with target [b] has a mirror entry
    with source [a] in [incoming[b]], and the other way round. *)
Definition mirrored (g : Graph) : Prop :=
  (forall a e, out_has g a e -> in_has g (eID e) (mirror a e)) /\
  (forall b e, in_has g b e -> out_has g (eID e) (mirror b e)).

(** ** The priority queue (dijkstra.go, second part) *)

Record HNode := {
  Value : Z;
  Cost : float32;
  Depth : Z;
  Previous : Z;
  Dist : float32
}.

(** The zero value [HNode{}]. *)
Definition HNode0 : HNode :=
  {| Value := 0; Cost := 0%Q; Depth := 0; Previous := 0; Dist := 0%Q |}.

Record Heap := {
  items : list HNode;
  size : Z
}.

Definition ErrHeapEmpty : string := "heap is empty".

Definition Create : Heap := {| items := []; size := 0 |}.

Definition IsEmpty (h : Heap) : bool := size h =? 0.

(** Go's [/] on [int] truncates toward zero: [Z.quot]. *)
Definition parentIndex (i : Z) : Z := Z.quot (i - 1) 2.
Definition leftChildIndex (i : Z) : Z := 2 * i + 1.
Definition rightChildIndex (i : Z) : Z := 2 * i + 2.

Definition hasLeftChild (h : Heap) (i : Z) : bool := leftChildIndex i <? size h.
Definition hasRightChild (h : Heap) (i : Z) : bool := rightChildIndex i <? size h.
Definition hasParent (h : Heap) (i : Z) : bool := 0 <=? parentIndex i.

Definition leftChild (h : Heap) (i : Z) : option HNode :=
  at_index (items h) (leftChildIndex i).
Definition rightChild (h : Heap) (i : Z) : option HNode :=
  at_index (items h) (rightChildIndex i).
Definition parent (h : Heap) (i : Z) : option HNode :=
  at_index (items h) (parentIndex i).

(** [h.items[i], h.items[j] = h.items[j], h.items[i]], written in the code
    with a temporary. *)
Definition swap (h : Heap) (i j : Z) : option Heap :=
  x ← at_index (items h) i;
  y ← at_index (items h) j;
  l ← set_index (items h) i y;
  l ← set_index l j x;
  Some {| items := l; size := size h |}.

(** The loop of heapifyUp from index [i]; [fuel] bounds its iterations. *)
Fixpoint heapifyUp_loop (fuel : nat) (h : Heap) (i : Z) : option Heap :=
  match fuel with
  | O => None
  | S fuel =>
      if hasParent h i then
        p ← parent h i;
        x ← at_index (items h) i;
        if fltb (Cost x) (Cost p) then
          h ← swap h i (parentIndex i);
          heapifyUp_loop fuel h (parentIndex i)
        else Some h
      else Some h
  end.

Definition heapifyUp (h : Heap) : option Heap :=
  heapifyUp_loop (Z.to_nat (size h)) h (size h - 1).

Definition Insert (h : Heap) (n : HNode) : option Heap :=
  heapifyUp {| items := items h ++ [n]; size := size h + 1 |}.

(** [h.Min()]: the item and the error. *)
Definition Min (h : Heap) : option (HNode * option string) :=
  if negb (IsEmpty h) then
    x ← at_index (items h) 0; Some (x, None)
  else Some (HNode0, Some ErrHeapEmpty).

(** The loop of heapifyDown from index [i]. *)
Fixpoint heapifyDown_loop (fuel : nat) (h : Heap) (i : Z) : option Heap :=
  if hasLeftChild h i then
    match fuel with
    | O => None
    | S fuel =>
        smallerChildIndex ←
          (if hasRightChild h i then
             r ← rightChild h i;
             l ← leftChild h i;
             Some (if fltb (Cost r) (Cost l) then rightChildIndex i
                   else leftChildIndex i)
           else Some (leftChildIndex i));
        x ← at_index (items h) i;
        c ← at_index (items h) smallerChildIndex;
        if fltb (Cost x) (Cost c) then Some h
        else
          h ← swap h i smallerChildIndex;
          heapifyDown_loop fuel h smallerChildIndex
    end
  else Some h.

Definition heapifyDown (h : Heap) (i : Z) : option Heap :=
  heapifyDown_loop (Z.to_nat (size h)) h i.

(** [h.DeleteMin()]: the heap after the call and the error. *)
Definition DeleteMin (h : Heap) : option (Heap * option string) :=
  if IsEmpty h then Some (h, Some ErrHeapEmpty)
  else
    last ← at_index (items h) (size h - 1);
    l ← set_index (items h) 0 last;
    let h := {| items := take (length l - 1) l; size := size h - 1 |} in
    h ← heapifyDown h 0;
    Some (h, None).

(** The operations of a client of the heap. *)
Inductive HeapOp := OpInsert (n : HNode) | OpDeleteMin.

Definition apply_op (h : Heap) (op : HeapOp) : option Heap :=
  match op with
  | OpInsert n => Insert h n
  | OpDeleteMin => fst <$> DeleteMin h
  end.

Definition apply_ops (h : Heap) (ops : list HeapOp) : option Heap :=
  foldl (fun oh op => h ← oh; apply_op h op) (Some h) ops.

(** Min then DeleteMin until the heap is empty, collecting the minima. *)
Fixpoint drain_loop (fuel : nat) (h : Heap) : option (list HNode) :=
  if IsEmpty h then Some []
  else
    match fuel with
    | O => None
    | S fuel =>
        '(m, _) ← Min h;
        '(h, _) ← DeleteMin h;
        rest ← drain_loop fuel h;
        Some (m :: rest)
    end.

Definition drain (h : Heap) : option (list HNode) :=
  drain_loop (Z.to_nat (size h)) h.

(** The item at [i] is not cheaper than its parent, for every [i >= 1]. *)
Definition heap_ordered (l : list HNode) : Prop :=
  forall i x p, 1 <= i -> at_index l i = Some x ->
    at_index l (parentIndex i) = Some p -> (Cost p <= Cost x)%Q.

Definition heap_ok (h : Heap) : Prop :=
  size h = Z.of_nat (length (items h)) /\ heap_ordered (items h).


(** ** The k-d tree (kdtree.go) *)

Record Vector := {
  vID : Z;
  Components : list float64
}.

(** A [*node]: nil, or a node with its point and its two children. *)
Inductive node :=
  | nil_node
  | mk_node (v : Vector) (l r : node).

Record KDTree := { root : node }.

(** [math.MaxFloat64] and [math.MaxFloat32]: 2^1024 - 2^971 and
    2^128 - 2^104. *)
Definition MaxFloat64 : Q := inject_Z ((2 ^ 53 - 1) * 2 ^ 971).
Definition MaxFloat32 : Q := inject_Z ((2 ^ 24 - 1) * 2 ^ 104).

(** [v.Components[axis]]. *)
Definition comp (v : Vector) (axis : Z) : option Q :=
  at_index (Components v) axis.

(** The coordinate a comparison reads, where it exists. *)
Definition key (axis : Z) (v : Vector) : Q := default 0%Q (comp v axis).

(** The comparator build hands to [sort.Slice]. *)
Definition less (axis : Z) (a b : Vector) : bool :=
  fltb (key axis a) (key axis b).

(** The loop of squaredDistance over the components of [u]; [v] must have
    as many. *)
Fixpoint squaredDistance_loop (sum : Q) (us vs : list Q) : option Q :=
  match us with
  | [] => Some sum
  | x :: us =>
      match vs with
      | [] => None
      | y :: vs =>
          let diff := (x - y)%Q in
          squaredDistance_loop (sum + diff * diff)%Q us vs
      end
  end.

Definition squaredDistance (u v : Vector) : option Q :=
  squaredDistance_loop 0%Q (Components u) (Components v).

Section KDTreeCode.

(** [sort.Slice(vectors, less)] as a function of the comparator and of the
    slice, and [math.Sqrt]. *)
Variable sort_Slice : (Vector -> Vector -> bool) -> list Vector -> list Vector.
Variable Sqrt : Q -> Q.

(** [build(vectors, depth)].  The comparator reads component [axis] of
    every vector as soon as there are two of them, and panics on a vector
    that has none.  [fuel] bounds the depth of the recursion. *)
Fixpoint build (fuel : nat) (vectors : list Vector) (depth : Z) : option node :=
  match vectors with
  | [] => Some nil_node
  | v0 :: _ =>
      match fuel with
      | O => None
      | S fuel =>
          let k := Z.of_nat (length (Components v0)) in
          if k =? 0 then None else
          let axis := Z.rem depth k in
          if (2 <=? Z.of_nat (length vectors)) &&
             negb (forallb (fun v => bool_decide (is_Some (comp v axis))) vectors)
          then None else
          let vectors := sort_Slice (less axis) vectors in
          let medianIndex := Z.quot (Z.of_nat (length vectors)) 2 in
          medianPoint ← at_index vectors medianIndex;
          l ← build fuel (take (Z.to_nat medianIndex) vectors) (depth + 1);
          r ← build fuel (drop (Z.to_nat (medianIndex + 1)) vectors) (depth + 1);
          Some (mk_node medianPoint l r)
      end
  end.

Definition BuildKDTree (vectors : list Vector) : option KDTree :=
  r ← build (length vectors) vectors 0;
  Some {| root := r |}.

Fixpoint rangeQuery (n : node) (center : Vector) (radius : Q) (depth : Z)
    : option (list Vector) :=
  match n with
  | nil_node => Some []
  | mk_node v l r =>
      let k := Z.of_nat (length (Components v)) in
      if k =? 0 then None else
      let axis := Z.rem depth k in
      d ← squaredDistance v center;
      let pointsInRange := if fleb d (radius * radius)%Q then [v] else [] in
      pointsInRange ←
        match l with
        | nil_node => Some pointsInRange
        | _ =>
            c ← comp center axis;
            s ← comp v axis;
            if fleb (c - radius)%Q s then
              q ← rangeQuery l center radius (depth + 1);
              Some (pointsInRange ++ q)
            else Some pointsInRange
        end;
      match r with
      | nil_node => Some pointsInRange
      | _ =>
          c ← comp center axis;
          s ← comp v axis;
          if fleb s (c + radius)%Q then
            q ← rangeQuery r center radius (depth + 1);
            Some (pointsInRange ++ q)
          else Some pointsInRange
      end
  end.

Definition RangeQuery (t : KDTree) (center : Vector) (radius : Q)
    : option (list Vector) :=
  rangeQuery (root t) center radius 0.

(** [nearest(n, target, depth, best, bestDist)]; [best] is a [*node]. *)
Fixpoint nearest (n : node) (target : Vector) (depth : Z) (best : node)
    (bestDist : Q) : option (node * Q) :=
  match n with
  | nil_node => Some (best, bestDist)
  | mk_node v l r =>
      let k := Z.of_nat (length (Components target)) in
      if k =? 0 then None else
      let axis := Z.rem depth k in
      dist ← squaredDistance v target;
      let '(best, bestDist) :=
        if fltb dist bestDist then (n, dist) else (best, bestDist) in
      t ← comp target axis;
      s ← comp v axis;
      let goes_left := fltb t s in
      let next := if goes_left then nearest l else nearest r in
      let other := if goes_left then nearest r else nearest l in
      '(best, bestDist) ← next target (depth + 1) best bestDist;
      if fltb (Qabs (s - t)) (Sqrt bestDist)
      then other target (depth + 1) best bestDist
      else Some (best, bestDist)
  end.

(** [t.FindNearest(target)]: [best.v] panics when [best] is nil. *)
Definition FindNearest (t : KDTree) (target : Vector) : option (Vector * Q) :=
  '(best, bestDist) ← nearest (root t) target 0 nil_node MaxFloat64;
  match best with
  | nil_node => None
  | mk_node v _ _ => Some (v, bestDist)
  end.

End KDTreeCode.

(** The points stored in a tree. *)
Fixpoint points (n : node) : list Vector :=
  match n with
  | nil_node => []
  | mk_node v l r => v :: points l ++ points r
  end.

(** The Euclidean distance of two points, in the reals. *)
Definition distance (p c : Vector) : R :=
  sqrt (fold_right Rplus 0%R
          (zip_with (fun x y => ((Q2R x - Q2R y) * (Q2R x - Q2R y))%R)
                    (Components p) (Components c))).

(** An insertion sort: one function that meets the contract of sort.Slice. *)
Fixpoint insert_sorted (lt : Vector -> Vector -> bool) (x : Vector)
    (l : list Vector) : list Vector :=
  match l with
  | [] => [x]
  | y :: l' => if lt x y then x :: l else y :: insert_sorted lt x l'
  end.

Definition insertion_sort (lt : Vector -> Vector -> bool) (l : list Vector)
    : list Vector :=
  foldr (insert_sorted lt) [] l.

(** An upper integer square root: one function that is positive on positive
    arguments, as math.Sqrt is. *)
Definition sqrt_up (x : Q) : Q :=
  Z.sqrt_up (Qnum x * QDen x) # Qden x.


(** ** The bit set (a [big.Int]) *)

Definition Bitset := Z.

Definition NewBigInt : Bitset := 0.

(** [b.Exists(i)]: [big.Int.Bit] panics on a negative index. *)
Definition Exists (b : Bitset) (i : Z) : option bool :=
  if i <? 0 then None else Some (Z.testbit b i).

(** [b.Set(i, value)]: [big.Int.SetBit] panics on a negative index. *)
Definition Set_ (b : Bitset) (i : Z) (value : bool) : option Bitset :=
  if i <? 0 then None
  else Some (if value then Z.setbit b i else Z.clearbit b i).

(** ** The shortest-path engine (dijkstra.go, first part) *)

Definition INFINITE : Q := MaxFloat32.

Record Criteria := {
  Source : list Z;
  Targets : list Z
}.

(** The result of a search; the PathCost matrix of the Go struct is never
    written and is left out. *)
Record Response := {
  SearchSpace : Graph;
  Costs : gmap Z Q
}.

Record DijkstraSearch := {
  pq : Heap;
  visited : Bitset;
  previous : Graph;
  costs : gmap Z Q;
  sources : Bitset;
  target : Z
}.

(** [costs.GetCost(id)]: the cost and the error. *)
Definition GetCost (costs : gmap Z Q) (id : Z) : Q * option string :=
  match costs !! id with
  | Some v => (v, None)
  | None => (INFINITE, Some "path not found")
  end.

Definition add_source (search : DijkstraSearch) (s : Z) : option DijkstraSearch :=
  let costs' := <[s := 0%Q]> (costs search) in
  pq' ← Insert (pq search)
         {| Value := s; Cost := 0; Depth := 0; Previous := 0; Dist := 0 |};
  sources' ← Set_ (sources search) s true;
  Some {| pq := pq'; visited := visited search; previous := previous search;
          costs := costs'; sources := sources'; target := target search |}.

Definition NewDijkstra (c : Criteria) : option DijkstraSearch :=
  let target := match Targets c with t :: _ => t | [] => -1 end in
  foldl (fun o s => search ← o; add_source search s)
    (Some {| pq := Create; visited := NewBigInt; previous := EmptyGraph;
             costs := ∅; sources := NewBigInt; target := target |})
    (Source c).

Definition reachTarget (search : DijkstraSearch) (currentValue : Z) : bool :=
  (0 <=? target search) && (currentValue =? target search).

Definition wasVisited (search : DijkstraSearch) (id : Z) : option bool :=
  Exists (visited search) id.

Definition isFinished (search : DijkstraSearch) : bool := IsEmpty (pq search).

(** [search.addPrevious()]: the engine after the call and the id of the new
    tree node. *)
Definition addPrevious (search : DijkstraSearch) : option (DijkstraSearch * Z) :=
  '(min, _) ← Min (pq search);
  let '(prev, currentID) :=
    AddNode (previous search) {| ID := 0; Location := 0; Rank := Value min |} in
  prev ←
    (if negb (Previous min =? currentID) then
       RelateNodes prev {| ID := Previous min; Location := 0; Rank := 0 |}
         {| ID := currentID; Location := 0; Rank := 0 |} (Cost min) LeftToRight
         {| Speed := 0; Distance := Dist min; RoadType := "" |}
     else Some prev);
  Some ({| pq := pq search; visited := visited search; previous := prev;
           costs := costs search; sources := sources search;
           target := target search |}, currentID).

(** [search.Relax(v, currentID, w, distance)]. *)
Definition Relax (search : DijkstraSearch) (v : Node) (currentID : Z)
    (w distance : Q) : option DijkstraSearch :=
  '(min, _) ← Min (pq search);
  seen ← wasVisited search (ID v);
  if negb seen then
    let cost := default 0%Q (costs search !! Value min) in
    let currentPathValue := (cost + w)%Q in
    let currentDistancePathValue := (cost + distance)%Q in
    let '(edgeC, _) := GetCost (costs search) (ID v) in
    if fltb currentPathValue edgeC then
      let costs' := <[ID v := currentPathValue]> (costs search) in
      pq' ← Insert (pq search)
             {| Value := ID v; Cost := currentPathValue;
                Depth := int32 (Depth min + 1); Previous := currentID;
                Dist := currentDistancePathValue |};
      Some {| pq := pq'; visited := visited search;
              previous := previous search; costs := costs';
              sources := sources search; target := target search |}
    else Some search
  else Some search.

(** The memory Run works on: the caller's graph and the engine. *)
Record State := {
  graph : Graph;
  engine : DijkstraSearch
}.

Definition response (st : State) : Response :=
  {| SearchSpace := previous (engine st); Costs := costs (engine st) |}.

(** The loop over the outgoing edges of the node taken from the queue. *)
Fixpoint relax_edges (g : Graph) (search : DijkstraSearch) (currentID : Z)
    (es : list Edge) : option DijkstraSearch :=
  match es with
  | [] => Some search
  | e :: es =>
      v ← at_index (Nodes g) (eID e);
      search ← Relax search v currentID (Weight e) (Distance (Metadata e));
      relax_edges g search currentID es
  end.

(** One iteration of the loop of Run either returns or goes on with a new
    state and a new [currentID]. *)
Inductive Outcome :=
  | Return (st : State)
  | Continue (st : State) (currentID : Z).

Definition Run_body (st : State) (currentID : Z) : option Outcome :=
  let g := graph st in
  let search := engine st in
  '(min, _) ← Min (pq search);
  seen ← wasVisited search (Value min);
  '(search, currentID) ←
    (if negb seen then addPrevious search else Some (search, currentID));
  visited' ← Set_ (visited search) (Value min) true;
  let search :=
    {| pq := pq search; visited := visited'; previous := previous search;
       costs := costs search; sources := sources search;
       target := target search |} in
  if reachTarget search (Value min) then
    Some (Return {| graph := g; engine := search |})
  else
    es ← at_index (OutgoingEdges g) (Value min);
    search ← relax_edges g search currentID es;
    '(pq', _) ← DeleteMin (pq search);
    Some (Continue
            {| graph := g;
               engine := {| pq := pq'; visited := visited search;
                            previous := previous search; costs := costs search;
                            sources := sources search;
                            target := target search |} |}
            currentID).

(** The loop of Run, for at most [fuel] iterations: the response and the
    final memory.  [None] is a panic, or the fuel running out. *)
Fixpoint Run_loop (fuel : nat) (st : State) (currentID : Z)
    : option (Response * State) :=
  if isFinished (engine st) then Some (response st, st)
  else
    match fuel with
    | O => None
    | S fuel =>
        o ← Run_body st currentID;
        match o with
        | Return st => Some (response st, st)
        | Continue st currentID => Run_loop fuel st currentID
        end
    end.

(** The number of iterations that suffice when no weight is negative: every
    entry of the queue is removed once, and every edge adds at most one. *)
Definition Run_fuel (search : DijkstraSearch) (g : Graph) : nat :=
  length (items (pq search)) + sum_list (length <$> OutgoingEdges g).

(** [search.Run(g)]. *)
Definition Run (search : DijkstraSearch) (g : Graph) : option Response :=
  fst <$> Run_loop (Run_fuel search g) {| graph := g; engine := search |} 0.

(** The edge the engine follows from [u]: an entry [e] of [outgoing[u]],
    leading to the node [g.Nodes[e.ID]], known by its [ID]. *)
Definition arc (g : Graph) (u v : Z) (w d : Q) : Prop :=
  exists e n, out_has g u e /\ at_index (Nodes g) (eID e) = Some n /\
    ID n = v /\ Weight e = w /\ Distance (Metadata e) = d.

(** A directed path and the sum of its weights. *)
Inductive path (g : Graph) : Z -> Z -> Q -> Prop :=
  | path_nil u : path g u u 0
  | path_snoc u v x total w d :
      path g u v total -> arc g v x w d -> path g u x (total + w).

Definition reachable (g : Graph) (srcs : list Z) (v : Z) : Prop :=
  exists s total, s ∈ srcs /\ path g s v total.

(** [d] is the least weight of a path from a source to [v]. *)
Definition shortest (g : Graph) (srcs : list Z) (v : Z) (d : Q) : Prop :=
  (exists s total, s ∈ srcs /\ path g s v total /\ (total == d)%Q) /\
  (forall s total, s ∈ srcs -> path g s v total -> (d <= total)%Q).

Definition nonneg_weights (g : Graph) : Prop :=
  forall u e, out_has g u e -> (0 <= Weight e)%Q.

(** The graphs built with AddNode and RelateNodes; the ids handed to
    RelateNodes are [int32] values. *)
Inductive Built : Graph -> Prop :=
  | Built_empty : Built EmptyGraph
  | Built_AddNode g n : Built g -> Built (fst (AddNode g n))
  | Built_RelateNodes g a b w dir m g' :
      Built g -> in_int32 (ID a) -> in_int32 (ID b) ->
      RelateNodes g a b w dir m = Some g' -> Built g'.

(** A valid source id: an [int32] that is the id of a node. *)
Definition valid_id (g : Graph) (s : Z) : Prop :=
  has_node g s /\ in_int32 s.



(** [b.Len()]: [big.Int.BitLen], the number of bits of the absolute value,
    0 for 0. *)
Definition Len (b : Bitset) : Z :=
  if b =? 0 then 0 else Z.log2 (Z.abs b) + 1.

(** [CreateWithValue(value)]: the fields not named in the literal are
    zero. *)
Definition CreateWithValue (value : Z) : option Heap :=
  Insert Create
    {| Value := value; Cost := 0; Depth := 0; Previous := 0; Dist := 0 |}.

(** ** Vectors (vector.go) *)

Definition NewVector (id : Z) (components : list float64) : Vector :=
  {| vID := id; Components := components |}.

(** [v.Add(other)]: the result is a fresh [Vector] literal, so its [ID] is
    zero. *)
Definition Add (v other : Vector) : option Vector :=
  if bool_decide (length (Components v) = length (Components other)) then
    Some {| vID := 0;
            Components := zip_with Qplus (Components v) (Components other) |}
  else None.

Definition Scale (v : Vector) (scalar : float64) : Vector :=
  {| vID := 0; Components := (fun component => component * scalar)%Q <$> Components v |}.

Definition Subtract (v other : Vector) : option Vector :=
  Add v (Scale other (-1)).

(** The loop of Dot over the components of [v]: [other.Components[i]] panics
    when [other] has fewer. *)
Fixpoint Dot_loop (result : Q) (vs os : list Q) : option Q :=
  match vs with
  | [] => Some result
  | component :: vs =>
      match os with
      | [] => None
      | o :: os => Dot_loop (result + component * o)%Q vs os
      end
  end.

Definition Dot (v other : Vector) : option Q :=
  Dot_loop 0%Q (Components v) (Components other).

Definition Between (v x : Vector) : option bool :=
  a ← Dot v x;
  if fltb 0 a then
    b ← Dot v x;
    c ← Dot v v;
    Some (fltb b c)
  else Some false.

Definition Copy (v : Vector) : Vector :=
  {| vID := 0; Components := Components v |}.

(** The loop of Distance and of DistanceSquared is that of squaredDistance. *)
Definition DistanceSquared (v other : Vector) : option Q :=
  squaredDistance_loop 0%Q (Components v) (Components other).

(** [comp != 0] on every component. *)
Definition IsZero (v : Vector) : bool :=
  forallb (fun comp => Qeq_bool comp 0) (Components v).

Fixpoint Equals_loop (vs os : list Q) : option bool :=
  match vs with
  | [] => Some true
  | comp :: vs =>
      match os with
      | [] => None
      | o :: os => if negb (Qeq_bool comp o) then Some false
                   else Equals_loop vs os
      end
  end.

Definition Equals (v other : Vector) : option bool :=
  if negb (length (Components v) =? length (Components other))%nat
  then Some false
  else Equals_loop (Components v) (Components other).

Section VectorCode.

Variable Sqrt : Q -> Q.

Definition Magnitude (v : Vector) : option Q :=
  d ← Dot v v; Some (Sqrt d).

Definition Normalize (v : Vector) : option Vector :=
  mag ← Magnitude v;
  if Qeq_bool mag 0 then
    Some {| vID := 0; Components := replicate (length (Components v)) 0%Q |}
  else Some (Scale v (1 / mag)).

Definition Unit (v : Vector) : option Vector := Normalize v.

Definition Project (v other : Vector) : option Vector :=
  u ← Unit other;
  d ← Dot v u;
  Some (Scale u d).

(** [v.Distance(other)]; [Distance] is already the field of MetaData. *)
Definition Vector_Distance (v other : Vector) : option Q :=
  sumSquares ← squaredDistance_loop 0%Q (Components v) (Components other);
  Some (Sqrt sumSquares).

End VectorCode.


(** The test of rangeQuery on a point: [squaredDistance(p, center) <=
    radius*radius]. *)
Definition in_range (center : Vector) (radius : Q) (p : Vector) : bool :=
  match squaredDistance p center with
  | Some d => fleb d (radius * radius)
  | None => false
  end.


(** ** Small graphs *)

Definition node_of (i : Z) : Node := {| ID := i; Location := 0; Rank := 0 |}.

(** The graph of [n] nodes and the one-way roads [(a, b, weight, distance)],
    added in order. *)
Definition roads (n : nat) (es : list (Z * Z * Q * Q)) : option Graph :=
  foldl (fun og '(a, b, w, d) =>
           g ← og;
           RelateNodes g (node_of a) (node_of b) w LeftToRight
             {| Speed := 0; Distance := d; RoadType := "" |})
        (Some (AddNodes EmptyGraph (replicate n (node_of 0)))) es.

(** Three nodes: the road from 0 to 1 costs 10, the roads from 0 to 2 and
    from 2 to 1 cost 1 each. *)
Definition triangle : Graph :=
  default EmptyGraph
    (roads 3 [(0, 1, 10%Q, 10%Q); (0, 2, 1%Q, 1%Q); (2, 1, 1%Q, 1%Q)]).

(** Three nodes in a row: from 0 to 1 at cost 1 over a distance of 5, and
    from 1 to 2 at cost 2 over a distance of 7. *)
Definition chain : Graph :=
  default EmptyGraph (roads 3 [(0, 1, 1%Q, 5%Q); (1, 2, 2%Q, 7%Q)]).

(** Two nodes and a road between them in both directions. *)
Definition two_way : Graph :=
  default EmptyGraph
    (RelateNodes (AddNodes EmptyGraph [node_of 0; node_of 0])
       (node_of 0) (node_of 1) 1 Bidirectional MetaData0).

Definition nonneg_weightsb (g : Graph) : bool :=
  forallb (forallb (fun e => Qle_bool 0 (Weight e))) (OutgoingEdges g).

(** ** The path of a tree node (dijkstra.go, PathCoord) *)

Section PathCoordCode.

(** [s2.CellID(location).LatLng().Lng.Degrees()] and [...Lat.Degrees()]. *)
Variable LngDegrees LatDegrees : Z -> float64.

(** The loop of PathCoord over the queue, for at most [fuel] iterations.
    [None] is a panic, or the fuel running out. *)
Fixpoint PathCoord_loop (fuel : nat) (sp g : Graph) (queue : list Z)
    (result : list (list float64)) : option (list (list float64)) :=
  match queue with
  | [] => Some result
  | nodeID :: queue =>
      match fuel with
      | O => None
      | S fuel =>
          n ← at_index (Nodes sp) nodeID;
          gn ← at_index (Nodes g) (Rank n);
          es ← at_index (IncomingEdges sp) nodeID;
          PathCoord_loop fuel sp g (queue ++ (eID <$> es))
            (result ++ [[LngDegrees (Location gn); LatDegrees (Location gn)]])
      end
  end.

(** [sp.PathCoord(target, g)]. *)
Definition PathCoord (fuel : nat) (sp : Graph) (target : Z) (g : Graph)
    : option (list (list float64)) :=
  PathCoord_loop fuel sp g [target] [].

(** The pair PathCoord writes for the tree node [i]. *)
Definition coord_of (sp g : Graph) (i : Z) : option (list float64) :=
  n ← at_index (Nodes sp) i;
  gn ← at_index (Nodes g) (Rank n);
  Some [LngDegrees (Location gn); LatDegrees (Location gn)].

End PathCoordCode.

(** Tree node 0 has no incoming edge, and every other tree node has one,
    from a node added before it. *)
Definition tree_in (T : Graph) : Prop :=
  forall j es, IncomingEdges T !! j = Some es ->
    match j with
    | O => es = []
    | S _ => exists e, es = [e] /\ 0 <= eID e < Z.of_nat j
    end.

(** [back_path g sp srcs costs c l]: [l] lists tree nodes from [c] back to
    tree node 0, each the predecessor of the one before; a step stands for an
    edge of the graph whose weight is the difference of the costs of its
    ends, or leads from a source to tree node 0. *)
Inductive back_path (g sp : Graph) (srcs : list Z) (costs : gmap Z Q)
    : Z -> list Z -> Prop :=
  | back_root n :
      at_index (Nodes sp) 0 = Some n -> Rank n ∈ srcs ->
      costs !! Rank n = Some 0%Q ->
      back_path g sp srcs costs 0 [0]
  | back_source c n l :
      0 < c -> at_index (Nodes sp) c = Some n -> Rank n ∈ srcs ->
      costs !! Rank n = Some 0%Q ->
      back_path g sp srcs costs 0 l ->
      back_path g sp srcs costs c (c :: l)
  | back_arc c p l nc np cc cp w d :
      p < c ->
      at_index (Nodes sp) c = Some nc -> at_index (Nodes sp) p = Some np ->
      costs !! Rank nc = Some cc -> costs !! Rank np = Some cp ->
      arc g (Rank np) (Rank nc) w d -> (cc == cp + w)%Q ->
      back_path g sp srcs costs p l ->
      back_path g sp srcs costs c (c :: l).


(** ** Reading a map (pbf.go) *)

(** What the decoder yields, one object at a time: a node, a way, or an
    object of another kind.  Of a node the code reads the id and the
    position, of a way the id, the tags and the ids of its nodes.  A file is
    the list of its objects; a decoding error, on which the code exits, is
    not modelled. *)
Record OsmNode := {
  nID : Z;
  nLat : float64;
  nLon : float64
}.

Record OsmWay := {
  wID : Z;
  wTags : gmap string string;
  NodeIDs : list Z
}.

Inductive OsmObject :=
  | OsmNodeObject (n : OsmNode)
  | OsmWayObject (w : OsmWay)
  | OsmOtherObject.

Definition Highway : string := "highway".
Definition LivingStreet : string := "living_street".
Definition Motorway : string := "motorway".
Definition MotorwayLink : string := "motorway_link".
Definition Primary : string := "primary".
Definition PrimaryLink : string := "primary_link".
Definition Residential : string := "residential".
Definition Secondary : string := "secondary".
Definition SecondaryLink : string := "secondary_link".
Definition Tertiary : string := "tertiary".
Definition TertiaryLink : string := "tertiary_link".
Definition Trunk : string := "trunk".
Definition TrunkLink : string := "trunk_link".
Definition Unclassified : string := "unclassified".
Definition Junction : string := "junction".
Definition Roundabout : string := "roundabout".
Definition Oneway : string := "oneway".
Definition Yes : string := "yes".

(** [validWay(w)]: a way without the tag is looked up under the empty
    string. *)
Definition validWay (w : OsmWay) : bool :=
  bool_decide (default "" (wTags w !! Highway) ∈
    [Motorway; MotorwayLink; Trunk; TrunkLink; Primary; PrimaryLink;
     Secondary; SecondaryLink; Tertiary; TertiaryLink; Residential;
     Unclassified; LivingStreet]).

Definition edgeDirectionFromWay (w : OsmWay) : EdgeDirection :=
  if bool_decide (wTags w !! Oneway = Some Yes) then LeftToRight
  else if bool_decide (wTags w !! Junction = Some Roundabout) then LeftToRight
  else Bidirectional.

(** The body of the inner loop of determineValidNodesFromFile: the map and
    the counter [i] after the node id [n]. *)
Definition number_node (st : gmap Z Z * Z) (n : Z) : gmap Z Z * Z :=
  match fst st !! n with
  | Some _ => st
  | None => (<[n := int32 (snd st)]> (fst st), snd st + 1)
  end.

Definition number_object (st : gmap Z Z * Z) (o : OsmObject) : gmap Z Z * Z :=
  match o with
  | OsmWayObject w => if validWay w then foldl number_node st (NodeIDs w) else st
  | _ => st
  end.

(** [determineValidNodesFromFile(path)], on the objects decoded from the
    file. *)
Definition determineValidNodesFromFile (objs : list OsmObject) : gmap Z Z :=
  fst (foldl number_object (∅, 0) objs).

Section BuildGraphCode.

(** [coordinatesToCellID] and [DistanceMeters], which call the s2 and the
    haversine packages, and [strings.ToLower]. *)
Variable coordinatesToCellID : float64 -> float64 -> Z.
Variable DistanceMeters : Z -> Z -> float32.
Variable ToLower : string -> string.

(** [buildNode(g, node, nodes)]: the graph and the map after the call. *)
Definition buildNode (g : Graph) (node : OsmNode) (nodes : gmap Z Z)
    : Graph * gmap Z Z :=
  let osmID := nID node in
  match nodes !! osmID with
  | Some _ =>
      let '(g, id) :=
        AddNode g {| ID := 0;
                     Location := coordinatesToCellID (nLat node) (nLon node);
                     Rank := 0 |} in
      (g, <[osmID := id]> nodes)
  | None => (g, nodes)
  end.

(** The loop of buildWay over the node ids from position [i] on: the graph
    and the map of the ways after it. *)
Fixpoint buildWay_loop (way : OsmWay) (nodes : gmap Z Z) (ids : list Z)
    (g : Graph) (ways : gmap Z (list Z)) : option (Graph * gmap Z (list Z)) :=
  match ids with
  | a :: ((b :: rest) as ids') =>
      match nodes !! a, nodes !! b with
      | Some idA, Some idB =>
          nodeA ← at_index (Nodes g) idA;
          nodeB ← at_index (Nodes g) idB;
          let distance := DistanceMeters (Location nodeA) (Location nodeB) in
          let roadType :=
            match wTags way !! Highway with
            | Some highwayTag => ToLower highwayTag
            | None => "n/a"
            end in
          g ← RelateNodes g nodeA nodeB distance (edgeDirectionFromWay way)
                 {| Speed := 50; Distance := distance; RoadType := roadType |};
          let ways :=
            <[wID way := default [] (ways !! wID way) ++ [ID nodeA]]> ways in
          let ways :=
            match rest with
            | [] => <[wID way := default [] (ways !! wID way) ++ [ID nodeB]]> ways
            | _ => ways
            end in
          buildWay_loop way nodes ids' g ways
      | _, _ => buildWay_loop way nodes ids' g ways
      end
  | _ => Some (g, ways)
  end.

Definition buildWay (g : Graph) (way : OsmWay) (nodes : gmap Z Z)
    (ways : gmap Z (list Z)) : option (Graph * gmap Z (list Z)) :=
  buildWay_loop way nodes (NodeIDs way) g ways.

(** The memory of the loop of BuildGraph. *)
Record BuildState := {
  bg : Graph;
  bnodes : gmap Z Z;
  bways : gmap Z (list Z)
}.

Definition BuildGraph_step (st : BuildState) (obj : OsmObject)
    : option BuildState :=
  match obj with
  | OsmNodeObject node =>
      let '(g, nodes) := buildNode (bg st) node (bnodes st) in
      Some {| bg := g; bnodes := nodes; bways := bways st |}
  | OsmWayObject way =>
      if validWay way then
        '(g, ways) ← buildWay (bg st) way (bnodes st) (bways st);
        Some {| bg := g; bnodes := bnodes st; bways := ways |}
      else Some st
  | OsmOtherObject => Some st
  end.

Fixpoint BuildGraph_loop (st : BuildState) (objs : list OsmObject)
    : option BuildState :=
  match objs with
  | [] => Some st
  | obj :: objs => st ← BuildGraph_step st obj; BuildGraph_loop st objs
  end.

(** [BuildGraph(path)], on the objects decoded from the file, which is read
    twice. *)
Definition BuildGraph (objs : list OsmObject) : option Graph :=
  let nodes := determineValidNodesFromFile objs in
  st ← BuildGraph_loop
         {| bg := EmptyGraph; bnodes := nodes; bways := ∅ |} objs;
  Some (bg st).

End BuildGraphCode.

Section BuildNodeIndexCode.

Variable sort_Slice : (Vector -> Vector -> bool) -> list Vector -> list Vector.

(** [s2.CellID(location).LatLng()] in degrees, and [LatLngToMeters]. *)
Variable LatDegrees LngDegrees : Z -> float64.
Variable LatLngToMeters : float64 -> float64 -> float64 * float64.

(** The loop of BuildNodeIndex over the nodes. *)
Fixpoint index_vectors (g : Graph) (ns : list Node) (vectors : list Vector)
    : option (list Vector) :=
  match ns with
  | [] => Some vectors
  | n :: ns =>
      es ← at_index (OutgoingEdges g) (ID n);
      if 0 <? Z.of_nat (length es) then
        let '(x, y) :=
          LatLngToMeters (LatDegrees (Location n)) (LngDegrees (Location n)) in
        index_vectors g ns (vectors ++ [{| vID := ID n; Components := [x; y] |}])
      else index_vectors g ns vectors
  end.

(** [g.BuildNodeIndex()]. *)
Definition BuildNodeIndex (g : Graph) : option KDTree :=
  vectors ← index_vectors g (Nodes g) [];
  BuildKDTree sort_Slice vectors.

End BuildNodeIndexCode.

(** The node ids of the valid ways, in the order of the file. *)
Definition valid_way_nodes (objs : list OsmObject) : list Z :=
  objs ≫= (fun o =>
    match o with
    | OsmWayObject w => if validWay w then NodeIDs w else []
    | _ => []
    end).

(** The elements of a list in the order of their first occurrence. *)
Definition first_seen (l : list Z) : list Z :=
  foldl (fun acc n => if decide (n ∈ acc) then acc else acc ++ [n]) [] l.

(** The node objects BuildGraph keeps: those whose id has a number in
    [keys], in the order of the file. *)
Definition kept_nodes (keys : gmap Z Z) (objs : list OsmObject) : list OsmNode :=
  objs ≫= (fun o =>
    match o with
    | OsmNodeObject n => if decide (is_Some (keys !! nID n)) then [n] else []
    | _ => []
    end).

Definition is_node (o : OsmObject) : bool :=
  match o with OsmNodeObject _ => true | _ => false end.

Definition is_way (o : OsmObject) : bool :=
  match o with OsmWayObject _ => true | _ => false end.

(** [j] is the position of the last node with the id [k] in [kept]. *)
Definition last_index (kept : list OsmNode) (k : Z) (j : nat) : Prop :=
  (exists n, kept !! j = Some n /\ nID n = k) /\
  forall j' n', kept !! j' = Some n' -> nID n' = k -> (j' <= j)%nat.

Section BuildNodeIndexSpec.

Variable LatDegrees LngDegrees : Z -> float64.
Variable LatLngToMeters : float64 -> float64 -> float64 * float64.

(** The vector BuildNodeIndex makes of a node. *)
Definition node_vector (n : Node) : Vector :=
  let '(x, y) :=
    LatLngToMeters (LatDegrees (Location n)) (LngDegrees (Location n)) in
  {| vID := ID n; Components := [x; y] |}.

(** The node has an outgoing edge. *)
Definition has_outgoing (g : Graph) (n : Node) : bool :=
  match at_index (OutgoingEdges g) (ID n) with
  | Some (_ :: _) => true
  | _ => false
  end.

(** The vectors of the nodes that have an outgoing edge, in the order of
    the nodes. *)
Definition indexed (g : Graph) : list Vector :=
  node_vector <$> filter (fun n => has_outgoing g n = true) (Nodes g).

End BuildNodeIndexSpec.

(** A file of three nodes and one way through them. *)
Definition small_way : OsmWay :=
  {| wID := 7; wTags := {[ "highway" := "primary" ]};
     NodeIDs := [10; 20; 30] |}.

Definition small_nodes : list OsmObject :=
  [OsmNodeObject {| nID := 10; nLat := 1; nLon := 5 |};
   OsmNodeObject {| nID := 20; nLat := 4; nLon := 5 |};
   OsmNodeObject {| nID := 30; nLat := 8; nLon := 5 |}].

Definition small_map : list OsmObject :=
  small_nodes ++ [OsmWayObject small_way].

(** * Proofs *)

(** ** Slices *)

Lemma at_index_Some {A} (s : list A) i x :
  at_index s i = Some x <-> 0 <= i /\ s !! Z.to_nat i = Some x.
Proof.
  unfold at_index. destruct (Z.ltb_spec i 0); split.
  - discriminate.
  - intros [? _]. lia.
  - auto.
  - intros [_ ?]. auto.
Qed.

Lemma at_index_lt {A} (s : list A) i x :
  at_index s i = Some x -> 0 <= i < Z.of_nat (length s).
Proof.
  intros [? H]%at_index_Some. apply lookup_lt_Some in H. lia.
Qed.

Lemma at_index_is_Some {A} (s : list A) i :
  0 <= i < Z.of_nat (length s) -> is_Some (at_index s i).
Proof.
  intros. unfold at_index. destruct (Z.ltb_spec i 0); [lia|].
  apply lookup_lt_is_Some. lia.
Qed.

Lemma set_index_Some {A} (s : list A) i x s' :
  set_index s i x = Some s' <->
  0 <= i < Z.of_nat (length s) /\ s' = <[Z.to_nat i := x]> s.
Proof.
  unfold set_index.
  destruct (Z.leb_spec 0 i), (Z.ltb_spec i (Z.of_nat (length s))); simpl;
    split; try discriminate; try (intros [? ?]; lia).
  - intros [= <-]. auto.
  - intros [_ ->]. auto.
Qed.

Lemma at_set_index {A} (s s' : list A) i j x :
  set_index s i x = Some s' ->
  at_index s' j = if decide (i = j) then Some x else at_index s j.
Proof.
  intros [Hi ->]%set_index_Some. unfold at_index.
  case_decide as Hij.
  - subst j. destruct (Z.ltb_spec i 0); [lia|].
    apply list_lookup_insert_eq. lia.
  - destruct (Z.ltb_spec j 0); [done|].
    apply list_lookup_insert_ne. lia.
Qed.

Lemma set_index_length {A} (s s' : list A) i x :
  set_index s i x = Some s' -> length s' = length s.
Proof. intros [_ ->]%set_index_Some. apply length_insert. Qed.

(** ** AddNode *)

Lemma int32_small x : 0 <= x < 2 ^ 31 -> int32 x = x.
Proof. intros. unfold int32. rewrite Z.mod_small; lia. Qed.

Lemma AddNodes_snoc g ns n :
  AddNodes g (ns ++ [n]) = fst (AddNode (AddNodes g ns) n).
Proof. unfold AddNodes. by rewrite fold_left_app. Qed.

Lemma AddNodes_length g ns :
  length (Nodes (AddNodes g ns)) = (length (Nodes g) + length ns)%nat /\
  length (OutgoingEdges (AddNodes g ns)) =
    (length (OutgoingEdges g) + length ns)%nat /\
  length (IncomingEdges (AddNodes g ns)) =
    (length (IncomingEdges g) + length ns)%nat.
Proof.
  induction ns as [|n ns IH] using rev_ind.
  - simpl. lia.
  - rewrite AddNodes_snoc. simpl. rewrite !length_app. simpl. lia.
Qed.

Lemma AddNodes_lookup ns i n :
  Nodes (AddNodes EmptyGraph ns) !! i = Some n ->
  exists n0, ns !! i = Some n0 /\
    n = {| ID := int32 (Z.of_nat i); Location := Location n0;
           Rank := Rank n0 |}.
Proof.
  revert i n. induction ns as [|m ns IH] using rev_ind; intros i n.
  - simpl. by rewrite lookup_nil.
  - rewrite AddNodes_snoc. simpl.
    destruct (AddNodes_length EmptyGraph ns) as (Hlen & _). simpl in Hlen.
    intros H. apply lookup_app_Some in H as [H|[Hge H]].
    + destruct (IH _ _ H) as (n0 & Hn0 & ->).
      exists n0. split; [|done]. by apply lookup_app_l_Some.
    + rewrite Hlen in *.
      apply list_lookup_singleton_Some in H as [Hi <-].
      assert (i = length ns) as -> by lia.
      exists m. split; [|done].
      rewrite lookup_app_r by lia. by rewrite Nat.sub_diag.
Qed.

Lemma AddNode_last g n :
  Nodes (fst (AddNode g n)) !! length (Nodes g) =
  Some {| ID := int32 (Z.of_nat (length (Nodes g)));
          Location := Location n; Rank := Rank n |}.
Proof.
  unfold AddNode. cbn [fst Nodes].
  rewrite lookup_app_r by lia. by rewrite Nat.sub_diag.
Qed.

(** C9, as stated, fails: the id is [int32(len(g.Nodes))], so the node
    appended to a graph of 2^31 nodes gets the id -2^31, which is neither its
    index nor the next sequential id. *)
Lemma AddNode_id_wraps :
  let n := {| ID := 0; Location := 0; Rank := 0 |} in
  let g := AddNodes EmptyGraph (replicate (Z.to_nat (2 ^ 31)) n) in
  length (Nodes g) = Z.to_nat (2 ^ 31) /\
  snd (AddNode g n) = - 2 ^ 31 /\
  Nodes (fst (AddNode g n)) !! Z.to_nat (2 ^ 31) =
    Some {| ID := - 2 ^ 31; Location := 0; Rank := 0 |}.
Proof.
  intros n g.
  assert (Hlen : length (Nodes g) = Z.to_nat (2 ^ 31)).
  { unfold g. destruct (AddNodes_length EmptyGraph
      (replicate (Z.to_nat (2 ^ 31)) n)) as (-> & _).
    rewrite length_replicate. reflexivity. }
  assert (Hid : int32 (Z.of_nat (length (Nodes g))) = - 2 ^ 31).
  { rewrite Hlen, Z2Nat.id by lia. reflexivity. }
  split; [exact Hlen|]. split.
  - unfold AddNode, snd. exact Hid.
  - rewrite <- Hlen, AddNode_last, Hid. reflexivity.
Qed.

(** C9 (amended): in a graph built by at most 2^31 calls of AddNode the node
    stored at index i has ID i, whatever ID the arguments carried; the call
    returns the next sequential id, the number of nodes added before it (0
    for the first); and the three collections have equal lengths. *)
Theorem AddNode_sequential (ns : list Node) (n : Node) :
  Z.of_nat (length ns) < 2 ^ 31 ->
  let g := AddNodes EmptyGraph ns in
  snd (AddNode g n) = Z.of_nat (length ns) /\
  (forall i m, Nodes (fst (AddNode g n)) !! i = Some m -> ID m = Z.of_nat i) /\
  aligned g /\ aligned (fst (AddNode g n)).
Proof.
  intros Hlt g.
  destruct (AddNodes_length EmptyGraph ns) as (HN & HO & HI).
  fold g in HN, HO, HI. simpl in HN, HO, HI.
  split; [|split; [|split]].
  - unfold AddNode, snd. rewrite HN. apply int32_small. lia.
  - intros i m Hm.
    change (fst (AddNode g n)) with (AddNodes g [n]) in Hm.
    unfold g in Hm. unfold AddNodes in Hm. rewrite <- fold_left_app in Hm.
    apply AddNodes_lookup in Hm as (n0 & Hn0 & ->). simpl.
    apply lookup_lt_Some in Hn0. rewrite length_app in Hn0. simpl in Hn0.
    apply int32_small. lia.
  - unfold aligned. lia.
  - unfold aligned, AddNode. simpl. rewrite !length_app. simpl. lia.
Qed.

Lemma AddNode_sequential_witness :
  let ns := [ {| ID := 7; Location := 11; Rank := 0 |};
              {| ID := 7; Location := 12; Rank := 0 |} ] in
  let n := {| ID := -4; Location := 13; Rank := 0 |} in
  snd (AddNode (AddNodes EmptyGraph ns) n) = 2 /\
  forall i m, Nodes (fst (AddNode (AddNodes EmptyGraph ns) n)) !! i = Some m ->
    ID m = Z.of_nat i.
Proof.
  intros ns n.
  destruct (AddNode_sequential ns n) as (H1 & H2 & _).
  - simpl. lia.
  - split; [exact H1 | exact H2].
Defined.

(** ** RelateNodes *)

Definition mkEdge (to : Z) (w : Q) (m : MetaData) : Edge :=
  {| eID := to; Weight := w; Metadata := m |}.

Lemma addOutgoingEdge_is_Some g from to w m :
  0 <= from < Z.of_nat (length (OutgoingEdges g)) ->
  is_Some (addOutgoingEdge g from to w m).
Proof.
  intros H. unfold addOutgoingEdge.
  destruct (at_index_is_Some (OutgoingEdges g) from H) as [es ->]. simpl.
  unfold set_index.
  destruct (Z.leb_spec 0 from), (Z.ltb_spec from (Z.of_nat (length (OutgoingEdges g))));
    try lia. simpl. eauto.
Qed.

Lemma addIncomingEdge_is_Some g from to w m :
  0 <= to < Z.of_nat (length (IncomingEdges g)) ->
  is_Some (addIncomingEdge g from to w m).
Proof.
  intros H. unfold addIncomingEdge.
  destruct (at_index_is_Some (IncomingEdges g) to H) as [es ->]. simpl.
  unfold set_index.
  destruct (Z.leb_spec 0 to), (Z.ltb_spec to (Z.of_nat (length (IncomingEdges g))));
    try lia. simpl. eauto.
Qed.

Lemma addOutgoingEdge_spec g from to w m g' :
  addOutgoingEdge g from to w m = Some g' ->
  Nodes g' = Nodes g /\ IncomingEdges g' = IncomingEdges g /\
  length (OutgoingEdges g') = length (OutgoingEdges g) /\
  forall j e, out_has g' j e <->
    out_has g j e \/ (j = from /\ e = mkEdge to w m).
Proof.
  unfold addOutgoingEdge. intros H.
  destruct (at_index (OutgoingEdges g) from) as [es|] eqn:Hes; [|done].
  simpl in H.
  destruct (set_index (OutgoingEdges g) from _) as [out|] eqn:Hout; [|done].
  simpl in H. injection H as <-. simpl.
  split; [done|]. split; [done|]. split; [by eapply set_index_length|].
  intros j e. unfold out_has. simpl.
  rewrite (at_set_index _ _ _ j _ Hout). case_decide as Hj.
  - subst j. split.
    + intros (es' & [= <-] & [He | ->%list_elem_of_singleton]%elem_of_app).
      * left. eauto.
      * right. done.
    + intros [(es' & Hes' & He) | [_ ->]].
      * rewrite Hes in Hes'. injection Hes' as <-.
        eexists. split; [done|]. apply elem_of_app. auto.
      * eexists. split; [done|]. apply elem_of_app. right.
        by apply list_elem_of_singleton.
  - split; [auto|]. intros [?|[? _]]; [done|]. by subst.
Qed.

Lemma addIncomingEdge_spec g from to w m g' :
  addIncomingEdge g from to w m = Some g' ->
  Nodes g' = Nodes g /\ OutgoingEdges g' = OutgoingEdges g /\
  length (IncomingEdges g') = length (IncomingEdges g) /\
  forall j e, in_has g' j e <->
    in_has g j e \/ (j = to /\ e = mkEdge from w m).
Proof.
  unfold addIncomingEdge. intros H.
  destruct (at_index (IncomingEdges g) to) as [es|] eqn:Hes; [|done].
  simpl in H.
  destruct (set_index (IncomingEdges g) to _) as [inc|] eqn:Hinc; [|done].
  simpl in H. injection H as <-. simpl.
  split; [done|]. split; [done|]. split; [by eapply set_index_length|].
  intros j e. unfold in_has. simpl.
  rewrite (at_set_index _ _ _ j _ Hinc). case_decide as Hj.
  - subst j. split.
    + intros (es' & [= <-] & [He | ->%list_elem_of_singleton]%elem_of_app).
      * left. eauto.
      * right. done.
    + intros [(es' & Hes' & He) | [_ ->]].
      * rewrite Hes in Hes'. injection Hes' as <-.
        eexists. split; [done|]. apply elem_of_app. auto.
      * eexists. split; [done|]. apply elem_of_app. right.
        by apply list_elem_of_singleton.
  - split; [auto|]. intros [?|[? _]]; [done|]. by subst.
Qed.

(** What a call of RelateNodes does to a graph: it writes the arcs of
    [arcs], each as an edge of its source's outgoing list and as an entry of
    its target's incoming list, all with one weight and one metadata. *)
Definition arcs_of (a b : Z) (dir : EdgeDirection) : list (Z * Z) :=
  match dir with
  | Bidirectional => [(a, b); (b, a)]
  | LeftToRight => [(a, b)]
  | RightToLeft => [(b, a)]
  end.

Definition adds_arcs (g g' : Graph) (arcs : list (Z * Z)) (w : Q)
    (m : MetaData) : Prop :=
  Nodes g' = Nodes g /\
  length (OutgoingEdges g') = length (OutgoingEdges g) /\
  length (IncomingEdges g') = length (IncomingEdges g) /\
  (forall j e, out_has g' j e <->
     out_has g j e \/ exists t, (j, t) ∈ arcs /\ e = mkEdge t w m) /\
  (forall j e, in_has g' j e <->
     in_has g j e \/ exists f, (f, j) ∈ arcs /\ e = mkEdge f w m).

Lemma adds_arcs_mirrored g g' arcs w m :
  adds_arcs g g' arcs w m -> mirrored g -> mirrored g'.
Proof.
  intros (_ & _ & _ & Ho & Hi) [M1 M2]. split.
  - intros a e [H | (t & Ht & ->)]%Ho; apply Hi.
    + left. auto.
    + right. exists a. done.
  - intros b e [H | (f & Hf & ->)]%Hi; apply Ho.
    + left. auto.
    + right. exists b. done.
Qed.

Lemma RelateNodes_adds g a b w dir m g' :
  RelateNodes g a b w dir m = Some g' ->
  adds_arcs g g' (arcs_of (ID a) (ID b) dir) w m.
Proof.
  unfold RelateNodes, adds_arcs. intros H. destruct dir.
  - destruct (addOutgoingEdge g (ID a) (ID b) w m) as [g1|] eqn:E1; [|done].
    simpl in H.
    destruct (addIncomingEdge g1 (ID b) (ID a) w m) as [g2|] eqn:E2; [|done].
    simpl in H.
    destruct (addOutgoingEdge g2 (ID b) (ID a) w m) as [g3|] eqn:E3; [|done].
    simpl in H. rename H into E4.
    apply addOutgoingEdge_spec in E1 as (N1 & I1 & L1 & H1).
    apply addIncomingEdge_spec in E2 as (N2 & O2 & L2 & H2).
    apply addOutgoingEdge_spec in E3 as (N3 & I3 & L3 & H3).
    apply addIncomingEdge_spec in E4 as (N4 & O4 & L4 & H4).
    split; [congruence|]. split; [congruence|]. split; [congruence|].
    assert (Ho : forall j e, out_has g2 j e <-> out_has g1 j e).
    { intros. unfold out_has. by rewrite O2. }
    assert (Ho' : forall j e, out_has g' j e <-> out_has g3 j e).
    { intros. unfold out_has. by rewrite O4. }
    assert (Hi : forall j e, in_has g1 j e <-> in_has g j e).
    { intros. unfold in_has. by rewrite I1. }
    assert (Hi' : forall j e, in_has g3 j e <-> in_has g2 j e).
    { intros. unfold in_has. by rewrite I3. }
    split; intros j e; simpl.
    + rewrite Ho', H3, Ho, H1. setoid_rewrite elem_of_cons.
      setoid_rewrite list_elem_of_singleton. split.
      * intros [[?|[-> ->]]|[-> ->]]; [by left | right; eexists; eauto ..].
      * intros [?|(t & [[= -> ->]|[= -> ->]] & ->)]; auto.
    + rewrite H4, Hi', H2, Hi. setoid_rewrite elem_of_cons.
      setoid_rewrite list_elem_of_singleton. split.
      * intros [[?|[-> ->]]|[-> ->]]; [by left | right; eexists; eauto ..].
      * intros [?|(t & [[= -> ->]|[= -> ->]] & ->)]; auto.
  - destruct (addOutgoingEdge g (ID a) (ID b) w m) as [g1|] eqn:E1; [|done].
    simpl in H. rename H into E2.
    apply addOutgoingEdge_spec in E1 as (N1 & I1 & L1 & H1).
    apply addIncomingEdge_spec in E2 as (N2 & O2 & L2 & H2).
    split; [congruence|]. split; [congruence|]. split; [congruence|].
    split; intros j e; simpl.
    + unfold out_has at 1. rewrite O2. fold (out_has g1 j e). rewrite H1.
      setoid_rewrite list_elem_of_singleton. split.
      * intros [?|[-> ->]]; [by left | right; eexists; eauto].
      * intros [?|(t & [= -> ->] & ->)]; auto.
    + rewrite H2. unfold in_has at 1. rewrite I1. fold (in_has g j e).
      setoid_rewrite list_elem_of_singleton. split.
      * intros [?|[-> ->]]; [by left | right; eexists; eauto].
      * intros [?|(t & [= -> ->] & ->)]; auto.
  - destruct (addOutgoingEdge g (ID b) (ID a) w m) as [g1|] eqn:E1; [|done].
    simpl in H. rename H into E2.
    apply addOutgoingEdge_spec in E1 as (N1 & I1 & L1 & H1).
    apply addIncomingEdge_spec in E2 as (N2 & O2 & L2 & H2).
    split; [congruence|]. split; [congruence|]. split; [congruence|].
    split; intros j e; simpl.
    + unfold out_has at 1. rewrite O2. fold (out_has g1 j e). rewrite H1.
      setoid_rewrite list_elem_of_singleton. split.
      * intros [?|[-> ->]]; [by left | right; eexists; eauto].
      * intros [?|(t & [= -> ->] & ->)]; auto.
    + rewrite H2. unfold in_has at 1. rewrite I1. fold (in_has g j e).
      setoid_rewrite list_elem_of_singleton. split.
      * intros [?|[-> ->]]; [by left | right; eexists; eauto].
      * intros [?|(t & [= -> ->] & ->)]; auto.
Qed.

Lemma RelateNodes_is_Some g a b w dir m :
  aligned g -> has_node g (ID a) -> has_node g (ID b) ->
  is_Some (RelateNodes g a b w dir m).
Proof.
  intros [AO AI] Ha Hb. unfold has_node in *. unfold RelateNodes.
  destruct dir.
  - destruct (addOutgoingEdge_is_Some g (ID a) (ID b) w m) as [g1 E1]; [lia|].
    rewrite E1. simpl.
    pose proof (addOutgoingEdge_spec _ _ _ _ _ _ E1) as (N1 & I1 & L1 & _).
    destruct (addIncomingEdge_is_Some g1 (ID b) (ID a) w m) as [g2 E2];
      [rewrite I1; lia|].
    rewrite E2. simpl.
    pose proof (addIncomingEdge_spec _ _ _ _ _ _ E2) as (N2 & O2 & L2 & _).
    destruct (addOutgoingEdge_is_Some g2 (ID b) (ID a) w m) as [g3 E3];
      [rewrite O2; lia|].
    rewrite E3. simpl.
    pose proof (addOutgoingEdge_spec _ _ _ _ _ _ E3) as (N3 & I3 & L3 & _).
    apply addIncomingEdge_is_Some. rewrite I3, L2, I1. lia.
  - destruct (addOutgoingEdge_is_Some g (ID a) (ID b) w m) as [g1 E1]; [lia|].
    rewrite E1. simpl.
    pose proof (addOutgoingEdge_spec _ _ _ _ _ _ E1) as (N1 & I1 & L1 & _).
    apply addIncomingEdge_is_Some. rewrite I1. lia.
  - destruct (addOutgoingEdge_is_Some g (ID b) (ID a) w m) as [g1 E1]; [lia|].
    rewrite E1. simpl.
    pose proof (addOutgoingEdge_spec _ _ _ _ _ _ E1) as (N1 & I1 & L1 & _).
    apply addIncomingEdge_is_Some. rewrite I1. lia.
Qed.

(** C5: on a graph that contains the nodes a and b, RelateNodes returns; after
    a Bidirectional call [outgoing[a]] holds an edge to b and [incoming[b]]
    an edge from a, both of weight w, and symmetrically [outgoing[b]] an edge
    to a and [incoming[a]] an edge from b; and a call in any direction
    preserves the mirror invariant between the two adjacency lists. *)
Theorem RelateNodes_consistent (g : Graph) (a b : Node) (w : Q)
    (m : MetaData) :
  aligned g -> has_node g (ID a) -> has_node g (ID b) ->
  (exists g', RelateNodes g a b w Bidirectional m = Some g' /\
     out_has g' (ID a) (mkEdge (ID b) w m) /\
     in_has g' (ID b) (mkEdge (ID a) w m) /\
     out_has g' (ID b) (mkEdge (ID a) w m) /\
     in_has g' (ID a) (mkEdge (ID b) w m)) /\
  (forall dir, exists g', RelateNodes g a b w dir m = Some g' /\
     aligned g' /\ (mirrored g -> mirrored g')).
Proof.
  intros Hal Ha Hb. split.
  - destruct (RelateNodes_is_Some g a b w Bidirectional m Hal Ha Hb)
      as [g' Hg'].
    exists g'. split; [done|].
    apply RelateNodes_adds in Hg' as (_ & _ & _ & Ho & Hi). simpl in Ho, Hi.
    repeat split; (apply Ho || apply Hi); right; eexists;
      (split; [|reflexivity]); set_solver.
  - intros dir.
    destruct (RelateNodes_is_Some g a b w dir m Hal Ha Hb) as [g' Hg'].
    exists g'. split; [done|].
    apply RelateNodes_adds in Hg'. split.
    + destruct Hg' as (N & LO & LI & _), Hal. unfold aligned. rewrite N. lia.
    + by eapply adds_arcs_mirrored.
Qed.

Lemma RelateNodes_consistent_witness :
  let g := AddNodes EmptyGraph
             [ {| ID := 0; Location := 0; Rank := 0 |};
               {| ID := 0; Location := 0; Rank := 0 |} ] in
  let a := {| ID := 0; Location := 0; Rank := 0 |} in
  let b := {| ID := 1; Location := 0; Rank := 0 |} in
  exists g', RelateNodes g a b 3%Q Bidirectional MetaData0 = Some g' /\
     out_has g' 0 (mkEdge 1 3%Q MetaData0) /\
     in_has g' 1 (mkEdge 0 3%Q MetaData0) /\
     out_has g' 1 (mkEdge 0 3%Q MetaData0) /\
     in_has g' 0 (mkEdge 1 3%Q MetaData0).
Proof.
  intros g a b.
  refine (proj1 (RelateNodes_consistent g a b 3%Q MetaData0 _ _ _)).
  - split; reflexivity.
  - unfold has_node. simpl. lia.
  - unfold has_node. simpl. lia.
Defined.

(** ** The priority queue *)

Lemma fltb_true a b : fltb a b = true <-> (a < b)%Q.
Proof. unfold fltb, Qlt. apply Z.ltb_lt. Qed.

Lemma fltb_false a b : fltb a b = false <-> (b <= a)%Q.
Proof. unfold fltb, Qle. rewrite Z.ltb_ge. reflexivity. Qed.

Lemma parentIndex_0 : parentIndex 0 = 0.
Proof. reflexivity. Qed.

Lemma parentIndex_lt i : 1 <= i -> 0 <= parentIndex i < i.
Proof. unfold parentIndex. intros. Z.to_euclidean_division_equations. lia. Qed.

Lemma parentIndex_children i j :
  1 <= j -> parentIndex j = i <-> j = leftChildIndex i \/ j = rightChildIndex i.
Proof.
  unfold parentIndex, leftChildIndex, rightChildIndex. intros.
  Z.to_euclidean_division_equations. lia.
Qed.

(** [l[i] <= l[j]] when both exist. *)
Definition le_at (l : list HNode) (i j : Z) : Prop :=
  forall p x, at_index l i = Some p -> at_index l j = Some x ->
    (Cost p <= Cost x)%Q.

Lemma insert_Permutation_cons {A} (l : list A) a x y :
  l !! a = Some x -> y :: l ≡ₚ x :: <[a:=y]> l.
Proof.
  revert a. induction l as [|z l IH]; intros [|a] H; simpl in *; try done.
  - injection H as ->. apply Permutation_swap.
  - rewrite Permutation_swap, (IH _ H). apply Permutation_swap.
Qed.

Lemma set_index_is_Some {A} (s : list A) i x :
  0 <= i < Z.of_nat (length s) -> is_Some (set_index s i x).
Proof.
  intros. unfold set_index.
  destruct (Z.leb_spec 0 i), (Z.ltb_spec i (Z.of_nat (length s))); try lia.
  simpl. eauto.
Qed.

Lemma swap_Some h i j x y :
  at_index (items h) i = Some x -> at_index (items h) j = Some y ->
  exists h', swap h i j = Some h' /\ size h' = size h /\
    length (items h') = length (items h) /\
    items h' ≡ₚ items h /\
    forall k, at_index (items h') k =
      if decide (k = j) then Some x
      else if decide (k = i) then Some y else at_index (items h) k.
Proof.
  intros Hx Hy. unfold swap. rewrite Hx, Hy. simpl.
  pose proof (at_index_lt _ _ _ Hx) as Hi.
  pose proof (at_index_lt _ _ _ Hy) as Hj.
  destruct (set_index_is_Some (items h) i y Hi) as [l1 E1]. rewrite E1.
  pose proof (set_index_length _ _ _ _ E1) as L1. simpl.
  destruct (set_index_is_Some l1 j x) as [l2 E2]; [lia|]. rewrite E2.
  pose proof (set_index_length _ _ _ _ E2) as L2. simpl.
  eexists. split; [reflexivity|]. simpl.
  split; [done|]. split; [congruence|].
  assert (Hk : forall k, at_index l2 k =
      if decide (k = j) then Some x
      else if decide (k = i) then Some y else at_index (items h) k).
  { intros k. rewrite (at_set_index _ _ _ k _ E2).
    rewrite (at_set_index _ _ _ k _ E1).
    repeat case_decide; subst; done. }
  split; [|done].
  assert (Hy1 : at_index l1 j = Some y).
  { rewrite (at_set_index _ _ _ j _ E1). by case_decide. }
  apply set_index_Some in E1 as [_ ->]. apply set_index_Some in E2 as [_ ->].
  apply at_index_Some in Hx as [_ Hx]. apply at_index_Some in Hy1 as [_ Hy1].
  apply (Permutation_cons_inv (a := y)).
  rewrite <- (insert_Permutation_cons _ _ _ x Hy1).
  by rewrite <- (insert_Permutation_cons _ _ _ y Hx).
Qed.

(** The heap order holds everywhere but, possibly, between [i] and its
    parent; the children of [i] respect the parent of [i]. *)
Definition up_inv (l : list HNode) (i : Z) : Prop :=
  (forall j, 1 <= j -> j <> i -> le_at l (parentIndex j) j) /\
  (1 <= i -> forall j, 1 <= j -> parentIndex j = i ->
     le_at l (parentIndex i) j).

Lemma heapifyUp_loop_ok fuel h i :
  size h = Z.of_nat (length (items h)) ->
  0 <= i < size h -> i < Z.of_nat fuel ->
  up_inv (items h) i ->
  exists h', heapifyUp_loop fuel h i = Some h' /\ heap_ok h' /\
    items h' ≡ₚ items h.
Proof.
  revert h i. induction fuel as [|fuel IH]; intros h i Hsz Hi Hfuel [Ha Hb];
    [lia|].
  simpl. unfold hasParent, parent.
  assert (Hp : 0 <= parentIndex i <= i).
  { destruct (decide (i = 0)) as [->|]; [done|].
    pose proof (parentIndex_lt i). lia. }
  destruct (Z.leb_spec 0 (parentIndex i)); [|lia].
  destruct (at_index_is_Some (items h) (parentIndex i)) as [p Ep]; [lia|].
  destruct (at_index_is_Some (items h) i) as [x Ex]; [lia|].
  rewrite Ep, Ex. simpl.
  destruct (fltb (Cost x) (Cost p)) eqn:Hlt.
  - apply fltb_true in Hlt.
    assert (Hi1 : 1 <= i).
    { destruct (decide (i = 0)) as [->|]; [|lia].
      rewrite parentIndex_0 in Ep. rewrite Ex in Ep. injection Ep as ->.
      exfalso. eapply Qlt_irrefl, Hlt. }
    pose proof (parentIndex_lt i Hi1) as Hpl.
    destruct (swap_Some h i (parentIndex i) x p Ex Ep)
      as (h1 & -> & Hs1 & Hl1 & Hperm1 & Hk).
    simpl.
    destruct (IH h1 (parentIndex i)) as (h' & -> & Hok & Hperm); try lia.
    + split.
      * intros j Hj Hne q y.
        destruct (decide (j = i)) as [->|Hji].
        { rewrite !Hk. rewrite decide_True by done.
          rewrite decide_False by lia. rewrite decide_True by done.
          intros [= <-] [= <-]. by apply Qlt_le_weak. }
        rewrite (Hk j). rewrite !decide_False by done.
        rewrite (Hk (parentIndex j)).
        destruct (decide (parentIndex j = parentIndex i)) as [Hpj|Hpj].
        { intros [= <-] Hy. eapply Qle_trans; [apply Qlt_le_weak, Hlt|].
          eapply (Ha j); eauto. by rewrite Hpj. }
        destruct (decide (parentIndex j = i)) as [Hpj'|Hpj'].
        { intros [= <-] Hy. eapply (Hb Hi1 j); eauto. }
        intros. eapply (Ha j); eauto.
      * intros Hpi j Hj Hpj q y.
        pose proof (parentIndex_lt _ Hpi).
        pose proof (parentIndex_lt _ Hj).
        rewrite (Hk (parentIndex (parentIndex i))).
        rewrite !decide_False by lia. intros Hq.
        assert (Cost q <= Cost p)%Q by (eapply (Ha (parentIndex i)); eauto; lia).
        rewrite (Hk j). rewrite decide_False by lia.
        destruct (decide (j = i)) as [->|Hji].
        { by intros [= <-]. }
        intros Hy. eapply Qle_trans; [done|].
        eapply (Ha j); eauto. by rewrite Hpj.
    + exists h'. split; [done|]. split; [done|]. by rewrite Hperm.
  - apply fltb_false in Hlt. exists h. split; [done|]. split; [|done].
    split; [done|]. intros j y q Hj Hy Hq.
    destruct (decide (j = i)) as [->|Hne].
    + simplify_eq. done.
    + eapply (Ha j); eauto.
Qed.

Lemma at_index_app_l {A} (l1 l2 : list A) i :
  i < Z.of_nat (length l1) -> at_index (l1 ++ l2) i = at_index l1 i.
Proof.
  intros. unfold at_index. destruct (Z.ltb_spec i 0); [done|].
  apply lookup_app_l. lia.
Qed.

Lemma Insert_ok h n :
  heap_ok h ->
  exists h', Insert h n = Some h' /\ heap_ok h' /\ items h' ≡ₚ n :: items h.
Proof.
  intros [Hsz Hord]. unfold Insert, heapifyUp. simpl.
  destruct (heapifyUp_loop_ok (Z.to_nat (size h + 1))
              {| items := items h ++ [n]; size := size h + 1 |} (size h + 1 - 1))
    as (h' & Hh' & Hok & Hperm); simpl.
  - rewrite length_app. simpl. lia.
  - lia.
  - lia.
  - split.
    + intros j Hj Hne p x Hp Hx.
      pose proof (at_index_lt _ _ _ Hx) as Hjl.
      rewrite length_app in Hjl. simpl in Hjl.
      pose proof (parentIndex_lt j Hj).
      rewrite at_index_app_l in Hp, Hx by lia. eauto.
    + intros _ j Hj Hpj p x _ Hx.
      pose proof (at_index_lt _ _ _ Hx) as Hjl.
      rewrite length_app in Hjl. simpl in Hjl.
      pose proof (parentIndex_lt j Hj). lia.
  - exists h'. split; [done|]. split; [done|].
    rewrite Hperm. simpl. by rewrite Permutation_app_comm.
Qed.

(** The heap order holds everywhere but, possibly, between [i] and its
    children; the children of [i] respect the parent of [i]. *)
Definition down_inv (l : list HNode) (i : Z) : Prop :=
  (forall j, 1 <= j -> parentIndex j <> i -> le_at l (parentIndex j) j) /\
  (1 <= i -> forall j, 1 <= j -> parentIndex j = i ->
     le_at l (parentIndex i) j).

Ltac decide_lia :=
  repeat first [ rewrite decide_True by (done || lia)
               | rewrite decide_False by (done || lia) ].

Lemma heapifyDown_loop_ok fuel h i :
  size h = Z.of_nat (length (items h)) ->
  0 <= i -> size h - i <= Z.of_nat fuel ->
  down_inv (items h) i ->
  exists h', heapifyDown_loop fuel h i = Some h' /\ heap_ok h' /\
    items h' ≡ₚ items h.
Proof.
  revert h i. induction fuel as [|fuel IH]; intros h i Hsz Hi Hfuel [Ha Hb].
  - simpl. unfold hasLeftChild, leftChildIndex.
    destruct (Z.ltb_spec (2 * i + 1) (size h)); [lia|].
    exists h. split; [done|]. split; [|done]. split; [done|].
    intros j x p Hj Hx Hp.
    pose proof (at_index_lt _ _ _ Hx). pose proof (parentIndex_lt j Hj).
    eapply (Ha j); eauto. intros Hpj.
    apply parentIndex_children in Hpj; [|done].
    unfold leftChildIndex, rightChildIndex in Hpj. lia.
  - simpl. unfold hasLeftChild, hasRightChild, leftChild, rightChild.
    destruct (Z.ltb_spec (leftChildIndex i) (size h)) as [Hl|Hl].
    2:{ exists h. split; [done|]. split; [|done]. split; [done|].
        intros j x p Hj Hx Hp.
        pose proof (at_index_lt _ _ _ Hx). pose proof (parentIndex_lt j Hj).
        eapply (Ha j); eauto. intros Hpj.
        apply parentIndex_children in Hpj; [|done].
        unfold leftChildIndex, rightChildIndex in *. lia. }
    assert (Hli : i < leftChildIndex i) by (unfold leftChildIndex; lia).
    destruct (at_index_is_Some (items h) (leftChildIndex i)) as [lc El]; [lia|].
    destruct (at_index_is_Some (items h) i) as [x Ex]; [lia|].
    (* the smaller child: its index [c], its item [cv] *)
    assert (exists c cv,
      (if rightChildIndex i <? size h
       then r ← at_index (items h) (rightChildIndex i);
            l ← at_index (items h) (leftChildIndex i);
            Some (if fltb (Cost r) (Cost l) then rightChildIndex i
                  else leftChildIndex i)
       else Some (leftChildIndex i)) = Some c /\
      at_index (items h) c = Some cv /\ parentIndex c = i /\ i < c /\
      forall j, 1 <= j -> parentIndex j = i -> le_at (items h) c j)
      as (c & cv & -> & Ec & Hpc & Hic & Hmin).
    { destruct (Z.ltb_spec (rightChildIndex i) (size h)) as [Hr|Hr].
      - destruct (at_index_is_Some (items h) (rightChildIndex i)) as [rc Er].
        { unfold rightChildIndex in *. lia. }
        rewrite Er, El. simpl.
        destruct (fltb (Cost rc) (Cost lc)) eqn:Hlt.
        + apply fltb_true in Hlt. exists (rightChildIndex i), rc.
          split; [done|]. split; [done|].
          split; [apply parentIndex_children; unfold rightChildIndex; lia|].
          split; [unfold rightChildIndex in *; lia|].
          intros j Hj [->| ->]%parentIndex_children p y Hp Hy; [| |done];
            simplify_eq; [by apply Qlt_le_weak | apply Qle_refl].
        + apply fltb_false in Hlt. exists (leftChildIndex i), lc.
          split; [done|]. split; [done|].
          split; [apply parentIndex_children; unfold leftChildIndex; lia|].
          split; [done|].
          intros j Hj [->| ->]%parentIndex_children p y Hp Hy; [| |done];
            simplify_eq; [apply Qle_refl | done].
      - exists (leftChildIndex i), lc.
        split; [done|]. split; [done|].
        split; [apply parentIndex_children; unfold leftChildIndex; lia|].
        split; [done|].
        intros j Hj [->| ->]%parentIndex_children p y Hp Hy; [| |done].
        + simplify_eq. apply Qle_refl.
        + apply at_index_lt in Hy. lia. }
    simpl. rewrite Ex, Ec. simpl.
    assert (Hc1 : 1 <= c) by lia.
    destruct (fltb (Cost x) (Cost cv)) eqn:Hlt.
    + apply fltb_true in Hlt. exists h. split; [done|]. split; [|done].
      split; [done|]. intros j y p Hj Hy Hp.
      destruct (decide (parentIndex j = i)) as [Hpj|Hpj].
      * rewrite Hpj in Hp. simplify_eq.
        eapply Qle_trans; [apply Qlt_le_weak, Hlt|]. eapply (Hmin j); eauto.
      * eapply (Ha j); eauto.
    + apply fltb_false in Hlt.
      destruct (swap_Some h i c x cv Ex Ec)
        as (h1 & -> & Hs1 & Hl1 & Hperm1 & Hk).
      simpl.
      destruct (IH h1 c) as (h' & -> & Hok & Hperm); try lia.
      * split.
        -- intros j Hj Hne q y.
           pose proof (parentIndex_lt j Hj).
           destruct (decide (j = c)) as [->|Hjc].
           { rewrite !Hk. rewrite Hpc. decide_lia.
             by intros [= <-] [= <-]. }
           rewrite (Hk j). rewrite decide_False by done.
           rewrite (Hk (parentIndex j)). rewrite decide_False by done.
           destruct (decide (j = i)) as [->|Hji].
           { rewrite decide_False by lia. intros Hq [= <-].
             assert (1 <= i) by lia. eapply (Hb H0 c); eauto. }
           destruct (decide (parentIndex j = i)) as [Hpj|Hpj].
           { intros [= <-] Hy. eapply (Hmin j); eauto. }
           intros. eapply (Ha j); eauto.
        -- intros _ j Hj Hpj q y.
           pose proof (parentIndex_lt j Hj).
           rewrite Hpc. rewrite (Hk i). rewrite decide_False by lia.
           rewrite decide_True by done. intros [= <-].
           rewrite (Hk j). rewrite !decide_False by lia. intros Hy.
           eapply (Ha j); eauto; [lia|by rewrite Hpj].
      * exists h'. split; [done|]. split; [done|]. by rewrite Hperm.
Qed.

Lemma heap_ok_Create : heap_ok Create.
Proof.
  split; [done|]. intros i x p _ [_ Hx]%at_index_Some. simpl in Hx.
  by rewrite lookup_nil in Hx.
Qed.

(** The root of an ordered heap is a minimum. *)
Lemma heap_ordered_root l m x :
  heap_ordered l -> at_index l 0 = Some m -> x ∈ l -> (Cost m <= Cost x)%Q.
Proof.
  intros Hord Hm [k Hk]%list_elem_of_lookup.
  revert x Hk. induction (lt_wf k) as [k _ IH]. intros x Hk.
  destruct (decide (k = 0)%nat) as [->|Hne].
  - apply at_index_Some in Hm as [_ Hm].
    change (Z.to_nat 0) with 0%nat in Hm. simplify_eq. apply Qle_refl.
  - pose proof (parentIndex_lt (Z.of_nat k)) as Hp.
    assert (Hx : at_index l (Z.of_nat k) = Some x).
    { apply at_index_Some. rewrite Nat2Z.id. split; [lia|done]. }
    destruct (at_index_is_Some l (parentIndex (Z.of_nat k))) as [p Ep].
    { apply at_index_lt in Hx. lia. }
    eapply Qle_trans; [|eapply (Hord (Z.of_nat k)); eauto; lia].
    apply at_index_Some in Ep as [? Ep].
    eapply (IH (Z.to_nat (parentIndex (Z.of_nat k)))); [lia|done].
Qed.

Lemma Min_ok h :
  heap_ok h -> items h <> [] ->
  exists m, Min h = Some (m, None) /\ at_index (items h) 0 = Some m /\
    m ∈ items h /\ forall x, x ∈ items h -> (Cost m <= Cost x)%Q.
Proof.
  intros [Hsz Hord] Hne. unfold Min, IsEmpty.
  destruct (items h) as [|m l] eqn:E; [done|]. simpl in Hsz.
  destruct (Z.eqb_spec (size h) 0); [lia|]. simpl.
  exists m. split; [done|]. split; [done|]. split; [by left|].
  intros x Hx. eapply heap_ordered_root; eauto.
Qed.

Lemma Min_empty h :
  heap_ok h -> items h = [] -> Min h = Some (HNode0, Some ErrHeapEmpty).
Proof.
  intros [Hsz _] E. unfold Min, IsEmpty. rewrite Hsz, E. done.
Qed.

Lemma IsEmpty_items h :
  heap_ok h -> IsEmpty h = true <-> items h = [].
Proof.
  intros [Hsz _]. unfold IsEmpty. rewrite Z.eqb_eq, Hsz.
  destruct (items h); simpl; split; (done || lia).
Qed.

Lemma at_index_take {A} (l : list A) n i :
  i < Z.of_nat n -> at_index (take n l) i = at_index l i.
Proof.
  intros. unfold at_index. destruct (Z.ltb_spec i 0); [done|].
  apply lookup_take_lt. lia.
Qed.

Lemma DeleteMin_ok h m :
  heap_ok h -> at_index (items h) 0 = Some m ->
  exists h', DeleteMin h = Some (h', None) /\ heap_ok h' /\
    items h ≡ₚ m :: items h'.
Proof.
  intros [Hsz Hord] Hm. unfold DeleteMin, IsEmpty.
  pose proof (at_index_lt _ _ _ Hm) as Hlen.
  destruct (Z.eqb_spec (size h) 0); [lia|].
  destruct (at_index_is_Some (items h) (size h - 1)) as [z Ez]; [lia|].
  rewrite Ez. simpl.
  destruct (set_index_is_Some (items h) 0 z) as [l1 E1]; [lia|].
  rewrite E1. simpl.
  pose proof (set_index_length _ _ _ _ E1) as L1.
  set (h1 := {| items := take (length l1 - 1) l1; size := size h - 1 |}).
  assert (Hk : forall k, 1 <= k -> k < size h - 1 ->
            at_index (items h1) k = at_index (items h) k).
  { intros k ? ?. unfold h1. simpl. rewrite at_index_take by lia.
    rewrite (at_set_index _ _ _ k _ E1). by rewrite decide_False by lia. }
  destruct (heapifyDown_loop_ok (Z.to_nat (size h1)) h1 0)
    as (h' & Hh' & Hok & Hperm).
  - unfold h1. simpl. rewrite length_take. lia.
  - done.
  - unfold h1. simpl. lia.
  - split; [|lia]. intros j Hj Hpj p x Hp Hx.
    pose proof (parentIndex_lt j Hj).
    pose proof (at_index_lt _ _ _ Hx) as Hjl. unfold h1 in Hjl. simpl in Hjl.
    rewrite length_take in Hjl.
    rewrite Hk in Hp, Hx by lia. eauto.
  - unfold heapifyDown. fold h1. rewrite Hh'. simpl.
    exists h'. split; [done|]. split; [done|]. rewrite Hperm.
    unfold h1. simpl.
    apply set_index_Some in E1 as [_ ->]. rewrite length_insert.
    apply at_index_Some in Hm as [_ Hm]. apply at_index_Some in Ez as [_ Ez].
    destruct (items h) as [|m' t] eqn:E; [done|]. simpl in Hm. simplify_eq.
    simpl. rewrite Nat.sub_0_r.
    destruct (decide (t = [])) as [->|Hne]; [done|].
    destruct (exists_last Hne) as (t' & z' & ->).
    clear Hk Hperm L1 Hlen.
    pose proof (length_app t' [z']) as Hl. simpl in Hl, Hsz.
    replace (Z.to_nat (size h - 1)) with (S (length t')) in Ez by lia.
    simpl in Ez. rewrite lookup_app_r in Ez by lia.
    rewrite Nat.sub_diag in Ez. simpl in Ez. simplify_eq.
    rewrite length_app. simpl. rewrite Nat.add_1_r. simpl.
    rewrite take_app_length. f_equiv. by rewrite Permutation_app_comm.
Qed.

Lemma DeleteMin_empty h :
  heap_ok h -> items h = [] -> DeleteMin h = Some (h, Some ErrHeapEmpty).
Proof.
  intros Hok E. unfold DeleteMin. by rewrite (proj2 (IsEmpty_items h Hok) E).
Qed.

Lemma apply_ops_snoc h ops op :
  apply_ops h (ops ++ [op]) = (h ← apply_ops h ops; apply_op h op).
Proof. unfold apply_ops. by rewrite foldl_app. Qed.

(** Every sequence of operations runs, and leaves an ordered heap. *)
Lemma apply_ops_ok ops :
  exists h, apply_ops Create ops = Some h /\ heap_ok h.
Proof.
  induction ops as [|op ops IH] using rev_ind.
  - exists Create. split; [done|]. apply heap_ok_Create.
  - destruct IH as (h & Hh & Hok). rewrite apply_ops_snoc, Hh. simpl.
    destruct op as [n|]; simpl.
    + destruct (Insert_ok h n Hok) as (h' & -> & Hok' & _). eauto.
    + destruct (items h) as [|m l] eqn:E.
      * rewrite DeleteMin_empty by done. simpl. eauto.
      * destruct (Min_ok h Hok) as (m' & _ & Hm & _); [by rewrite E|].
        destruct (DeleteMin_ok h m' Hok Hm) as (h' & -> & Hok' & _).
        simpl. eauto.
Qed.

Lemma drain_loop_ok fuel h :
  heap_ok h -> (length (items h) <= fuel)%nat ->
  exists l, drain_loop fuel h = Some l /\ l ≡ₚ items h /\
    StronglySorted (fun a b => (Cost a <= Cost b)%Q) l.
Proof.
  revert h. induction fuel as [|fuel IH]; intros h Hok Hfuel.
  - assert (E : items h = []) by (destruct (items h); simpl in *; [done|lia]).
    simpl. rewrite (proj2 (IsEmpty_items h Hok) E).
    exists []. rewrite E. split; [done|]. split; [done|]. constructor.
  - simpl. destruct (IsEmpty h) eqn:Hemp.
    + apply IsEmpty_items in Hemp; [|done].
      exists []. rewrite Hemp. split; [done|]. split; [done|]. constructor.
    + assert (Hne : items h <> []).
      { intros E. apply (IsEmpty_items h Hok) in E. congruence. }
      destruct (Min_ok h Hok Hne) as (m & -> & Hm & _ & Hmin). simpl.
      destruct (DeleteMin_ok h m Hok Hm) as (h' & -> & Hok' & Hperm). simpl.
      destruct (IH h' Hok') as (l & -> & Hl & Hsorted).
      { apply Permutation_length in Hperm. simpl in Hperm. lia. }
      simpl. exists (m :: l). split; [done|]. split.
      * rewrite Hperm. by constructor.
      * constructor; [done|]. apply Forall_forall. intros x Hx.
        apply Hmin. rewrite Hperm. right. by rewrite <- Hl.
Qed.

(** C4: every sequence of Insert and DeleteMin calls on a fresh heap runs to
    a heap from which Min and DeleteMin, repeated until the heap is empty,
    yield all its entries in non-decreasing order of Cost. *)
Theorem heap_drain_sorted (ops : list HeapOp) :
  exists h l, apply_ops Create ops = Some h /\ drain h = Some l /\
    l ≡ₚ items h /\
    StronglySorted (fun a b => (Cost a <= Cost b)%Q) l.
Proof.
  destruct (apply_ops_ok ops) as (h & Hh & Hok).
  destruct (drain_loop_ok (Z.to_nat (size h)) h Hok) as (l & Hl & Hp & Hs).
  { destruct Hok as [-> _]. lia. }
  exists h, l. done.
Qed.

(** ** The k-d tree *)

Lemma fleb_true a b : fleb a b = true <-> (a <= b)%Q.
Proof. unfold fleb, Qle. apply Z.leb_le. Qed.

Lemma fleb_false a b : fleb a b = false <-> (b < a)%Q.
Proof. unfold fleb, Qlt. rewrite Z.leb_gt. reflexivity. Qed.

Lemma Qsquare_nonneg a : (0 <= a * a)%Q.
Proof. destruct a as [n d]. unfold Qle, Qmult. simpl. nia. Qed.

Lemma Qsquare_zero a : (a * a == 0)%Q -> (a == 0)%Q.
Proof. destruct a as [n d]. unfold Qeq, Qmult. simpl. nia. Qed.

Lemma squaredDistance_loop_is_Some sum us vs :
  length us = length vs -> is_Some (squaredDistance_loop sum us vs).
Proof.
  revert sum vs. induction us as [|x us IH]; intros sum [|y vs] Hlen;
    simpl in *; try done. apply IH. lia.
Qed.

Lemma squaredDistance_loop_ge sum us vs d :
  squaredDistance_loop sum us vs = Some d -> (sum <= d)%Q.
Proof.
  revert sum vs. induction us as [|x us IH]; intros sum [|y vs] H;
    simpl in *; simplify_eq; try apply Qle_refl.
  apply IH in H. pose proof (Qsquare_nonneg (x - y)). Lqa.lra.
Qed.

(** Every coordinate difference is bounded by the squared distance. *)
Lemma squaredDistance_loop_comp sum us vs d i x y :
  squaredDistance_loop sum us vs = Some d ->
  us !! i = Some x -> vs !! i = Some y ->
  (sum + (x - y) * (x - y) <= d)%Q.
Proof.
  revert sum vs i. induction us as [|x' us IH]; intros sum [|y' vs] [|i] H Hx Hy;
    simpl in *; simplify_eq.
  - by apply squaredDistance_loop_ge in H.
  - specialize (IH _ _ _ H Hx Hy). pose proof (Qsquare_nonneg (x' - y')).
    Lqa.lra.
Qed.

Lemma squaredDistance_loop_zero sum us vs d :
  squaredDistance_loop sum us vs = Some d -> (0 <= sum)%Q -> (d == 0)%Q ->
  length us = length vs -> Forall2 Qeq us vs.
Proof.
  revert sum vs. induction us as [|x us IH]; intros sum [|y vs] H Hs Hd Hlen;
    simpl in *; simplify_eq; constructor.
  - pose proof (squaredDistance_loop_ge _ _ _ _ H).
    pose proof (Qsquare_nonneg (x - y)).
    assert (Hz : ((x - y) * (x - y) == 0)%Q) by Lqa.lra.
    apply Qsquare_zero in Hz. Lqa.lra.
  - eapply IH; eauto. pose proof (Qsquare_nonneg (x - y)). Lqa.lra.
Qed.

Lemma squaredDistance_loop_same sum us vs :
  Forall2 Qeq us vs ->
  exists d, squaredDistance_loop sum us vs = Some d /\ (d == sum)%Q.
Proof.
  intros HF. revert sum. induction HF as [|x y us vs Hxy _ IH]; intros sum;
    simpl.
  - exists sum. split; [done|reflexivity].
  - destruct (IH (sum + (x - y) * (x - y))%Q) as (d & -> & Hd).
    exists d. split; [done|]. rewrite Hd, Hxy. Lqa.lra.
Qed.

Lemma squaredDistance_loop_Q2R sum us vs d :
  squaredDistance_loop sum us vs = Some d -> length us = length vs ->
  Q2R d = (Q2R sum + fold_right Rplus 0
             (zip_with (fun x y => (Q2R x - Q2R y) * (Q2R x - Q2R y)) us vs))%R.
Proof.
  revert sum vs. induction us as [|x us IH]; intros sum [|y vs] H Hlen;
    simpl in *; simplify_eq.
  - Lra.lra.
  - rewrite (IH _ _ H) by lia.
    rewrite Q2R_plus, Q2R_mult, Q2R_minus. Lra.lra.
Qed.

Lemma sum_squares_nonneg us vs :
  (0 <= fold_right Rplus 0
     (zip_with (fun x y => (Q2R x - Q2R y) * (Q2R x - Q2R y)) us vs))%R.
Proof.
  revert vs. induction us as [|x us IH]; intros [|y vs]; simpl; try Lra.lra.
  specialize (IH vs). pose proof (Rle_0_sqr (Q2R x - Q2R y)) as Hsq.
  unfold Rsqr in Hsq. Lra.lra.
Qed.

(** The test of rangeQuery against the Euclidean distance. *)
Lemma squaredDistance_distance p c d r :
  squaredDistance p c = Some d ->
  length (Components p) = length (Components c) ->
  (0 <= r)%Q ->
  (d <= r * r)%Q <-> (distance p c <= Q2R r)%R.
Proof.
  intros Hd Hlen Hr. unfold distance.
  pose proof (squaredDistance_loop_Q2R _ _ _ _ Hd Hlen) as HQ.
  pose proof (sum_squares_nonneg (Components p) (Components c)) as Hnn.
  set (D := fold_right Rplus 0%R _) in *.
  replace (Q2R 0) with 0%R in HQ by (unfold Q2R; simpl; Lra.lra).
  apply Qle_Rle in Hr. replace (Q2R 0) with 0%R in Hr by (unfold Q2R; simpl; Lra.lra).
  split.
  - intros Hle%Qle_Rle. rewrite Q2R_mult in Hle.
    rewrite <- (sqrt_square (Q2R r)) by done.
    apply sqrt_le_1_alt. Lra.lra.
  - intros Hle. apply Rle_Qle. rewrite Q2R_mult.
    pose proof (sqrt_sqrt D Hnn) as Hs.
    pose proof (sqrt_pos D).
    assert (D <= Q2R r * Q2R r)%R by Lra.nra. Lra.lra.
Qed.

Lemma StronglySorted_middle {A} (R : A -> A -> Prop) l1 x l2 :
  StronglySorted R (l1 ++ x :: l2) ->
  Forall (fun a => R a x) l1 /\ Forall (R x) l2.
Proof.
  induction l1 as [|a l1 IH]; simpl; intros H.
  - split; [constructor|]. by apply StronglySorted_inv in H as [_ ?].
  - apply StronglySorted_inv in H as [Hs Hf].
    destruct (IH Hs) as [H1 H2]. split; [|done].
    constructor; [|done]. rewrite Forall_app, Forall_cons in Hf. tauto.
Qed.

(** The insertion sort meets the contract. *)
Lemma insert_sorted_Permutation lt x l : insert_sorted lt x l ≡ₚ x :: l.
Proof.
  induction l as [|y l IH]; simpl; [done|].
  destruct (lt x y); [done|]. rewrite IH. apply Permutation_swap.
Qed.

Lemma insertion_sort_Permutation lt l : insertion_sort lt l ≡ₚ l.
Proof.
  induction l as [|x l IH]; simpl; [done|].
  by rewrite insert_sorted_Permutation, IH.
Qed.

Lemma insert_sorted_sorted (key : Vector -> Q) x l :
  StronglySorted (fun a b => (key a <= key b)%Q) l ->
  StronglySorted (fun a b => (key a <= key b)%Q)
    (insert_sorted (fun a b => fltb (key a) (key b)) x l).
Proof.
  induction 1 as [|y l Hs IH Hf]; simpl.
  - repeat constructor.
  - destruct (fltb (key x) (key y)) eqn:Hlt.
    + apply fltb_true in Hlt. constructor; [by constructor|].
      constructor; [by apply Qlt_le_weak|].
      eapply Forall_impl; [exact Hf|]. simpl. intros z Hz.
      eapply Qle_trans; [apply Qlt_le_weak, Hlt|done].
    + apply fltb_false in Hlt. constructor; [done|].
      rewrite insert_sorted_Permutation. by constructor.
Qed.

Lemma insertion_sort_sorted (key : Vector -> Q) l :
  StronglySorted (fun a b => (key a <= key b)%Q)
    (insertion_sort (fun a b => fltb (key a) (key b)) l).
Proof.
  induction l as [|x l IH]; simpl; [constructor|].
  by apply insert_sorted_sorted.
Qed.

Lemma sqrt_up_pos x : (0 < x)%Q -> (0 < sqrt_up x)%Q.
Proof.
  destruct x as [n d]. unfold Qlt, sqrt_up. simpl. intros H.
  assert (0 < Z.sqrt_up (n * Z.pos d)); [|lia].
  apply Z.sqrt_up_pos. lia.
Qed.

(** Every point of [l] has [k] components. *)
Definition all_dim (k : Z) (l : list Vector) : Prop :=
  forall p, p ∈ l -> Z.of_nat (length (Components p)) = k.

(** The order build leaves in a tree of [k]-dimensional points rooted at
    [depth]: along the splitting axis the left subtree is not above the node
    and the right subtree is not below it. *)
Fixpoint kd_ordered (k : Z) (n : node) (depth : Z) : Prop :=
  match n with
  | nil_node => True
  | mk_node v l r =>
      (forall q, q ∈ points l ->
         (key (Z.rem depth k) q <= key (Z.rem depth k) v)%Q) /\
      (forall q, q ∈ points r ->
         (key (Z.rem depth k) v <= key (Z.rem depth k) q)%Q) /\
      kd_ordered k l (depth + 1) /\ kd_ordered k r (depth + 1)
  end.

Lemma comp_is_Some k v axis :
  Z.of_nat (length (Components v)) = k -> 0 <= axis < k ->
  exists x, comp v axis = Some x /\ key axis v = x.
Proof.
  intros Hk Ha. unfold key.
  destruct (at_index_is_Some (Components v) axis) as [x Hx]; [lia|].
  unfold comp. rewrite Hx. eauto.
Qed.

Lemma rem_axis depth k : 0 <= depth -> 1 <= k -> 0 <= Z.rem depth k < k.
Proof. intros. apply Z.rem_bound_pos; lia. Qed.

Section KDTreeProofs.

Variable sort_Slice : (Vector -> Vector -> bool) -> list Vector -> list Vector.

(** The contract of sort.Slice: the slice is permuted, and it is sorted for
    a comparator that compares a key. *)
Hypothesis sort_Slice_Permutation : forall lt l, sort_Slice lt l ≡ₚ l.
Hypothesis sort_Slice_sorted : forall (key : Vector -> Q) l,
  StronglySorted (fun a b => (key a <= key b)%Q)
    (sort_Slice (fun a b => fltb (key a) (key b)) l).

Lemma build_ok k fuel vectors depth :
  (length vectors <= fuel)%nat -> all_dim k vectors -> 1 <= k -> 0 <= depth ->
  exists n, build sort_Slice fuel vectors depth = Some n /\
    points n ≡ₚ vectors /\ kd_ordered k n depth.
Proof.
  revert vectors depth.
  induction fuel as [|fuel IH]; intros vectors depth Hfuel Hdim Hk Hd.
  { destruct vectors; simpl in Hfuel; [|lia]. exists nil_node. done. }
  destruct vectors as [|v0 rest]; [exists nil_node; done|].
  cbn [build]. remember (v0 :: rest) as vectors eqn:Ev.
  assert (Hv0 : v0 ∈ vectors) by (rewrite Ev; left).
  rewrite (Hdim v0 Hv0).
  destruct (Z.eqb_spec k 0); [lia|].
  pose proof (rem_axis depth k Hd Hk) as Hax.
  set (axis := Z.rem depth k) in *.
  assert (Hall : forallb (fun v => bool_decide (is_Some (comp v axis))) vectors
                 = true).
  { apply forallb_forall. intros v Hv%list_elem_of_In.
    apply bool_decide_eq_true.
    destruct (comp_is_Some k v axis) as (x & -> & _); eauto. }
  rewrite Hall, andb_false_r.
  pose proof (sort_Slice_Permutation (less axis) vectors) as Hperm.
  pose proof (sort_Slice_sorted (key axis) vectors) as Hsorted.
  fold (less axis) in Hsorted.
  set (sorted := sort_Slice (less axis) vectors) in *.
  pose proof (Permutation_length Hperm) as Hlen.
  assert (Hn : (1 <= length vectors)%nat) by (rewrite Ev; simpl; lia).
  set (m := Z.quot (Z.of_nat (length sorted)) 2).
  assert (Hm : 0 <= m < Z.of_nat (length sorted)).
  { unfold m. Z.to_euclidean_division_equations. lia. }
  destruct (at_index_is_Some sorted m Hm) as [mp Emp]. rewrite Emp.
  cbn [mbind option_bind].
  apply at_index_Some in Emp as [_ Emp].
  pose proof (take_drop_middle _ _ _ Emp) as Hsplit.
  assert (Hsub : forall p, p ∈ sorted -> p ∈ vectors).
  { intros p. by rewrite Hperm. }
  destruct (IH (take (Z.to_nat m) sorted) (depth + 1))
    as (l & -> & Hpl & Hol); [rewrite length_take; lia| |done|lia|].
  { intros p Hp%elem_of_take. apply Hdim. apply Hsub.
    destruct Hp as (i & Hp & _). by eapply list_elem_of_lookup_2. }
  replace (Z.to_nat (m + 1)) with (S (Z.to_nat m)) by lia.
  destruct (IH (drop (S (Z.to_nat m)) sorted) (depth + 1))
    as (r & -> & Hpr & Hor); [rewrite length_drop; lia| |done|lia|].
  { intros p Hp%list_elem_of_lookup. destruct Hp as (i & Hp).
    rewrite lookup_drop in Hp. apply Hdim, Hsub.
    by eapply list_elem_of_lookup_2. }
  cbn [mbind option_bind]. eexists. split; [done|].
  rewrite <- Hsplit in Hsorted.
  apply StronglySorted_middle in Hsorted as [Hl Hr].
  split.
  - cbn [points]. rewrite Hpl, Hpr, <- Hperm.
    rewrite Permutation_middle. by rewrite Hsplit.
  - cbn [kd_ordered]. fold axis. split; [|split; [|done]].
    + intros q Hq. rewrite Hpl in Hq.
      rewrite Forall_forall in Hl. by apply Hl.
    + intros q Hq. rewrite Hpr in Hq.
      rewrite Forall_forall in Hr. by apply Hr.
Qed.

(** [p] passes the test of rangeQuery. *)
Definition within (p center : Vector) (radius : Q) : Prop :=
  exists d, squaredDistance p center = Some d /\ (d <= radius * radius)%Q.

Lemma squaredDistance_is_Some k p c :
  Z.of_nat (length (Components p)) = k ->
  Z.of_nat (length (Components c)) = k ->
  exists d, squaredDistance p c = Some d /\ (0 <= d)%Q.
Proof.
  intros Hp Hc.
  destruct (squaredDistance_loop_is_Some 0 (Components p) (Components c))
    as [d Hd]; [lia|].
  exists d. split; [done|]. by apply squaredDistance_loop_ge in Hd.
Qed.

(** A point within the radius is within the radius along every axis. *)
Lemma within_axis k p c radius axis :
  Z.of_nat (length (Components p)) = k ->
  Z.of_nat (length (Components c)) = k ->
  0 <= axis < k -> (0 <= radius)%Q -> within p c radius ->
  (key axis c - radius <= key axis p /\ key axis p <= key axis c + radius)%Q.
Proof.
  intros Hp Hc Ha Hr (d & Hd & Hle).
  destruct (comp_is_Some k p axis Hp Ha) as (x & Hx & ->).
  destruct (comp_is_Some k c axis Hc Ha) as (y & Hy & ->).
  apply at_index_Some in Hx as [_ Hx]. apply at_index_Some in Hy as [_ Hy].
  pose proof (squaredDistance_loop_comp _ _ _ _ _ _ _ Hd Hx Hy) as Hxy.
  assert (Hsq : ((x - y) * (x - y) <= radius * radius)%Q) by Lqa.lra.
  split.
  - destruct (Qlt_le_dec x (y - radius)) as [Hlt|]; [|done].
    assert (0 < (y - radius - x) * (y + radius - x))%Q.
    { apply Qmult_lt_0_compat; Lqa.lra. }
    Lqa.lra.
  - destruct (Qlt_le_dec (y + radius) x) as [Hlt|]; [|done].
    assert (0 < (x - y - radius) * (x - y + radius))%Q.
    { apply Qmult_lt_0_compat; Lqa.lra. }
    Lqa.lra.
Qed.

Lemma rangeQuery_ok k n center radius depth :
  kd_ordered k n depth -> all_dim k (points n) ->
  Z.of_nat (length (Components center)) = k -> 1 <= k -> 0 <= depth ->
  (0 <= radius)%Q ->
  exists res, rangeQuery n center radius depth = Some res /\
    forall p, p ∈ res <-> p ∈ points n /\ within p center radius.
Proof.
  intros Hord Hdim Hc Hk Hd Hr. revert depth Hord Hd.
  induction n as [|v l IHl r IHr]; intros depth Hord Hd.
  { exists []. split; [done|]. intros p. split; [|intros [? _]]; set_solver. }
  cbn [kd_ordered] in Hord. destruct Hord as (Hlo & Hro & Hordl & Hordr).
  cbn [points] in Hdim.
  assert (Hv : Z.of_nat (length (Components v)) = k) by (apply Hdim; left).
  assert (Hdl : all_dim k (points l)).
  { intros p Hp. apply Hdim. right. apply elem_of_app. by left. }
  assert (Hdr : all_dim k (points r)).
  { intros p Hp. apply Hdim. right. apply elem_of_app. by right. }
  destruct (IHl Hdl (depth + 1) Hordl) as (ql & Hql & Hsl); [lia|].
  destruct (IHr Hdr (depth + 1) Hordr) as (qr & Hqr & Hsr); [lia|].
  pose proof (rem_axis depth k Hd Hk) as Hax.
  cbn [rangeQuery]. rewrite Hv. destruct (Z.eqb_spec k 0); [lia|].
  set (axis := Z.rem depth k) in *.
  destruct (squaredDistance_is_Some k v center Hv Hc) as (d & Ed & Hd0).
  rewrite Ed. cbn [mbind option_bind].
  destruct (comp_is_Some k center axis Hc Hax) as (c & Ec & Hkc).
  destruct (comp_is_Some k v axis Hv Hax) as (s & Es & Hks).
  rewrite Hql, Hqr, Ec, Es. cbn [mbind option_bind].
  set (base := if fleb d (radius * radius) then [v] else []).
  assert (Hbase : forall p, p ∈ base <-> p = v /\ within p center radius).
  { intros p. unfold base, within.
    destruct (fleb d (radius * radius)) eqn:Hle.
    - apply fleb_true in Hle. rewrite list_elem_of_singleton.
      split; [intros ->; eauto|tauto].
    - apply fleb_false in Hle. split; [set_solver|].
      intros [-> (d' & Hd' & Hle')]. simplify_eq. Lqa.lra. }
  (* the left subtree *)
  set (left := match l with
               | nil_node => Some base
               | _ => if fleb (c - radius) s then Some (base ++ ql)
                      else Some base
               end).
  assert (exists pl, left = Some pl /\ forall p, p ∈ pl <->
            p ∈ base \/ (p ∈ points l /\ within p center radius))
    as (pl & Hpl & Hspl).
  { assert (Hskip : (s < c - radius)%Q ->
      forall p, p ∈ base <->
        p ∈ base \/ (p ∈ points l /\ within p center radius)).
    { intros Hlt p. split; [auto|]. intros [?|[Hp Hw]]; [done|].
      exfalso. pose proof (Hlo p Hp) as Hps.
      destruct (within_axis k p center radius axis) as [Hlow _]; auto.
      rewrite Hkc, Hks in *. Lqa.lra. }
    unfold left. destruct l as [|lv ll lr].
    - exists base. split; [done|]. intros p. split; [auto|].
      intros [?|[Hp _]]; [done|]. by apply elem_of_nil in Hp.
    - destruct (fleb (c - radius) s) eqn:Hle.
      + exists (base ++ ql). split; [done|]. intros p.
        rewrite elem_of_app, Hsl. tauto.
      + apply fleb_false in Hle. exists base. split; [done|]. by apply Hskip. }
  set (right := fun pl : list Vector =>
                match r with
                | nil_node => Some pl
                | _ => if fleb s (c + radius) then Some (pl ++ qr)
                       else Some pl
                end).
  assert (exists pr, right pl = Some pr /\ forall p, p ∈ pr <->
            p ∈ pl \/ (p ∈ points r /\ within p center radius))
    as (pr & Hpr & Hspr).
  { assert (Hskip : (c + radius < s)%Q ->
      forall p, p ∈ pl <->
        p ∈ pl \/ (p ∈ points r /\ within p center radius)).
    { intros Hlt p. split; [auto|]. intros [?|[Hp Hw]]; [done|].
      exfalso. pose proof (Hro p Hp) as Hps.
      destruct (within_axis k p center radius axis) as [_ Hhigh]; auto.
      rewrite Hkc, Hks in *. Lqa.lra. }
    unfold right. destruct r as [|rv rl rr].
    - exists pl. split; [done|]. intros p. split; [auto|].
      intros [?|[Hp _]]; [done|]. by apply elem_of_nil in Hp.
    - destruct (fleb s (c + radius)) eqn:Hle.
      + exists (pl ++ qr). split; [done|]. intros p.
        rewrite elem_of_app, Hsr. tauto.
      + apply fleb_false in Hle. exists pl. split; [done|]. by apply Hskip. }
  exists pr. split.
  - transitivity (pl' ← left; right pl'); [|by rewrite Hpl].
    unfold left, right. destruct l, r; cbn [mbind option_bind]; try done;
      repeat (destruct (fleb _ _); cbn [mbind option_bind]; try done).
  - intros p. rewrite Hspr, Hspl, Hbase. cbn [points].
    rewrite elem_of_cons, elem_of_app. tauto.
Qed.

(** What BuildKDTree returns: a tree of the points, in k-d order. *)
Lemma BuildKDTree_ok k pts t :
  all_dim k pts -> BuildKDTree sort_Slice pts = Some t ->
  points (root t) ≡ₚ pts /\
  (pts <> [] -> 1 <= k /\ kd_ordered k (root t) 0).
Proof.
  intros Hdim Ht. unfold BuildKDTree in Ht.
  destruct (build sort_Slice (length pts) pts 0) as [n|] eqn:Hb; [|done].
  cbn in Ht. injection Ht as <-. cbn [root].
  destruct pts as [|v0 rest]; [by injection Hb as <-|].
  assert (Hv0 : Z.of_nat (length (Components v0)) = k) by (apply Hdim; left).
  assert (Hk : 1 <= k).
  { destruct (decide (k = 0)) as [->|]; [|lia].
    cbn in Hb. rewrite Hv0 in Hb. done. }
  destruct (build_ok k (length (v0 :: rest)) (v0 :: rest) 0)
    as (n' & Hb' & Hp & Ho); [done..|].
  rewrite Hb in Hb'. injection Hb' as <-. done.
Qed.

(** C2 (amended): for a tree built from points of one dimensionality, a
    center of that dimensionality and a radius that is not negative,
    RangeQuery returns, and a point is in the result if and only if it is one
    of the points and its Euclidean distance to the center is at most the
    radius. *)
Theorem RangeQuery_complete_sound (k : Z) (pts : list Vector) (t : KDTree)
    (center : Vector) (radius : Q) :
  all_dim k pts -> Z.of_nat (length (Components center)) = k ->
  BuildKDTree sort_Slice pts = Some t ->
  (0 <= radius)%Q ->
  exists res, RangeQuery t center radius = Some res /\
    forall p, p ∈ res <-> p ∈ pts /\ (distance p center <= Q2R radius)%R.
Proof.
  intros Hdim Hc Ht Hr.
  destruct (BuildKDTree_ok k pts t Hdim Ht) as [Hp Hne].
  destruct pts as [|v0 rest].
  { apply Permutation_nil_r in Hp. unfold RangeQuery.
    destruct (root t); [|done]. exists []. split; [done|].
    intros p. split; [|intros [? _]]; set_solver. }
  destruct Hne as [Hk Hord]; [done|].
  assert (Hdim' : all_dim k (points (root t))).
  { intros p. rewrite Hp. apply Hdim. }
  destruct (rangeQuery_ok k (root t) center radius 0)
    as (res & Hres & Hspec); [done..|].
  exists res. split; [done|]. intros p. rewrite Hspec, Hp.
  split; intros [Hin Hw]; (split; [done|]).
  - destruct Hw as (d & Hd & Hle).
    eapply squaredDistance_distance; eauto.
    pose proof (Hdim p Hin). lia.
  - destruct (squaredDistance_is_Some k p center) as (d & Hd & _); auto.
    exists d. split; [done|].
    eapply squaredDistance_distance; eauto.
    pose proof (Hdim p Hin). lia.
Qed.


(** Of math.Sqrt the code needs only that it is positive on positive
    arguments. *)
Variable Sqrt : Q -> Q.
Hypothesis Sqrt_pos : forall x, (0 < x)%Q -> (0 < Sqrt x)%Q.

(** The running best of nearest: the distance is not negative, and a
    distance of zero comes with a node whose point has the coordinates of
    the target. *)
Definition best_ok (target : Vector) (best : node) (bestDist : Q) : Prop :=
  (0 <= bestDist)%Q /\
  ((bestDist == 0)%Q -> exists v l r, best = mk_node v l r /\
     Forall2 Qeq (Components v) (Components target)).

Lemma key_Forall2 k axis q target :
  Forall2 Qeq (Components q) (Components target) ->
  Z.of_nat (length (Components q)) = k -> 0 <= axis < k ->
  (key axis q == key axis target)%Q.
Proof.
  intros HF Hq Ha.
  pose proof (Forall2_length _ _ _ HF) as Hlen.
  destruct (comp_is_Some k q axis Hq Ha) as (x & Hx & ->).
  destruct (comp_is_Some k target axis) as (y & Hy & ->); [lia|done|].
  apply at_index_Some in Hx as [_ Hx]. apply at_index_Some in Hy as [_ Hy].
  eapply Forall2_lookup_lr in HF; eauto.
Qed.

Lemma nearest_ok k n target depth best bestDist :
  all_dim k (points n) ->
  Z.of_nat (length (Components target)) = k -> 1 <= k -> 0 <= depth ->
  best_ok target best bestDist ->
  exists best' bestDist',
    nearest Sqrt n target depth best bestDist = Some (best', bestDist') /\
    best_ok target best' bestDist' /\ (bestDist' <= bestDist)%Q /\
    (kd_ordered k n depth ->
     (exists q, q ∈ points n /\
        Forall2 Qeq (Components q) (Components target)) ->
     (bestDist' == 0)%Q).
Proof.
  intros Hdim Ht Hk. revert depth best bestDist.
  induction n as [|v l IHl r IHr]; intros depth best bestDist Hd Hbest.
  { exists best, bestDist. split; [done|]. split; [done|].
    split; [apply Qle_refl|]. intros _ (q & Hq & _). by apply elem_of_nil in Hq. }
  cbn [points] in Hdim.
  assert (Hv : Z.of_nat (length (Components v)) = k) by (apply Hdim; left).
  assert (Hdl : all_dim k (points l)).
  { intros p Hp. apply Hdim. right. apply elem_of_app. by left. }
  assert (Hdr : all_dim k (points r)).
  { intros p Hp. apply Hdim. right. apply elem_of_app. by right. }
  specialize (IHl Hdl (depth + 1)). specialize (IHr Hdr (depth + 1)).
  pose proof (rem_axis depth k Hd Hk) as Hax.
  cbn [nearest]. rewrite Ht. destruct (Z.eqb_spec k 0); [lia|].
  set (axis := Z.rem depth k) in *.
  destruct (squaredDistance_is_Some k v target Hv Ht) as (dist & Ed & Hd0).
  rewrite Ed. cbn [mbind option_bind].
  destruct (comp_is_Some k target axis Ht Hax) as (t & Et & Hkt).
  destruct (comp_is_Some k v axis Hv Hax) as (s & Es & Hks).
  (* the update of the running best at this node *)
  set (nd := mk_node v l r).
  assert (exists best1 bd1,
    (if fltb dist bestDist then (nd, dist) else (best, bestDist)) = (best1, bd1) /\
    best_ok target best1 bd1 /\ (bd1 <= bestDist)%Q /\ (bd1 <= dist)%Q)
    as (best1 & bd1 & -> & Hb1 & Hle1 & Hled).
  { destruct (fltb dist bestDist) eqn:Hlt.
    - apply fltb_true in Hlt. exists nd, dist. split; [done|].
      split; [|split; [by apply Qlt_le_weak|apply Qle_refl]].
      split; [done|]. intros Hz. exists v, l, r. split; [done|].
      eapply squaredDistance_loop_zero; eauto; [apply Qle_refl|lia].
    - apply fltb_false in Hlt. exists best, bestDist.
      split; [done|]. split; [done|]. split; [apply Qle_refl|done]. }
  rewrite Et, Es. cbn [mbind option_bind].
  assert (Hzero : forall b d, best_ok target b d -> (d <= bd1)%Q ->
            (bd1 == 0)%Q -> (d == 0)%Q).
  { intros b d [Hd1 _] Hle Hz. Lqa.lra. }
  destruct (fltb t s) eqn:Hts.
  - (* the target is on the left *)
    apply fltb_true in Hts.
    destruct (IHl best1 bd1) as (best2 & bd2 & -> & Hb2 & Hle2 & Hf2);
      [lia|done|].
    cbn [mbind option_bind].
    assert (Hfind2 : kd_ordered k nd depth ->
      (exists q, q ∈ points nd /\
         Forall2 Qeq (Components q) (Components target)) -> (bd2 == 0)%Q).
    { intros (Hlo & Hro & Hol & Hor) (q & Hq & HF).
      cbn [points] in Hq.
      apply elem_of_cons in Hq as [->|[Hq|Hq]%elem_of_app].
      - destruct (squaredDistance_loop_same 0 _ _ HF) as (d' & Hd' & Hz).
        unfold squaredDistance in Ed. simplify_eq.
        eapply Hzero; eauto. destruct Hb1. Lqa.lra.
      - apply Hf2; eauto.
      - exfalso. pose proof (Hro q Hq) as Hle. fold axis in Hle.
        rewrite (key_Forall2 k axis q target HF) in Hle by auto.
        rewrite Hkt, Hks in Hle. Lqa.lra. }
    destruct (fltb (Qabs (s - t)) (Sqrt bd2)).
    + destruct (IHr best2 bd2) as (best3 & bd3 & -> & Hb3 & Hle3 & _);
        [lia|done|].
      exists best3, bd3. split; [done|]. split; [done|].
      split; [Lqa.lra|]. intros Hord Hq.
      specialize (Hfind2 Hord Hq). destruct Hb3. Lqa.lra.
    + exists best2, bd2. split; [done|]. split; [done|].
      split; [Lqa.lra|done].
  - (* the target is on the right, or on the splitting plane *)
    apply fltb_false in Hts.
    destruct (IHr best1 bd1) as (best2 & bd2 & -> & Hb2 & Hle2 & Hf2);
      [lia|done|].
    cbn [mbind option_bind].
    destruct (fltb (Qabs (s - t)) (Sqrt bd2)) eqn:Habs.
    + destruct (IHl best2 bd2) as (best3 & bd3 & -> & Hb3 & Hle3 & Hf3);
        [lia|done|].
      exists best3, bd3. split; [done|]. split; [done|].
      split; [Lqa.lra|]. intros (Hlo & Hro & Hol & Hor) (q & Hq & HF).
      cbn [points] in Hq.
      apply elem_of_cons in Hq as [->|[Hq|Hq]%elem_of_app].
      * destruct (squaredDistance_loop_same 0 _ _ HF) as (d' & Hd' & Hz).
        unfold squaredDistance in Ed. simplify_eq.
        destruct Hb1, Hb3. Lqa.lra.
      * apply Hf3; eauto.
      * assert (bd2 == 0)%Q by (apply Hf2; eauto).
        destruct Hb3. Lqa.lra.
    + apply fltb_false in Habs.
      exists best2, bd2. split; [done|]. split; [done|].
      split; [Lqa.lra|]. intros (Hlo & Hro & Hol & Hor) (q & Hq & HF).
      cbn [points] in Hq.
      apply elem_of_cons in Hq as [->|[Hq|Hq]%elem_of_app].
      * destruct (squaredDistance_loop_same 0 _ _ HF) as (d' & Hd' & Hz).
        unfold squaredDistance in Ed. simplify_eq.
        destruct Hb1, Hb2. Lqa.lra.
      * (* on the splitting plane: the other side is searched unless the
           best distance is already zero *)
        pose proof (Hlo q Hq) as Hle. fold axis in Hle.
        rewrite (key_Forall2 k axis q target HF) in Hle by auto.
        rewrite Hkt, Hks in Hle.
        destruct Hb2 as [Hb2 _].
        destruct (Qlt_le_dec 0 bd2) as [Hpos|]; [|Lqa.lra].
        apply Sqrt_pos in Hpos. exfalso.
        assert (Hst : (s - t == 0)%Q) by Lqa.lra.
        rewrite Hst in Habs. change (Qabs 0) with 0%Q in Habs. Lqa.lra.
      * apply Hf2; eauto.
Qed.

(** C6: on a tree built from a non-empty set of points of one dimensionality,
    FindNearest of a target whose components equal those of a stored point
    returns a point with those components, and the distance 0. *)
Theorem FindNearest_present (k : Z) (pts : list Vector) (t : KDTree)
    (target q : Vector) :
  all_dim k pts -> Z.of_nat (length (Components target)) = k ->
  BuildKDTree sort_Slice pts = Some t ->
  q ∈ pts -> Forall2 Qeq (Components q) (Components target) ->
  exists v d, FindNearest Sqrt t target = Some (v, d) /\
    Forall2 Qeq (Components v) (Components target) /\ (d == 0)%Q.
Proof.
  intros Hdim Ht Hb Hq HF.
  destruct (BuildKDTree_ok k pts t Hdim Hb) as [Hp Hne].
  destruct Hne as [Hk Hord]; [by intros ->; apply elem_of_nil in Hq|].
  assert (Hdim' : all_dim k (points (root t))).
  { intros p. rewrite Hp. apply Hdim. }
  destruct (nearest_ok k (root t) target 0 nil_node MaxFloat64)
    as (best & d & Hn & [Hd0 Hbest] & _ & Hfind); [done..| |].
  { split; [done|]. intros Hz. done. }
  assert (Hz : (d == 0)%Q).
  { apply Hfind; [done|]. exists q. by rewrite Hp. }
  destruct (Hbest Hz) as (v & l & r & -> & Hv).
  exists v, d. unfold FindNearest. rewrite Hn. done.
Qed.

End KDTreeProofs.

(** C2, as stated, fails for a negative radius: the test compares the squared
    distance with the square of the radius, so a point at the center is
    returned for the radius -1, although no distance is at most -1. *)
Lemma RangeQuery_negative_radius :
  let p := {| vID := 0; Components := [0%Q] |} in
  let center := {| vID := 1; Components := [0%Q] |} in
  exists t, BuildKDTree insertion_sort [p] = Some t /\
    RangeQuery t center (-1)%Q = Some [p] /\
    ~ (distance p center <= Q2R (-1))%R.
Proof.
  intros p center. eexists. split; [reflexivity|]. split; [reflexivity|].
  intros H. pose proof (sqrt_pos (fold_right Rplus 0%R
    (zip_with (fun x y => ((Q2R x - Q2R y) * (Q2R x - Q2R y))%R)
       (Components p) (Components center)))) as Hpos.
  unfold distance in H.
  assert (Q2R (-1) = (-1)%R) by (unfold Q2R; simpl; Lra.lra).
  Lra.lra.
Qed.

Lemma RangeQuery_complete_sound_witness :
  let mk i x y := {| vID := i; Components := [x; y] |} in
  let pts := [mk 0 1%Q 2%Q; mk 1 3%Q 4%Q; mk 2 5%Q 6%Q; mk 3 7%Q 8%Q] in
  let center := mk 9 4%Q 5%Q in
  exists t res, BuildKDTree insertion_sort pts = Some t /\
    RangeQuery t center 2%Q = Some res /\
    forall p, p ∈ res <-> p ∈ pts /\ (distance p center <= Q2R 2)%R.
Proof.
  intros mk pts center.
  destruct (BuildKDTree insertion_sort pts) as [t|] eqn:Ht;
    [|vm_compute in Ht; discriminate].
  destruct (RangeQuery_complete_sound insertion_sort
              insertion_sort_Permutation insertion_sort_sorted
              2 pts t center 2%Q) as (res & Hres & Hspec).
  - intros p Hp. repeat (apply elem_of_cons in Hp as [->|Hp]); try reflexivity.
    by apply elem_of_nil in Hp.
  - reflexivity.
  - exact Ht.
  - unfold Qle. simpl. lia.
  - exists t, res. done.
Defined.

Lemma FindNearest_present_witness :
  let mk i x y := {| vID := i; Components := [x; y] |} in
  let pts := [mk 0 2%Q 3%Q; mk 1 5%Q 4%Q; mk 2 9%Q 6%Q; mk 3 4%Q 7%Q;
              mk 4 8%Q 1%Q; mk 5 7%Q 2%Q] in
  exists t v d, BuildKDTree insertion_sort pts = Some t /\
    FindNearest sqrt_up t (mk 9 8%Q 1%Q) = Some (v, d) /\
    Forall2 Qeq (Components v) [8%Q; 1%Q] /\ (d == 0)%Q.
Proof.
  intros mk pts.
  destruct (BuildKDTree insertion_sort pts) as [t|] eqn:Ht;
    [|vm_compute in Ht; discriminate].
  destruct (FindNearest_present insertion_sort
              insertion_sort_Permutation insertion_sort_sorted
              sqrt_up sqrt_up_pos
              2 pts t (mk 9 8%Q 1%Q) (mk 4 8%Q 1%Q)) as (v & d & H1 & H2 & H3).
  - intros p Hp. repeat (apply elem_of_cons in Hp as [->|Hp]); try reflexivity.
    by apply elem_of_nil in Hp.
  - reflexivity.
  - exact Ht.
  - unfold pts. do 4 right. left.
  - repeat constructor.
  - exists t, v, d. done.
Defined.

(** ** The shortest-path engine *)

(** *** What each step leaves alone *)

Lemma addPrevious_frame s s' cid :
  addPrevious s = Some (s', cid) ->
  pq s' = pq s /\ visited s' = visited s /\ costs s' = costs s /\
  sources s' = sources s /\ target s' = target s.
Proof.
  unfold addPrevious. intros H.
  apply bind_Some in H as ([m err] & _ & H).
  destruct (AddNode _ _) as [prev currentID].
  apply bind_Some in H as (prev' & _ & H). by simplify_eq.
Qed.

Lemma Relax_frame s n cid w d s' :
  Relax s n cid w d = Some s' ->
  visited s' = visited s /\ previous s' = previous s /\
  sources s' = sources s /\ target s' = target s.
Proof.
  unfold Relax. intros H.
  apply bind_Some in H as ([m err] & _ & H).
  apply bind_Some in H as (seen & _ & H).
  destruct (negb seen); [|by simplify_eq].
  destruct (GetCost (costs s) (ID n)) as [edgeC err'].
  destruct (fltb _ _); [|by simplify_eq].
  apply bind_Some in H as (pq' & _ & H). by simplify_eq.
Qed.

Lemma relax_edges_frame g s cid es s' :
  relax_edges g s cid es = Some s' ->
  visited s' = visited s /\ previous s' = previous s /\
  sources s' = sources s /\ target s' = target s.
Proof.
  revert s. induction es as [|e es IH]; intros s H; cbn [relax_edges] in H.
  - by simplify_eq.
  - apply bind_Some in H as (n & _ & H).
    apply bind_Some in H as (s1 & E1 & H).
    apply Relax_frame in E1 as (<- & <- & <- & <-). by apply IH.
Qed.

(** The memory an outcome carries. *)
Definition outcome_state (o : Outcome) : State :=
  match o with Return st => st | Continue st _ => st end.

Lemma Run_body_frame st cid o :
  Run_body st cid = Some o ->
  graph (outcome_state o) = graph st /\
  sources (engine (outcome_state o)) = sources (engine st) /\
  target (engine (outcome_state o)) = target (engine st).
Proof.
  unfold Run_body. intros H.
  apply bind_Some in H as ([m err] & _ & H).
  apply bind_Some in H as (seen & _ & H).
  apply bind_Some in H as ([s1 cid1] & E1 & H).
  assert (sources s1 = sources (engine st) /\ target s1 = target (engine st))
    as [Hs1 Ht1].
  { destruct (negb seen).
    - apply addPrevious_frame in E1. tauto.
    - by simplify_eq. }
  apply bind_Some in H as (vis & _ & H).
  destruct (reachTarget _ _); [by simplify_eq|].
  apply bind_Some in H as (es & _ & H).
  apply bind_Some in H as (s2 & E2 & H).
  apply relax_edges_frame in E2 as (_ & _ & Hs2 & Ht2). cbn in Hs2, Ht2.
  apply bind_Some in H as ([pq' err'] & _ & H).
  simplify_eq. cbn. split; [done|]. split; congruence.
Qed.

(** A property of the memory kept by every iteration holds when the loop
    returns, and the response is read from the final memory. *)
Lemma Run_loop_invariant (I : State -> Prop) :
  (forall st cid o, I st -> isFinished (engine st) = false ->
     Run_body st cid = Some o -> I (outcome_state o)) ->
  forall fuel st cid r st',
    I st -> Run_loop fuel st cid = Some (r, st') ->
    I st' /\ r = response st'.
Proof.
  intros Hstep. induction fuel as [|fuel IH]; intros st cid r st' HI H;
    cbn [Run_loop] in H; destruct (isFinished (engine st)) eqn:Hfin;
    try (by simplify_eq).
  apply bind_Some in H as (o & Hbody & H).
  pose proof (Hstep _ _ _ HI Hfin Hbody) as HI'.
  destruct o as [st1|st1 cid1]; cbn in HI'.
  - by simplify_eq.
  - eauto.
Qed.

(** C8: Run does not change the graph it is given: the graph in memory when
    the loop returns is the graph it started with.  Of the engine, the
    source bit set and the target stay as they were; the queue, the visited
    set, the cost map and the tree are what the loop writes. *)
Theorem Run_frame (fuel : nat) (st st' : State) (currentID : Z) (r : Response) :
  Run_loop fuel st currentID = Some (r, st') ->
  graph st' = graph st /\
  Nodes (graph st') = Nodes (graph st) /\
  OutgoingEdges (graph st') = OutgoingEdges (graph st) /\
  IncomingEdges (graph st') = IncomingEdges (graph st) /\
  sources (engine st') = sources (engine st) /\
  target (engine st') = target (engine st).
Proof.
  intros H.
  eapply (Run_loop_invariant
    (fun s => graph s = graph st /\
              sources (engine s) = sources (engine st) /\
              target (engine s) = target (engine st))) in H as [(Hg & Hs & Ht) _].
  - rewrite Hg. done.
  - intros s cid o (Hg & Hs & Ht) _ Hbody.
    apply Run_body_frame in Hbody as (Hg' & Hs' & Ht').
    repeat split; congruence.
  - done.
Qed.

(** *** NewDijkstra *)

(** The frontier entry of a source. *)
Definition source_entry (s : Z) : HNode :=
  {| Value := s; Cost := 0; Depth := 0; Previous := 0; Dist := 0 |}.

Lemma add_source_spec search s search' :
  add_source search s = Some search' -> heap_ok (pq search) ->
  0 <= s /\ heap_ok (pq search') /\
  items (pq search') ≡ₚ source_entry s :: items (pq search) /\
  costs search' = <[s := 0%Q]> (costs search) /\
  visited search' = visited search /\ previous search' = previous search /\
  target search' = target search.
Proof.
  unfold add_source. intros H Hok.
  apply bind_Some in H as (pq' & Hpq & H).
  apply bind_Some in H as (src' & Hsrc & H). simplify_eq. cbn.
  destruct (Insert_ok (pq search) (source_entry s) Hok) as (h' & Hh' & Hok' & Hp).
  unfold source_entry in Hh'. rewrite Hpq in Hh'. simplify_eq.
  unfold Set_ in Hsrc. destruct (Z.ltb_spec s 0); [done|]. done.
Qed.

Lemma add_source_is_Some search s :
  heap_ok (pq search) -> 0 <= s -> is_Some (add_source search s).
Proof.
  intros Hok Hs. unfold add_source.
  destruct (Insert_ok (pq search) (source_entry s) Hok) as (h' & Hh' & _).
  unfold source_entry in Hh'. rewrite Hh'. cbn.
  unfold Set_. destruct (Z.ltb_spec s 0); [lia|]. cbn. eauto.
Qed.

Definition first_target (c : Criteria) : Z :=
  match Targets c with t :: _ => t | [] => -1 end.

(** The loop of NewDijkstra over the sources [l]. *)
Definition add_sources (t : Z) (l : list Z) : option DijkstraSearch :=
  foldl (fun o s => search ← o; add_source search s)
    (Some {| pq := Create; visited := NewBigInt; previous := EmptyGraph;
             costs := ∅; sources := NewBigInt; target := t |}) l.

Lemma NewDijkstra_add_sources c :
  NewDijkstra c = add_sources (first_target c) (Source c).
Proof. reflexivity. Qed.

Lemma add_sources_spec t l search :
  add_sources t l = Some search ->
  heap_ok (pq search) /\
  items (pq search) ≡ₚ source_entry <$> l /\
  (forall v, costs search !! v = if decide (v ∈ l) then Some 0%Q else None) /\
  visited search = 0 /\ previous search = EmptyGraph /\
  target search = t /\ Forall (fun s => 0 <= s) l.
Proof.
  unfold add_sources. revert search.
  induction l as [|s l IH] using rev_ind; intros search H.
  - cbn in H. simplify_eq. cbn. split; [apply heap_ok_Create|].
    repeat split; try done.
  - rewrite foldl_app in H. cbn [foldl] in H.
    apply bind_Some in H as (s0 & H0 & H).
    destruct (IH _ H0) as (Hok & Hp & Hc & Hv & Hprev & Ht & Hs).
    destruct (add_source_spec _ _ _ H Hok)
      as (Hs0 & Hok' & Hp' & -> & -> & -> & ->).
    split; [done|]. split.
    { rewrite Hp', Hp, fmap_app. cbn. by rewrite Permutation_app_comm. }
    split.
    { intros v. destruct (decide (v = s)) as [->|Hne].
      - rewrite lookup_insert_eq. rewrite decide_True; [done|].
        apply elem_of_app. right. by left.
      - rewrite lookup_insert_ne by done. rewrite Hc.
        destruct (decide (v ∈ l)).
        + rewrite decide_True; [done|]. apply elem_of_app. by left.
        + rewrite decide_False; [done|]. rewrite elem_of_app.
          rewrite list_elem_of_singleton. tauto. }
    repeat split; try done. apply Forall_app. split; [done|].
    by constructor.
Qed.

Lemma add_sources_is_Some t l :
  Forall (fun s => 0 <= s) l -> is_Some (add_sources t l).
Proof.
  induction l as [|s l IH] using rev_ind; intros Hl.
  - cbn. eauto.
  - apply Forall_app in Hl as [Hl Hs]. apply Forall_cons in Hs as [Hs _].
    destruct (IH Hl) as [s0 H0].
    destruct (add_sources_spec _ _ _ H0) as (Hok & _).
    unfold add_sources in *. rewrite foldl_app. cbn [foldl]. rewrite H0. cbn.
    by apply add_source_is_Some.
Qed.

(** *** The steps of the loop, inverted *)

(** The value GetCost reports: the stored cost, or INFINITE. *)
Definition est (costs : gmap Z Q) (v : Z) : Q := fst (GetCost costs v).

Lemma est_Some costs v c : costs !! v = Some c -> est costs v = c.
Proof. unfold est, GetCost. by intros ->. Qed.

Lemma est_None costs v : costs !! v = None -> est costs v = INFINITE.
Proof. unfold est, GetCost. by intros ->. Qed.

(** The entry Relax inserts, from the head [m] of the queue. *)
Definition relax_entry (s : DijkstraSearch) (m : HNode) (n : Node) (cid : Z)
    (w d : Q) : HNode :=
  {| Value := ID n;
     Cost := default 0%Q (costs s !! Value m) + w;
     Depth := int32 (Depth m + 1);
     Previous := cid;
     Dist := default 0%Q (costs s !! Value m) + d |}.

Definition with_queue (s : DijkstraSearch) (h : Heap) (c : gmap Z Q)
    : DijkstraSearch :=
  {| pq := h; visited := visited s; previous := previous s; costs := c;
     sources := sources s; target := target s |}.

Definition with_visited (s : DijkstraSearch) (vis : Bitset) : DijkstraSearch :=
  {| pq := pq s; visited := vis; previous := previous s; costs := costs s;
     sources := sources s; target := target s |}.

Lemma Min_inv h m err :
  Min h = Some (m, err) -> heap_ok h -> items h <> [] ->
  err = None /\ at_index (items h) 0 = Some m /\ m ∈ items h /\
  forall x, x ∈ items h -> (Cost m <= Cost x)%Q.
Proof.
  intros H Hok Hne. destruct (Min_ok h Hok Hne) as (m' & Hm' & H0 & Hin & Hmin).
  rewrite H in Hm'. by simplify_eq.
Qed.

Lemma Relax_inv s n cid w d s' :
  Relax s n cid w d = Some s' -> heap_ok (pq s) -> items (pq s) <> [] ->
  exists m, at_index (items (pq s)) 0 = Some m /\ 0 <= ID n /\
    ((s' = s /\
      (Z.testbit (visited s) (ID n) = true \/
       (est (costs s) (ID n) <= default 0 (costs s !! Value m) + w)%Q)) \/
     (Z.testbit (visited s) (ID n) = false /\
      (default 0 (costs s !! Value m) + w < est (costs s) (ID n))%Q /\
      exists h, Insert (pq s) (relax_entry s m n cid w d) = Some h /\
        s' = with_queue s h
               (<[ID n := (default 0 (costs s !! Value m) + w)%Q]> (costs s)))).
Proof.
  unfold Relax. intros H Hok Hne.
  apply bind_Some in H as ([m err] & Hm & H).
  apply Min_inv in Hm as (_ & Hm & _); [|done..].
  apply bind_Some in H as (seen & Hseen & H).
  unfold wasVisited, Exists in Hseen.
  destruct (Z.ltb_spec (ID n) 0); [done|]. simplify_eq.
  exists m. split; [done|]. split; [done|].
  destruct (Z.testbit (visited s) (ID n)) eqn:Hvis; cbn in H.
  { left. simplify_eq. auto. }
  unfold est. destruct (GetCost (costs s) (ID n)) as [edgeC err'] eqn:HG.
  cbn [fst].
  destruct (fltb _ edgeC) eqn:Hlt.
  - apply fltb_true in Hlt. right. split; [done|]. split; [done|].
    apply bind_Some in H as (h & Hh & H). simplify_eq.
    eauto.
  - apply fltb_false in Hlt. left. simplify_eq. auto.
Qed.

Lemma addPrevious_inv s s' cid :
  addPrevious s = Some (s', cid) -> heap_ok (pq s) -> items (pq s) <> [] ->
  exists m prev, at_index (items (pq s)) 0 = Some m /\
    cid = snd (AddNode (previous s) {| ID := 0; Location := 0; Rank := Value m |}) /\
    (if decide (Previous m = cid)
     then prev = fst (AddNode (previous s)
                        {| ID := 0; Location := 0; Rank := Value m |})
     else RelateNodes
            (fst (AddNode (previous s)
                    {| ID := 0; Location := 0; Rank := Value m |}))
            {| ID := Previous m; Location := 0; Rank := 0 |}
            {| ID := cid; Location := 0; Rank := 0 |} (Cost m) LeftToRight
            {| Speed := 0; Distance := Dist m; RoadType := "" |} = Some prev) /\
    s' = {| pq := pq s; visited := visited s; previous := prev;
            costs := costs s; sources := sources s; target := target s |}.
Proof.
  unfold addPrevious. intros H Hok Hne.
  apply bind_Some in H as ([m err] & Hm & H).
  apply Min_inv in Hm as (_ & Hm & _); [|done..].
  destruct (AddNode _ _) as [prev0 cid0] eqn:HA.
  apply bind_Some in H as (prev & Hprev & H). simplify_eq.
  exists m, prev. split; [done|]. rewrite HA. cbn [fst snd]. split; [done|].
  split; [|done]. case_decide as Hd.
  - apply Z.eqb_eq in Hd. rewrite Hd in Hprev. cbn in Hprev. by simplify_eq.
  - apply Z.eqb_neq in Hd. rewrite Hd in Hprev. done.
Qed.

(** One iteration, inverted: the head [m] of the queue is read, a tree node
    is added when [m] is fresh, [m] is marked visited, and the loop either
    returns at the target or relaxes the edges of [m] and removes the head
    of the queue. *)
Lemma Run_body_inv st cid o :
  Run_body st cid = Some o ->
  heap_ok (pq (engine st)) -> items (pq (engine st)) <> [] ->
  exists m s1 cid1,
    at_index (items (pq (engine st))) 0 = Some m /\ 0 <= Value m /\
    (if Z.testbit (visited (engine st)) (Value m)
     then s1 = engine st /\ cid1 = cid
     else addPrevious (engine st) = Some (s1, cid1)) /\
    let s2 := with_visited s1 (Z.setbit (visited s1) (Value m)) in
    ((reachTarget s2 (Value m) = true /\
      o = Return {| graph := graph st; engine := s2 |}) \/
     (reachTarget s2 (Value m) = false /\
      exists es s3 h err,
        at_index (OutgoingEdges (graph st)) (Value m) = Some es /\
        relax_edges (graph st) s2 cid1 es = Some s3 /\
        DeleteMin (pq s3) = Some (h, err) /\
        o = Continue {| graph := graph st;
                        engine := with_queue s3 h (costs s3) |} cid1)).
Proof.
  unfold Run_body. intros H Hok Hne.
  apply bind_Some in H as ([m err] & Hm & H).
  apply Min_inv in Hm as (_ & Hm & _); [|done..].
  apply bind_Some in H as (seen & Hseen & H).
  unfold wasVisited, Exists in Hseen.
  destruct (Z.ltb_spec (Value m) 0); [done|]. simplify_eq.
  apply bind_Some in H as ([s1 cid1] & E1 & H).
  exists m, s1, cid1. split; [done|]. split; [done|]. split.
  { destruct (Z.testbit _ _); cbn in E1; [by simplify_eq|done]. }
  apply bind_Some in H as (vis & Hvis & H).
  unfold Set_ in Hvis. destruct (Z.ltb_spec (Value m) 0); [done|].
  simplify_eq. cbn zeta. fold (with_visited s1 (Z.setbit (visited s1) (Value m))) in *.
  destruct (reachTarget _ _); [left; by simplify_eq|]. right. split; [done|].
  apply bind_Some in H as (es & Hes & H).
  apply bind_Some in H as (s3 & Hs3 & H).
  apply bind_Some in H as ([h err'] & Hh & H). simplify_eq.
  exists es, s3, h, err'. done.
Qed.

(** *** Only reachable nodes get a cost *)

Definition reach_inv (g : Graph) (srcs : list Z) (s : DijkstraSearch) : Prop :=
  heap_ok (pq s) /\
  (forall x, x ∈ items (pq s) -> is_Some (costs s !! Value x)) /\
  (forall v, is_Some (costs s !! v) -> reachable g srcs v).

Lemma Permutation_not_nil {A} (l l' : list A) x : l ≡ₚ x :: l' -> l <> [].
Proof. intros H ->. by apply Permutation_nil_cons in H. Qed.

Lemma Relax_reach g srcs s n cid w d s' :
  reach_inv g srcs s -> items (pq s) <> [] -> reachable g srcs (ID n) ->
  Relax s n cid w d = Some s' ->
  reach_inv g srcs s' /\ items (pq s') <> [].
Proof.
  intros (Hok & Hval & Hreach) Hne Hn H.
  apply Relax_inv in H as (m & Hm & _ & [[-> _]|(_ & _ & h & Hh & ->)]);
    [done| |done..].
  destruct (Insert_ok (pq s) (relax_entry s m n cid w d) Hok)
    as (h' & Hh' & Hok' & Hp).
  rewrite Hh in Hh'. simplify_eq. cbn. split; [|by eapply Permutation_not_nil].
  split; [done|]. cbn. split.
  - intros x. rewrite Hp. intros [->|Hx]%elem_of_cons; cbn.
    + rewrite lookup_insert_eq. eauto.
    + rewrite lookup_insert. case_decide; eauto.
  - intros v. rewrite lookup_insert. case_decide; [by subst|auto].
Qed.

Lemma relax_edges_reach g srcs s cid es s' :
  reach_inv g srcs s -> items (pq s) <> [] ->
  (forall e, e ∈ es -> exists u, reachable g srcs u /\ out_has g u e) ->
  relax_edges g s cid es = Some s' ->
  reach_inv g srcs s' /\ items (pq s') <> [].
Proof.
  revert s. induction es as [|e es IH]; intros s Hinv Hne Hes H;
    cbn [relax_edges] in H.
  - by simplify_eq.
  - apply bind_Some in H as (n & Hn & H).
    apply bind_Some in H as (s1 & Hs1 & H).
    destruct (Hes e) as (u & (src & total & Hsrc & Hpath) & Hout); [left|].
    eapply Relax_reach in Hs1 as [Hinv1 Hne1]; [|done..|].
    + eapply IH; eauto. intros e' He'. apply Hes. by right.
    + exists src, (total + Weight e)%Q. split; [done|].
      eapply path_snoc; [done|]. exists e, n. done.
Qed.

Lemma Run_body_reach g srcs st cid o :
  graph st = g -> reach_inv g srcs (engine st) ->
  isFinished (engine st) = false -> Run_body st cid = Some o ->
  graph (outcome_state o) = g /\ reach_inv g srcs (engine (outcome_state o)).
Proof.
  intros <- Hinv Hfin H.
  pose proof Hinv as (Hok & Hval & Hreach).
  assert (Hne : items (pq (engine st)) <> []).
  { intros E. apply (IsEmpty_items _ Hok) in E. unfold isFinished in Hfin.
    congruence. }
  apply Run_body_inv in H as (m & s1 & cid1 & Hm & Hm0 & Hs1 & H); [|done..].
  assert (Hs1' : pq s1 = pq (engine st) /\ costs s1 = costs (engine st)).
  { destruct (Z.testbit _ _).
    - by destruct Hs1 as [-> _].
    - apply addPrevious_frame in Hs1. tauto. }
  destruct Hs1' as [Hpq1 Hc1].
  assert (Hinv2 : reach_inv (graph st) srcs
            (with_visited s1 (Z.setbit (visited s1) (Value m)))).
  { unfold reach_inv. cbn. by rewrite Hpq1, Hc1. }
  cbn zeta in H. destruct H as [[_ ->]|(_ & es & s3 & h & err & Hes & Hrel & Hdel & ->)].
  { cbn. done. }
  cbn. split; [done|].
  assert (Hmin : m ∈ items (pq (engine st))).
  { apply at_index_Some in Hm as [_ Hm]. by eapply list_elem_of_lookup_2. }
  eapply relax_edges_reach in Hrel as [(Hok3 & Hval3 & Hreach3) Hne3];
    [|done|cbn; by rewrite Hpq1|].
  2:{ intros e He. exists (Value m). split; [by apply Hreach, Hval|].
      exists es. done. }
  destruct (Min_ok (pq s3) Hok3 Hne3) as (m3 & _ & Hm3 & _).
  destruct (DeleteMin_ok (pq s3) m3 Hok3 Hm3) as (h' & Hh' & Hokh & Hp).
  rewrite Hdel in Hh'. simplify_eq. split; [done|]. cbn. split; [|done].
  intros x Hx. apply Hval3. rewrite Hp. by right.
Qed.

(** C7: GetCost returns the stored cost and no error exactly when the id is a
    key of the map, and INFINITE, which is math.MaxFloat32, with the error
    [path not found] otherwise; and when a run of the engine returns, a node
    that no path from a source reaches is not a key of the returned costs, so
    GetCost reports the error for it. *)
Theorem GetCost_found_iff_key :
  INFINITE = inject_Z ((2 ^ 24 - 1) * 2 ^ 104) /\
  (forall (costs : gmap Z Q) (id : Z),
     (forall v, costs !! id = Some v -> GetCost costs id = (v, None)) /\
     (costs !! id = None ->
        GetCost costs id = (INFINITE, Some "path not found")) /\
     (snd (GetCost costs id) = None <-> is_Some (costs !! id))) /\
  (forall (g : Graph) (c : Criteria) (search : DijkstraSearch) (fuel : nat)
          (r : Response) (st' : State) (v : Z),
     NewDijkstra c = Some search ->
     Run_loop fuel {| graph := g; engine := search |} 0 = Some (r, st') ->
     ~ reachable g (Source c) v ->
     Costs r !! v = None /\
     GetCost (Costs r) v = (INFINITE, Some "path not found")).
Proof.
  split; [done|]. split.
  - intros costs id. unfold GetCost. destruct (costs !! id) as [x|]; cbn.
    + split; [by intros ? [= ->]|]. split; [done|]. split; eauto.
    + split; [done|]. split; [done|]. split; [done|]. by intros [? ?].
  - intros g c search fuel r st' v Hnew Hrun Hv.
    rewrite NewDijkstra_add_sources in Hnew.
    apply add_sources_spec in Hnew as (Hok & Hp & Hc & _).
    eapply (Run_loop_invariant
              (fun s => graph s = g /\ reach_inv g (Source c) (engine s)))
      in Hrun as [[_ (_ & _ & Hreach)] ->].
    + assert (Hnone : Costs (response st') !! v = None).
      { destruct (Costs (response st') !! v) eqn:E; [|done].
        exfalso. apply Hv, Hreach. cbn in E. eauto. }
      split; [done|]. unfold GetCost. by rewrite Hnone.
    + intros s cid o [Hg Hinv] Hfin Hbody. by eapply Run_body_reach.
    + split; [done|]. cbn. split; [done|]. split.
      * intros x Hx. rewrite Hp in Hx.
        apply list_elem_of_fmap in Hx as (s & -> & Hs). cbn.
        rewrite Hc. rewrite decide_True by done. eauto.
      * intros u [x Hx]. rewrite Hc in Hx. case_decide; [|done].
        exists u, 0%Q. split; [done|]. constructor.
Qed.

(** *** The head of the queue while the edges are relaxed *)

Lemma heapifyUp_loop_root fuel h i h' x m :
  heapifyUp_loop fuel h i = Some h' ->
  at_index (items h) 0 = Some m -> at_index (items h) i = Some x ->
  (Cost m <= Cost x)%Q ->
  at_index (items h') 0 = Some m.
Proof.
  revert h i. induction fuel as [|fuel IH]; intros h i H Hm Hx Hle; [done|].
  cbn [heapifyUp_loop] in H.
  destruct (hasParent h i); [|by simplify_eq].
  apply bind_Some in H as (p & Hp & H).
  apply bind_Some in H as (x' & Hx' & H). rewrite Hx in Hx'. simplify_eq.
  destruct (fltb (Cost x') (Cost p)) eqn:Hlt; [|by simplify_eq].
  apply fltb_true in Hlt.
  apply bind_Some in H as (h1 & Hswap & H). unfold parent in Hp.
  destruct (swap_Some h i (parentIndex i) x' p Hx Hp)
    as (h1' & Hh1 & _ & _ & _ & Hk).
  rewrite Hswap in Hh1. simplify_eq.
  assert (parentIndex i <> 0).
  { intros E. rewrite E in Hp. rewrite Hm in Hp. simplify_eq.
    apply (Qlt_irrefl (Cost x')). eapply Qlt_le_trans; eauto. }
  assert (i <> 0) by (intros ->; by rewrite parentIndex_0 in *).
  eapply (IH h1' (parentIndex i)); eauto.
  - rewrite Hk. by decide_lia.
  - rewrite Hk. by decide_lia.
Qed.

(** An entry that is not cheaper than the head leaves the head in place. *)
Lemma Insert_root h x h' m :
  heap_ok h -> at_index (items h) 0 = Some m -> (Cost m <= Cost x)%Q ->
  Insert h x = Some h' -> at_index (items h') 0 = Some m.
Proof.
  intros [Hsz _] Hm Hle H. unfold Insert, heapifyUp in H.
  cbn [items size] in H.
  pose proof (at_index_lt _ _ _ Hm).
  eapply (heapifyUp_loop_root _ _ _ _ x m) in H; [done| | |done];
    cbn [items size].
  - rewrite at_index_app_l by lia. done.
  - apply at_index_Some. split; [lia|].
    rewrite lookup_app_r by lia.
    replace (Z.to_nat (size h + 1 - 1) - length (items h))%nat with 0%nat by lia.
    done.
Qed.

Lemma setbit_idem b i : 0 <= i -> Z.testbit b i = true -> Z.setbit b i = b.
Proof.
  intros Hi Hb. apply Z.bits_inj'. intros j Hj.
  rewrite Z.setbit_eqb by done.
  destruct (Z.eqb_spec i j) as [->|]; [by rewrite Hb|done].
Qed.

Lemma setbit_nonneg b i : 0 <= b -> 0 <= i -> 0 <= Z.setbit b i.
Proof.
  intros Hb Hi. unfold Z.setbit. apply Z.lor_nonneg. split; [done|].
  apply Z.shiftl_nonneg. lia.
Qed.

(** *** Graphs built with AddNode and RelateNodes *)

(** What the engine needs of a graph: aligned collections, and every edge
    leads to a node whose [ID] is the id the edge names. *)
Definition wf (g : Graph) : Prop :=
  aligned g /\
  forall u e, out_has g u e ->
    valid_id g (eID e) /\
    exists n, at_index (Nodes g) (eID e) = Some n /\ ID n = eID e.

Lemma int32_range x : in_int32 (int32 x).
Proof.
  unfold in_int32, int32.
  pose proof (Z.mod_pos_bound (x + 2 ^ 31) (2 ^ 32)). lia.
Qed.

Lemma int32_id x : in_int32 x -> int32 x = x.
Proof.
  unfold in_int32, int32. intros. rewrite Z.mod_small; lia.
Qed.

Lemma Built_wf g : Built g -> wf g.
Proof.
  intros HB.
  assert (aligned g /\
          (forall i n, Nodes g !! i = Some n -> ID n = int32 (Z.of_nat i)) /\
          (forall u e, out_has g u e -> valid_id g (eID e))) as (Hal & Hid & He).
  { induction HB as [|g n HB IH|g a b w dir m g' HB IH Ha Hb HR].
    - split; [done|]. split.
      + intros i n H. cbn in H. by rewrite lookup_nil in H.
      + intros u e (es & [_ Hes]%at_index_Some & _). cbn in Hes.
        by rewrite lookup_nil in Hes.
    - destruct IH as ((AO & AI) & Hid & He). split; [|split].
      + unfold aligned. cbn. rewrite !length_app. cbn. lia.
      + intros i n'. cbn. intros [H|[Hi H]]%lookup_app_Some; [eauto|].
        apply list_lookup_singleton_Some in H as [Hi' <-]. cbn.
        f_equal. lia.
      + intros u e (es & Hes & Hin). cbn in Hes.
        assert (out_has g u e) as Hout.
        { apply at_index_Some in Hes as [Hu Hes].
          apply lookup_app_Some in Hes as [Hes|[Hge Hes]].
          - exists es. split; [|done]. by apply at_index_Some.
          - apply list_lookup_singleton_Some in Hes as [_ <-].
            by apply elem_of_nil in Hin. }
        destruct (He u e Hout) as [Hn Hi]. split; [|done].
        unfold has_node in *. cbn. rewrite length_app. cbn. lia.
    - destruct IH as ((AO & AI) & Hid & He).
      pose proof (RelateNodes_adds _ _ _ _ _ _ _ HR)
        as (HN & HLO & HLI & Ho & Hi).
      split; [|split].
      + unfold aligned. rewrite HN. lia.
      + rewrite HN. done.
      + intros u e [Hold|(t & Ht & ->)]%Ho.
        * destruct (He u e Hold) as [Hn Hr]. split; [|done].
          unfold has_node. by rewrite HN.
        * cbn.
          assert (in_has g' t (mkEdge u w m)) as (ins & Hins & _).
          { apply Hi. right. exists u. done. }
          apply at_index_lt in Hins.
          assert (in_int32 t).
          { destruct dir; cbn in Ht;
              repeat (apply elem_of_cons in Ht as [Ht|Ht]; simplify_eq);
              try done; by apply elem_of_nil in Ht. }
          split; [|done]. unfold has_node. rewrite HN. lia. }
  split; [done|]. intros u e Hout. destruct (He u e Hout) as [Hn Hr].
  split; [done|].
  destruct (at_index_is_Some (Nodes g) (eID e) Hn) as [n Hn'].
  exists n. split; [done|].
  apply at_index_Some in Hn' as [? Hn'].
  rewrite (Hid _ _ Hn'). rewrite Z2Nat.id by done. by apply int32_id.
Qed.

(** *** The invariant of the loop *)

Section Dijkstra.

Variable g : Graph.
Variable srcs : list Z.
Hypothesis g_wf : wf g.
Hypothesis g_nonneg : nonneg_weights g.
Hypothesis srcs_valid : forall s, s ∈ srcs -> valid_id g s.

(** The costs, the queue and the visited set at a point of the loop.
    [pend u e] holds for the edges [e] of a visited node [u] that are still
    to be relaxed: none at the head of the loop. *)
Record inv (pend : Z -> Edge -> Prop) (s : DijkstraSearch) : Prop := {
  inv_heap : heap_ok (pq s);
  inv_entry : forall x, x ∈ items (pq s) ->
    exists c, costs s !! Value x = Some c /\ (c <= Cost x)%Q;
  inv_queued : forall v c, costs s !! v = Some c ->
    Z.testbit (visited s) v = false ->
    exists x, x ∈ items (pq s) /\ Value x = v /\ Cost x = c;
  inv_cost : forall v c, costs s !! v = Some c ->
    (0 <= c)%Q /\ (c < INFINITE)%Q /\ valid_id g v /\
    exists src total, src ∈ srcs /\ path g src v total /\ (total == c)%Q;
  inv_visited : 0 <= visited s /\
    forall v, Z.testbit (visited s) v = true -> is_Some (costs s !! v);
  inv_relaxed : forall u cu e n, Z.testbit (visited s) u = true ->
    costs s !! u = Some cu -> out_has g u e ->
    at_index (Nodes g) (eID e) = Some n ->
    pend u e \/ (est (costs s) (ID n) <= cu + Weight e)%Q;
  inv_mono : forall u cu x, Z.testbit (visited s) u = true ->
    costs s !! u = Some cu -> x ∈ items (pq s) -> (cu <= Cost x)%Q;
  inv_opt : forall u cu src total, Z.testbit (visited s) u = true ->
    costs s !! u = Some cu -> src ∈ srcs -> path g src u total ->
    (cu <= total)%Q;
  inv_src : forall src, src ∈ srcs -> costs s !! src = Some 0%Q
}.

Definition no_pend : Z -> Edge -> Prop := fun _ _ => False.

Lemma arc_nonneg u v w d : arc g u v w d -> (0 <= w)%Q.
Proof. intros (e & n & Hout & _ & _ & <- & _). eauto. Qed.

Lemma est_le_INFINITE pend s v : inv pend s -> (est (costs s) v <= INFINITE)%Q.
Proof.
  intros Hinv. destruct (costs s !! v) as [c|] eqn:E.
  - rewrite (est_Some _ _ _ E). apply Qlt_le_weak.
    by destruct (inv_cost _ _ Hinv v c E) as (_ & ? & _).
  - rewrite (est_None _ _ E). apply Qle_refl.
Qed.

Lemma root_in (h : Heap) m : at_index (items h) 0 = Some m -> m ∈ items h.
Proof. intros [_ H]%at_index_Some. by eapply list_elem_of_lookup_2. Qed.

Lemma root_min (h : Heap) m x :
  heap_ok h -> at_index (items h) 0 = Some m -> x ∈ items h ->
  (Cost m <= Cost x)%Q.
Proof. intros [_ Hord] Hm Hx. eapply heap_ordered_root; eauto. Qed.

(** The head of the queue, when its node is not visited, carries the cost of
    that node. *)
Lemma fresh_cost pend s m :
  inv pend s -> at_index (items (pq s)) 0 = Some m ->
  Z.testbit (visited s) (Value m) = false ->
  exists c, costs s !! Value m = Some c /\ (Cost m == c)%Q.
Proof.
  intros Hinv Hm Hvis.
  destruct (inv_entry _ _ Hinv m (root_in _ _ Hm)) as (c & Hc & Hle).
  exists c. split; [done|].
  destruct (inv_queued _ _ Hinv _ _ Hc Hvis) as (x & Hx & _ & Hxc).
  pose proof (root_min _ _ _ (inv_heap _ _ Hinv) Hm Hx) as Hmin.
  rewrite Hxc in Hmin. by apply Qle_antisym.
Qed.

(** No path from a source is cheaper than the head of the queue, unless it
    ends in a visited node that already has a cost at most that of the
    path. *)
Lemma path_bound s m src v total :
  inv no_pend s -> at_index (items (pq s)) 0 = Some m ->
  Z.testbit (visited s) (Value m) = false ->
  src ∈ srcs -> path g src v total ->
  (Z.testbit (visited s) v = true /\
   exists cv, costs s !! v = Some cv /\ (cv <= total)%Q) \/
  (Cost m <= total)%Q.
Proof.
  intros Hinv Hm Hfresh Hsrc Hpath.
  destruct (fresh_cost _ _ _ Hinv Hm Hfresh) as (cm & Hcm & Hcmq).
  destruct (inv_cost _ _ Hinv _ _ Hcm) as (_ & HcmI & _).
  pose proof (inv_heap _ _ Hinv) as Hok.
  induction Hpath as [u|u v x total w d Hpath IH Harc].
  - pose proof (inv_src _ _ Hinv u Hsrc) as Hu.
    destruct (Z.testbit (visited s) u) eqn:Hvis.
    + left. split; [done|]. exists 0%Q. split; [done|]. apply Qle_refl.
    + right. destruct (inv_queued _ _ Hinv _ _ Hu Hvis) as (y & Hy & _ & Hyc).
      rewrite <- Hyc. by eapply root_min.
  - pose proof (arc_nonneg _ _ _ _ Harc) as Hw.
    destruct (IH Hsrc) as [(Hvis & cv & Hcv & Hle)|Hle]; [|right; Lqa.lra].
    destruct Harc as (e & n & Hout & Hn & <- & <- & _).
    destruct (inv_relaxed _ _ Hinv v cv e n Hvis Hcv Hout Hn) as [[]|Hrel].
    destruct (costs s !! ID n) as [cx|] eqn:Hcx.
    + rewrite (est_Some _ _ _ Hcx) in Hrel.
      destruct (Z.testbit (visited s) (ID n)) eqn:Hvx.
      * left. split; [done|]. exists cx. split; [done|]. Lqa.lra.
      * right. destruct (inv_queued _ _ Hinv _ _ Hcx Hvx) as (y & Hy & _ & Hyc).
        pose proof (root_min _ _ _ Hok Hm Hy). rewrite Hyc in *. Lqa.lra.
    + rewrite (est_None _ _ Hcx) in Hrel. right. Lqa.lra.
Qed.

Lemma fresh_optimal s m src total :
  inv no_pend s -> at_index (items (pq s)) 0 = Some m ->
  Z.testbit (visited s) (Value m) = false ->
  src ∈ srcs -> path g src (Value m) total -> (Cost m <= total)%Q.
Proof.
  intros Hinv Hm Hfresh Hsrc Hpath.
  destruct (path_bound s m src _ total Hinv Hm Hfresh Hsrc Hpath)
    as [(Hvis & _)|]; [congruence|done].
Qed.

(** The invariant holds when NewDijkstra returns. *)
Lemma inv_init t search :
  add_sources t srcs = Some search -> inv no_pend search.
Proof.
  intros (Hok & Hp & Hc & Hv & _)%add_sources_spec.
  assert (Hdom : forall v c, costs search !! v = Some c -> v ∈ srcs /\ c = 0%Q).
  { intros v c. rewrite Hc. case_decide; [|done]. by intros [= <-]. }
  split; try done.
  - intros x Hx. rewrite Hp in Hx.
    apply list_elem_of_fmap in Hx as (s & -> & Hs). cbn.
    exists 0%Q. rewrite Hc, decide_True by done. split; [done|apply Qle_refl].
  - intros v c Hvc _. destruct (Hdom _ _ Hvc) as [Hs ->].
    exists (source_entry v). rewrite Hp. split; [|done].
    apply list_elem_of_fmap. eauto.
  - intros v c Hvc. destruct (Hdom _ _ Hvc) as [Hs ->].
    split; [apply Qle_refl|]. split; [done|]. split; [auto|].
    exists v, 0%Q. split; [done|]. split; [constructor|reflexivity].
  - rewrite Hv. split; [done|]. intros v. by rewrite Z.bits_0.
  - intros u cu e n. by rewrite Hv, Z.bits_0.
  - intros u cu x. by rewrite Hv, Z.bits_0.
  - intros u cu src total. by rewrite Hv, Z.bits_0.
  - intros src Hs. by rewrite Hc, decide_True.
Qed.

Lemma inv_pend pend pend' s :
  inv pend s ->
  (forall u cu e n, Z.testbit (visited s) u = true ->
     costs s !! u = Some cu -> out_has g u e ->
     at_index (Nodes g) (eID e) = Some n -> pend u e ->
     pend' u e \/ (est (costs s) (ID n) <= cu + Weight e)%Q) ->
  inv pend' s.
Proof.
  intros [] Hp. split; try done.
  intros u cu e n Hu Hcu He Hn.
  destruct (inv_relaxed0 u cu e n Hu Hcu He Hn); eauto.
Qed.

(** Relaxing the edges of a node visited earlier changes nothing. *)
Lemma relax_edges_stale s m cid es s' :
  inv no_pend s -> at_index (items (pq s)) 0 = Some m ->
  Z.testbit (visited s) (Value m) = true ->
  (forall e, e ∈ es -> out_has g (Value m) e) ->
  relax_edges g s cid es = Some s' -> s' = s.
Proof.
  intros Hinv Hm Hvis. induction es as [|e es IH]; intros Hes H;
    cbn [relax_edges] in H; [by simplify_eq|].
  apply bind_Some in H as (n & Hn & H).
  apply bind_Some in H as (s1 & Hs1 & H).
  assert (s1 = s) as ->; [|apply IH; [intros; apply Hes; by right|done]].
  apply Relax_inv in Hs1 as (m' & Hm' & _ & [[-> _]|(Hv & Hlt & _)]);
    [done| |apply (inv_heap _ _ Hinv)|].
  - assert (m' = m) as -> by congruence.
    destruct (proj2 (inv_visited _ _ Hinv) _ Hvis) as [cu Hcu].
    rewrite Hcu in Hlt. cbn in Hlt.
    destruct (inv_relaxed _ _ Hinv (Value m) cu e n Hvis Hcu) as [[]|Hle];
      [apply Hes; left|done|]. Lqa.lra.
  - intros E. rewrite E in Hm. by apply at_index_Some in Hm as [_ ?].
Qed.

(** The edges of [u] that are still to be relaxed. *)
Definition pend_of (u : Z) (es : list Edge) : Z -> Edge -> Prop :=
  fun u' e => u' = u /\ e ∈ es.

(** Relaxing one edge of the node [u] just taken from the queue. *)
Lemma Relax_fresh s m u cu e es n cid s' :
  inv (pend_of u (e :: es)) s ->
  at_index (items (pq s)) 0 = Some m -> Value m = u ->
  costs s !! u = Some cu -> (Cost m == cu)%Q ->
  Z.testbit (visited s) u = true ->
  out_has g u e -> at_index (Nodes g) (eID e) = Some n ->
  Relax s n cid (Weight e) (Distance (Metadata e)) = Some s' ->
  inv (pend_of u es) s' /\
  at_index (items (pq s')) 0 = Some m /\
  visited s' = visited s /\ previous s' = previous s /\
  (forall v, Z.testbit (visited s) v = true -> costs s' !! v = costs s !! v) /\
  (forall x, x ∈ items (pq s) -> x ∈ items (pq s')) /\
  (forall x, x ∈ items (pq s') -> x ∈ items (pq s) \/
     (x = relax_entry s m n cid (Weight e) (Distance (Metadata e)) /\
      (ID n ∉ srcs) /\ Z.testbit (visited s) (ID n) = false)) /\
  (length (items (pq s')) <= S (length (items (pq s))))%nat.
Proof.
  intros Hinv Hm Hmu Hcu Hmc Hvu Hout Hn H.
  pose proof (inv_heap _ _ Hinv) as Hok.
  pose proof (g_nonneg _ _ Hout) as Hw.
  destruct (proj2 g_wf _ _ Hout) as (Hvalid & n' & Hn' & Hid).
  assert (n' = n) as -> by congruence. clear Hn'.
  apply Relax_inv in H as (m' & Hm' & _ & Hcases); [|done|].
  2:{ intros E. rewrite E in Hm. by apply at_index_Some in Hm as [_ ?]. }
  assert (m' = m) as -> by congruence. clear Hm'.
  subst u. rewrite Hcu in Hcases. cbn in Hcases.
  destruct Hcases as [[-> Hrel]|(Hvis & Hlt & h & Hh & ->)].
  - (* nothing is written *)
    split; [|repeat split; auto].
    eapply inv_pend; [done|].
    intros u' cu' e' n'' Hu' Hcu' He' Hn'' [-> [->|He'']%elem_of_cons].
    + right. rewrite Hn in Hn''. simplify_eq.
      destruct Hrel as [Hvn|Hle]; [|done].
      destruct (proj2 (inv_visited _ _ Hinv) _ Hvn) as [cv Hcv].
      rewrite (est_Some _ _ _ Hcv).
      pose proof (inv_mono _ _ Hinv _ _ m Hvn Hcv (root_in _ _ Hm)).
      Lqa.lra.
    + left. done.
  - (* a cheaper cost is written and an entry is inserted *)
    set (v := ID n) in *. set (c := (cu + Weight e)%Q) in *.
    set (x := relax_entry s m n cid (Weight e) (Distance (Metadata e))) in *.
    assert (Hxc : Cost x = c) by (unfold x, relax_entry; cbn; by rewrite Hcu).
    assert (Hxv : Value x = v) by done.
    assert (Hvv : valid_id g v) by (subst v; by rewrite Hid).
    destruct (Insert_ok (pq s) x Hok) as (h' & Hh' & Hokh & Hp).
    assert (h' = h) as -> by congruence. clear Hh'.
    destruct (inv_cost _ _ Hinv _ _ Hcu)
      as (Hcu0 & HcuI & _ & src & total & Hsrc & Hpath & Htot).
    pose proof (est_le_INFINITE _ _ v Hinv) as HestI.
    assert (Hvu' : v <> Value m) by (intros E; rewrite E in Hvis; congruence).
    assert (Hnotsrc : v ∉ srcs).
    { intros Hs. rewrite (est_Some _ _ _ (inv_src _ _ Hinv _ Hs)) in Hlt.
      (try unfold c in *; Lqa.lra). }
    assert (Hkeep : forall v', Z.testbit (visited s) v' = true ->
              <[v:=c]> (costs s) !! v' = costs s !! v').
    { intros v' Hv'. apply lookup_insert_ne. intros ->. congruence. }
    assert (Hest : forall v', (est (<[v:=c]> (costs s)) v' <= est (costs s) v')%Q).
    { intros v'. destruct (decide (v' = v)) as [->|Hne].
      - rewrite (est_Some _ v c) by apply lookup_insert_eq. (try unfold c in *; Lqa.lra).
      - unfold est, GetCost. rewrite lookup_insert_ne by done. apply Qle_refl. }
    split; [|split; [|split; [done|split; [done|split; [done|split; [|split]]]]]].
    + split; cbn.
      * done.
      * intros y. rewrite Hp. intros [->|Hy]%elem_of_cons.
        -- exists c. rewrite Hxv, lookup_insert_eq. split; [done|].
           rewrite Hxc. apply Qle_refl.
        -- destruct (inv_entry _ _ Hinv y Hy) as (cy & Hcy & Hle).
           destruct (decide (Value y = v)) as [E|Hne].
           ++ exists c. rewrite E, lookup_insert_eq. split; [done|].
              rewrite E in Hcy. rewrite (est_Some _ _ _ Hcy) in Hlt. (try unfold c in *; Lqa.lra).
           ++ exists cy. by rewrite lookup_insert_ne.
      * intros v' c' Hc' Hv'. destruct (decide (v' = v)) as [->|Hne].
        -- rewrite lookup_insert_eq in Hc'. simplify_eq.
           exists x. rewrite Hp. split; [left|done].
        -- rewrite lookup_insert_ne in Hc' by done.
           destruct (inv_queued _ _ Hinv _ _ Hc' Hv') as (y & Hy & Hyv & Hyc).
           exists y. rewrite Hp. split; [by right|done].
      * intros v' c' Hc'. destruct (decide (v' = v)) as [->|Hne].
        -- rewrite lookup_insert_eq in Hc'. simplify_eq.
           split; [(try unfold c in *; Lqa.lra)|]. split; [(try unfold c in *; Lqa.lra)|]. split; [done|].
           exists src, (total + Weight e)%Q. split; [done|]. split.
           ++ eapply path_snoc; [done|]. exists e, n. done.
           ++ try unfold c. by rewrite Htot.
        -- rewrite lookup_insert_ne in Hc' by done. eapply inv_cost; eauto.
      * destruct (inv_visited _ _ Hinv) as [Hv0 Hv1]. split; [done|].
        intros v' Hv'. rewrite Hkeep by done. auto.
      * intros u' cu' e' n'' Hu' Hcu' He' Hn''. rewrite Hkeep in Hcu' by done.
        destruct (inv_relaxed _ _ Hinv u' cu' e' n'' Hu' Hcu' He' Hn'')
          as [[-> [->|He'']%elem_of_cons]|Hle].
        -- right. assert (n'' = n) as -> by congruence.
           assert (cu' = cu) as -> by congruence.
           rewrite (est_Some _ (ID n) c) by apply lookup_insert_eq.
           apply Qle_refl.
        -- left. done.
        -- right. eapply Qle_trans; [apply Hest|done].
      * intros u' cu' y Hu' Hcu'. rewrite Hkeep in Hcu' by done.
        rewrite Hp. intros [->|Hy]%elem_of_cons.
        -- rewrite Hxc.
           pose proof (inv_mono _ _ Hinv _ _ m Hu' Hcu' (root_in _ _ Hm)).
           (try unfold c in *; Lqa.lra).
        -- eapply inv_mono; eauto.
      * intros u' cu' src' total' Hu' Hcu'. rewrite Hkeep in Hcu' by done.
        eapply inv_opt; eauto.
      * intros src' Hs'. rewrite lookup_insert_ne; [by eapply inv_src|].
        intros ->. done.
    + apply (Insert_root (pq s) x h m); [done|done| |done].
      rewrite Hxc. (try unfold c in *; Lqa.lra).
    + cbn. intros y Hy. rewrite Hp. by right.
    + cbn. intros y. rewrite Hp. intros [->|Hy]%elem_of_cons; auto.
    + cbn. apply Permutation_length in Hp. cbn in Hp. lia.
Qed.

Lemma Relax_is_Some s n cid w d :
  heap_ok (pq s) -> items (pq s) <> [] -> 0 <= ID n ->
  is_Some (Relax s n cid w d).
Proof.
  intros Hok Hne Hn. unfold Relax.
  destruct (Min_ok _ Hok Hne) as (m & -> & _). cbn.
  unfold wasVisited, Exists. destruct (Z.ltb_spec (ID n) 0); [lia|]. cbn.
  destruct (negb _); [|eauto].
  destruct (GetCost _ _) as [edgeC err]. destruct (fltb _ _); [|eauto].
  match goal with |- context [Insert (pq s) ?x] =>
    destruct (Insert_ok (pq s) x Hok) as (h & -> & _) end.
  cbn. eauto.
Qed.

Lemma out_edge_node u e :
  out_has g u e ->
  exists n, at_index (Nodes g) (eID e) = Some n /\ ID n = eID e /\
    valid_id g (ID n).
Proof.
  intros Hout. destruct (proj2 g_wf _ _ Hout) as (Hvalid & n & Hn & Hid).
  exists n. by rewrite Hid.
Qed.

Lemma root_not_nil (h : Heap) m : at_index (items h) 0 = Some m -> items h <> [].
Proof. intros Hm E. rewrite E in Hm. by apply at_index_Some in Hm as [_ ?]. Qed.

Lemma relax_edges_stale_Some s m cid es :
  inv no_pend s -> at_index (items (pq s)) 0 = Some m ->
  Z.testbit (visited s) (Value m) = true ->
  (forall e, e ∈ es -> out_has g (Value m) e) ->
  relax_edges g s cid es = Some s.
Proof.
  intros Hinv Hm Hvis. induction es as [|e es IH]; intros Hes; [done|].
  cbn [relax_edges].
  destruct (out_edge_node (Value m) e) as (n & Hn & _ & [[Hn0 _] _]);
    [apply Hes; left|].
  rewrite Hn. cbn.
  destruct (Relax_is_Some s n cid (Weight e) (Distance (Metadata e)))
    as [s1 Hs1]; [apply (inv_heap _ _ Hinv)|by eapply root_not_nil|done|].
  rewrite Hs1. cbn.
  assert (s1 = s) as ->.
  { eapply (relax_edges_stale s m cid [e]); eauto.
    - intros e' ->%list_elem_of_singleton. apply Hes. left.
    - cbn. rewrite Hn. cbn. by rewrite Hs1. }
  apply IH. intros e' He'. apply Hes. by right.
Qed.

(** An entry inserted while the edges [es] of [u] are relaxed. *)
Definition new_entry (s : DijkstraSearch) (u : Z) (cu : Q) (cid : Z)
    (es : list Edge) (x : HNode) : Prop :=
  exists e n, e ∈ es /\ at_index (Nodes g) (eID e) = Some n /\
    Value x = ID n /\ Previous x = cid /\
    Cost x = (cu + Weight e)%Q /\ Dist x = (cu + Distance (Metadata e))%Q /\
    (ID n ∉ srcs) /\ Z.testbit (visited s) (ID n) = false.

(** Relaxing all the edges of the node [u] just taken from the queue. *)
Lemma relax_edges_fresh m u cu cid es s :
  inv (pend_of u es) s ->
  at_index (items (pq s)) 0 = Some m -> Value m = u ->
  costs s !! u = Some cu -> (Cost m == cu)%Q ->
  Z.testbit (visited s) u = true ->
  (forall e, e ∈ es -> out_has g u e) ->
  exists s', relax_edges g s cid es = Some s' /\
    inv no_pend s' /\
    at_index (items (pq s')) 0 = Some m /\
    visited s' = visited s /\ previous s' = previous s /\
    (forall v, Z.testbit (visited s) v = true -> costs s' !! v = costs s !! v) /\
    (forall x, x ∈ items (pq s) -> x ∈ items (pq s')) /\
    (forall x, x ∈ items (pq s') ->
       x ∈ items (pq s) \/ new_entry s u cu cid es x) /\
    (length (items (pq s')) <= length (items (pq s)) + length es)%nat.
Proof.
  revert s. induction es as [|e es IH];
    intros s Hinv Hm Hmu Hcu Hmc Hvu Hes.
  { exists s. split; [done|]. split.
    - eapply inv_pend; [done|]. intros ? ? ? ? _ _ _ _ [_ []%elem_of_nil].
    - repeat split; auto. cbn. lia. }
  cbn [relax_edges].
  assert (Hout : out_has g u e) by (apply Hes; left).
  destruct (out_edge_node u e Hout) as (n & Hn & _ & [[Hn0 _] _]).
  rewrite Hn. cbn.
  destruct (Relax_is_Some s n cid (Weight e) (Distance (Metadata e)))
    as [s1 Hs1]; [apply (inv_heap _ _ Hinv)|by eapply root_not_nil|done|].
  rewrite Hs1. cbn.
  destruct (Relax_fresh s m u cu e es n cid s1)
    as (Hinv1 & Hm1 & Hv1 & Hp1 & Hk1 & Hsub1 & Hnew1 & Hlen1); try done.
  destruct (IH s1) as (s' & Hs' & Hinv' & Hm' & Hv' & Hp' & Hk' & Hsub' &
                       Hnew' & Hlen'); try done.
  { by rewrite Hk1. }
  { by rewrite Hv1. }
  { intros e' He'. apply Hes. by right. }
  exists s'. split; [done|]. split; [done|]. split; [done|].
  split; [congruence|]. split; [congruence|]. split.
  { intros v Hv. rewrite Hk' by (by rewrite Hv1). by apply Hk1. }
  split; [auto|]. split; [|cbn; lia].
  intros x [Hx|(e' & n' & He' & Hrest)]%Hnew'.
  - apply Hnew1 in Hx as [Hx|(-> & Hns & Hnv)]; [by left|].
    right. exists e, n. split; [left|]. split; [done|].
    unfold relax_entry. cbn. rewrite Hmu, Hcu. cbn. done.
  - right. exists e', n'. split; [by right|]. by rewrite <- Hv1.
Qed.

(** *** The invariant of the tree *)

(** An edge [p -> eID e] of the tree: its ends are tree nodes, the child
    comes after the predecessor, the weight is the cost of the child, and
    either the child is a source hung below tree node 0 with weight and
    distance 0, or the edge stands for an edge of the graph, and weight and
    distance are the cost of the predecessor plus those of that edge. *)
Definition tree_edge (s : DijkstraSearch) (p : Z) (e : Edge) : Prop :=
  exists np nc cc,
    at_index (Nodes (previous s)) p = Some np /\
    at_index (Nodes (previous s)) (eID e) = Some nc /\
    p < eID e /\
    costs s !! Rank nc = Some cc /\ (cc == Weight e)%Q /\
    ((p = 0 /\ Rank nc ∈ srcs /\ Weight e = 0%Q /\
      Distance (Metadata e) = 0%Q) \/
     (exists cp w d, costs s !! Rank np = Some cp /\
        arc g (Rank np) (Rank nc) w d /\
        (Weight e == cp + w)%Q /\ (Distance (Metadata e) == cp + d)%Q)).

(** An entry of the queue: the entry of a source, or an entry written by
    Relax from the tree node [Previous x]. *)
Definition entry_ok (s : DijkstraSearch) (x : HNode) : Prop :=
  (Value x ∈ srcs /\ Cost x = 0%Q /\ Previous x = 0 /\ Dist x = 0%Q) \/
  ((Value x ∉ srcs) /\
   exists np cp w d,
     at_index (Nodes (previous s)) (Previous x) = Some np /\
     costs s !! Rank np = Some cp /\
     arc g (Rank np) (Value x) w d /\
     (Cost x == cp + w)%Q /\ (Dist x == cp + d)%Q).

Record tinv (s : DijkstraSearch) : Prop := {
  t_aligned : aligned (previous s);
  t_mirror : mirrored (previous s);
  t_nodes : forall j n, Nodes (previous s) !! j = Some n ->
    ID n = Z.of_nat j /\ Z.testbit (visited s) (Rank n) = true;
  t_nodup : NoDup (Rank <$> Nodes (previous s));
  t_edges : forall p e, out_has (previous s) p e -> tree_edge s p e;
  t_entries : forall x, x ∈ items (pq s) -> entry_ok s x;
  t_sources : forall j n, (1 <= j)%nat ->
    Nodes (previous s) !! j = Some n -> Rank n ∈ srcs ->
    out_has (previous s) 0 (mkEdge (Z.of_nat j) 0 MetaData0) /\
    in_has (previous s) (Z.of_nat j) (mkEdge 0 0 MetaData0);
  t_root : forall n, Nodes (previous s) !! 0%nat = Some n -> Rank n ∈ srcs
}.

Lemma tinv_init t search : add_sources t srcs = Some search -> tinv search.
Proof.
  intros (Hok & Hp & Hc & Hv & Hprev & _)%add_sources_spec.
  split; rewrite ?Hprev; cbn; try done.
  - split; intros ? ? (es & [_ H]%at_index_Some & _); cbn in H;
      by rewrite lookup_nil in H.
  - constructor.
  - intros p e (es & [_ H]%at_index_Some & _). cbn in H.
    by rewrite lookup_nil in H.
  - intros x Hx. rewrite Hp in Hx.
    apply list_elem_of_fmap in Hx as (s & -> & Hs). by left.
Qed.

(** The tree never has more nodes than there are [int32] ids. *)
Lemma tree_size s u :
  inv no_pend s -> tinv s -> valid_id g u ->
  Z.testbit (visited s) u = false ->
  Z.of_nat (length (Nodes (previous s))) < 2 ^ 31.
Proof.
  intros Hinv Ht [[Hu0 _] [_ Hu1]] Hvis.
  assert (Hsub : u :: (Rank <$> Nodes (previous s)) ⊆+ seqZ 0 (2 ^ 31)).
  { apply NoDup_submseteq.
    - constructor; [|apply (t_nodup _ Ht)].
      intros (n & -> & [j Hn]%list_elem_of_lookup)%list_elem_of_fmap.
      destruct (t_nodes _ Ht _ _ Hn) as [_ Hv]. congruence.
    - intros x [->|Hx]%elem_of_cons; apply elem_of_seqZ; [lia|].
      apply list_elem_of_fmap in Hx as (n & -> & [j Hn]%list_elem_of_lookup).
      destruct (t_nodes _ Ht _ _ Hn) as [_ Hv].
      destruct (proj2 (inv_visited _ _ Hinv) _ Hv) as [c Hc].
      destruct (inv_cost _ _ Hinv _ _ Hc) as (_ & _ & [[? _] [_ ?]] & _).
      lia. }
  apply submseteq_length in Hsub. rewrite length_seqZ in Hsub. cbn in Hsub.
  rewrite length_fmap in Hsub. lia.
Qed.

Lemma AddNode_out_has T n p e :
  out_has (fst (AddNode T n)) p e <-> out_has T p e.
Proof.
  unfold out_has. cbn. split; intros (es & Hes & He); exists es; split; try done.
  - apply at_index_Some in Hes as [Hp Hes]. apply at_index_Some.
    split; [done|].
    apply lookup_app_Some in Hes as [Hes|[_ Hes]]; [done|].
    apply list_lookup_singleton_Some in Hes as [_ <-]. by apply elem_of_nil in He.
  - apply at_index_Some in Hes as [Hp Hes]. apply at_index_Some.
    split; [done|]. by apply lookup_app_l_Some.
Qed.

Lemma AddNode_in_has T n p e :
  in_has (fst (AddNode T n)) p e <-> in_has T p e.
Proof.
  unfold in_has. cbn. split; intros (es & Hes & He); exists es; split; try done.
  - apply at_index_Some in Hes as [Hp Hes]. apply at_index_Some.
    split; [done|].
    apply lookup_app_Some in Hes as [Hes|[_ Hes]]; [done|].
    apply list_lookup_singleton_Some in Hes as [_ <-]. by apply elem_of_nil in He.
  - apply at_index_Some in Hes as [Hp Hes]. apply at_index_Some.
    split; [done|]. by apply lookup_app_l_Some.
Qed.

Lemma AddNode_mirrored T n : mirrored T -> mirrored (fst (AddNode T n)).
Proof.
  intros [M1 M2]. split; intros a e.
  - rewrite AddNode_out_has, AddNode_in_has. apply M1.
  - rewrite AddNode_out_has, AddNode_in_has. apply M2.
Qed.

Lemma AddNode_aligned T n : aligned T -> aligned (fst (AddNode T n)).
Proof. intros [A1 A2]. unfold aligned. cbn. rewrite !length_app. cbn. lia. Qed.

Lemma entry_ok_previous s x :
  tinv s -> entry_ok s x ->
  0 <= Previous x <= Z.of_nat (length (Nodes (previous s))) /\
  (Previous x = Z.of_nat (length (Nodes (previous s))) ->
   Value x ∈ srcs /\ Previous x = 0).
Proof.
  intros Ht [(Hs & _ & Hp & _)|(_ & np & cp & w & d & Hnp & _)].
  - rewrite Hp. split; [lia|]. done.
  - apply at_index_lt in Hnp. split; lia.
Qed.

Lemma adds_arcs_nil T w m : adds_arcs T T [] w m.
Proof.
  repeat split; try done; try (by left).
  - intros [?|(? & []%elem_of_nil & _)]. done.
  - intros [?|(? & []%elem_of_nil & _)]. done.
Qed.

(** The tree node added for the head [m] of the queue, whose node has not
    been visited, and the edge that hangs it below [Previous m]. *)
Lemma addPrevious_fresh s m :
  inv no_pend s -> tinv s ->
  at_index (items (pq s)) 0 = Some m ->
  Z.testbit (visited s) (Value m) = false ->
  exists s1 cid1 np,
    addPrevious s = Some (s1, cid1) /\
    pq s1 = pq s /\ visited s1 = visited s /\ costs s1 = costs s /\
    sources s1 = sources s /\ target s1 = target s /\
    at_index (Nodes (previous s1)) cid1 = Some np /\ Rank np = Value m /\
    tinv (with_visited s1 (Z.setbit (visited s) (Value m))).
Proof.
  intros Hinv Ht Hm Hfresh.
  pose proof (inv_heap _ _ Hinv) as Hok.
  pose proof (root_in _ _ Hm) as Hmin.
  destruct (fresh_cost _ _ _ Hinv Hm Hfresh) as (cm & Hcm & Hcmq).
  destruct (inv_cost _ _ Hinv _ _ Hcm) as (_ & _ & Hvalid & _).
  pose proof (tree_size s (Value m) Hinv Ht Hvalid Hfresh) as Hsize.
  pose proof (t_entries _ Ht m Hmin) as Hentry.
  destruct (entry_ok_previous s m Ht Hentry) as [Hprev Hprev0].
  set (T := previous s) in *.
  set (n0 := {| ID := 0; Location := 0; Rank := Value m |}).
  set (len := Z.of_nat (length (Nodes T))) in *.
  assert (Hcid : snd (AddNode T n0) = len).
  { unfold AddNode. cbn. apply int32_small. lia. }
  set (T1 := fst (AddNode T n0)).
  set (np := {| ID := len; Location := 0; Rank := Value m |}).
  assert (HN1 : Nodes T1 = Nodes T ++ [np]).
  { unfold T1, AddNode, np. cbn. rewrite int32_small by lia. done. }
  pose proof (AddNode_aligned T n0 (t_aligned _ Ht)) as Hal1. fold T1 in Hal1.
  pose proof (AddNode_mirrored T n0 (t_mirror _ Ht)) as Hmi1. fold T1 in Hmi1.
  set (meta := {| Speed := 0; Distance := Dist m; RoadType := "" |}).
  (* the tree after the call, and the arcs the call adds *)
  assert (exists T2 arcs,
    (if negb (Previous m =? len) then
       RelateNodes T1 {| ID := Previous m; Location := 0; Rank := 0 |}
         {| ID := len; Location := 0; Rank := 0 |} (Cost m) LeftToRight meta
     else Some T1) = Some T2 /\
    adds_arcs T1 T2 arcs (Cost m) meta /\
    (arcs = [(Previous m, len)] /\ Previous m < len \/
     arcs = [] /\ Previous m = len))
    as (T2 & arcs & HT2 & Hadds & Harcs).
  { destruct (Z.eqb_spec (Previous m) len) as [E|Hne]; cbn.
    - exists T1, []. split; [done|]. split; [apply adds_arcs_nil|auto].
    - destruct (RelateNodes_is_Some T1
                  {| ID := Previous m; Location := 0; Rank := 0 |}
                  {| ID := len; Location := 0; Rank := 0 |} (Cost m)
                  LeftToRight meta) as [T2 HT2]; [done| | |].
      + unfold has_node. cbn [ID]. rewrite HN1, length_app. cbn [length].
        unfold len in *. lia.
      + unfold has_node. cbn [ID]. rewrite HN1, length_app. cbn [length].
        unfold len in *. lia.
      + exists T2, [(Previous m, len)]. split; [done|]. split.
        * by apply RelateNodes_adds in HT2.
        * left. split; [done|]. lia. }
  destruct Hadds as (HN2 & HLO & HLI & Ho & Hi).
  assert (HN2' : Nodes T2 = Nodes T ++ [np]) by (by rewrite HN2).
  set (s1 := {| pq := pq s; visited := visited s; previous := T2;
                costs := costs s; sources := sources s; target := target s |}).
  exists s1, len, np.
  split.
  { unfold addPrevious.
    destruct (Min_ok _ Hok (root_not_nil _ _ Hm)) as (m' & -> & Hm' & _).
    assert (m' = m) as -> by congruence. cbn [mbind option_bind].
    fold T n0.
    assert (HA : AddNode T n0 = (T1, len)).
    { rewrite <- Hcid. apply surjective_pairing. }
    rewrite HA. fold meta. rewrite HT2. done. }
  split; [done|]. split; [done|]. split; [done|]. split; [done|].
  split; [done|]. split.
  { cbn. rewrite HN2'. apply at_index_Some. split; [lia|].
    rewrite lookup_app_r by lia.
    replace (Z.to_nat len - length (Nodes T))%nat with 0%nat by lia. done. }
  split; [done|].
  (* the invariant of the tree *)
  assert (Hold : forall p n, at_index (Nodes T) p = Some n ->
            at_index (Nodes T2) p = Some n).
  { intros p n [Hp Hn]%at_index_Some. apply at_index_Some. split; [done|].
    rewrite HN2'. by apply lookup_app_l_Some. }
  assert (Hvalid0 : 0 <= Value m) by (destruct Hvalid as [[? _] _]; done).
  assert (Hvis' : forall v, Z.testbit (visited s) v = true ->
            Z.testbit (Z.setbit (visited s) (Value m)) v = true).
  { intros v Hv. rewrite Z.setbit_eqb by done. rewrite Hv. apply orb_true_r. }
  assert (Hedge_old : forall p e, tree_edge s p e ->
            tree_edge (with_visited s1 (Z.setbit (visited s) (Value m))) p e).
  { intros p e (np' & nc & cc & Hnp & Hnc & Hlt & Hcc & Hw & Hcase).
    exists np', nc, cc. cbn. repeat split; auto. }
  split; cbn.
  - unfold aligned. rewrite HN2, HLO, HLI. apply Hal1.
  - eapply adds_arcs_mirrored; [|exact Hmi1].
    exact (conj HN2 (conj HLO (conj HLI (conj Ho Hi)))).
  - intros j n. rewrite HN2'. intros [Hn|[Hj Hn]]%lookup_app_Some.
    + destruct (t_nodes _ Ht _ _ Hn) as [? ?]. auto.
    + apply list_lookup_singleton_Some in Hn as [Hj' <-]. cbn. split.
      * unfold len. lia.
      * rewrite Z.setbit_eqb by done. by rewrite Z.eqb_refl.
  - rewrite HN2', fmap_app. cbn. apply NoDup_app. split; [apply (t_nodup _ Ht)|].
    split; [|apply NoDup_singleton].
    intros r Hr ->%list_elem_of_singleton.
    apply list_elem_of_fmap in Hr as (n & Hr & [j Hn]%list_elem_of_lookup).
    destruct (t_nodes _ Ht _ _ Hn) as [_ Hv]. rewrite <- Hr in Hv. congruence.
  - intros p e [Hpe|(t & Ht' & ->)]%Ho.
    + apply Hedge_old. apply (t_edges _ Ht). by apply AddNode_out_has in Hpe.
    + destruct Harcs as [[-> Hlt]|[-> _]]; [|by apply elem_of_nil in Ht'].
      apply list_elem_of_singleton in Ht'.
      assert (t = len) as -> by congruence.
      assert (p = Previous m) as -> by congruence. clear Ht'.
      destruct (at_index_is_Some (Nodes T) (Previous m)) as [npp Hnpp];
        [fold len; lia|].
      exists npp, np, cm. cbn.
      split; [by apply Hold|]. split.
      { rewrite HN2'. apply at_index_Some. split; [lia|].
        rewrite lookup_app_r by lia.
        replace (Z.to_nat len - length (Nodes T))%nat with 0%nat by lia. done. }
      split; [done|]. split; [done|]. split; [by symmetry|].
      destruct Hentry as [(Hs & Hc0 & Hp0 & Hd0)|
                          (Hns & np' & cp & w & d & Hnp' & Hcp & Harc & Hc & Hd)].
      * left. done.
      * right. change (previous s) with T in Hnp'.
        assert (np' = npp) as -> by congruence.
        exists cp, w, d. done.
  - intros x Hx. destruct (t_entries _ Ht x Hx) as [?|(Hns & np' & cp & w & d & Hnp' & Hrest)].
    + by left.
    + right. split; [done|]. exists np', cp, w, d. split; [by apply Hold|done].
  - intros j n Hj. rewrite HN2'. intros [Hn|[Hj' Hn]]%lookup_app_Some Hsrc.
    + destruct (t_sources _ Ht j n Hj Hn Hsrc) as [Hout Hin].
      split; [apply Ho|apply Hi]; left.
      * by apply AddNode_out_has.
      * by apply AddNode_in_has.
    + apply list_lookup_singleton_Some in Hn as [Hj'' <-]. cbn in Hsrc.
      assert (Z.of_nat j = len) as -> by (unfold len; lia).
      destruct Hentry as [(Hs & Hc0 & Hp0 & Hd0)|(Hns & _)]; [|done].
      destruct Harcs as [[-> Hlt]|[_ Hpl]]; [|unfold len in *; lia].
      assert (Hmeta : mkEdge len (Cost m) meta = mkEdge len 0 MetaData0).
      { unfold meta, MetaData0. by rewrite Hc0, Hd0. }
      assert (Hmeta' : mkEdge 0 (Cost m) meta = mkEdge 0 0 MetaData0).
      { unfold meta, MetaData0. by rewrite Hc0, Hd0. }
      rewrite Hp0 in Ho, Hi.
      split; [apply Ho|apply Hi]; right.
      * exists len. split; [left|done].
      * exists 0. split; [left|done].
  - intros n. rewrite HN2'. intros [Hn|[Hj Hn]]%lookup_app_Some.
    + by apply (t_root _ Ht).
    + apply list_lookup_singleton_Some in Hn as [_ <-]. cbn.
      destruct Hentry as [(Hs & _)|(_ & np' & cp & w & d & Hnp' & _)]; [done|].
      apply at_index_lt in Hnp'. change (previous s) with T in Hnp'.
      cbn in Hj. lia.
Qed.

(** The tree invariant after the queue and the costs of nodes not yet
    visited have changed. *)
Lemma tinv_transfer s s' :
  tinv s -> previous s' = previous s -> visited s' = visited s ->
  (forall v, Z.testbit (visited s) v = true -> costs s' !! v = costs s !! v) ->
  (forall x, x ∈ items (pq s') -> x ∈ items (pq s) \/ entry_ok s' x) ->
  tinv s'.
Proof.
  intros Ht Hp Hv Hc Hx.
  assert (Hrank : forall p n, at_index (Nodes (previous s)) p = Some n ->
            costs s' !! Rank n = costs s !! Rank n).
  { intros p n [_ Hn]%at_index_Some. apply Hc.
    by destruct (t_nodes _ Ht _ _ Hn). }
  split; rewrite ?Hp, ?Hv; try apply Ht.
  - intros p e (np & nc & cc & Hnp & Hnc & Hlt & Hcc & Hw & Hcase)%(t_edges _ Ht).
    exists np, nc, cc. rewrite Hp. rewrite (Hrank _ _ Hnc).
    repeat split; try done.
    destruct Hcase as [?|(cp & w & d & Hcp & Hrest)]; [by left|right].
    exists cp, w, d. by rewrite (Hrank _ _ Hnp).
  - intros x [Hx'|Hx']%Hx; [|done].
    destruct (t_entries _ Ht x Hx') as [?|(Hns & np & cp & w & d & Hnp & Hcp & Hrest)];
      [by left|right].
    split; [done|]. exists np, cp, w, d. rewrite Hp.
    by rewrite (Hrank _ _ Hnp).
Qed.

(** Removing the head of the queue once its node is visited. *)
Lemma delete_head s m :
  inv no_pend s -> tinv s -> at_index (items (pq s)) 0 = Some m ->
  Z.testbit (visited s) (Value m) = true ->
  exists h, DeleteMin (pq s) = Some (h, None) /\
    inv no_pend (with_queue s h (costs s)) /\
    tinv (with_queue s h (costs s)) /\
    S (length (items h)) = length (items (pq s)).
Proof.
  intros Hinv Ht Hm Hvis.
  destruct (DeleteMin_ok (pq s) m (inv_heap _ _ Hinv) Hm) as (h & Hh & Hokh & Hp).
  exists h. split; [done|].
  assert (Hsub : forall x, x ∈ items h -> x ∈ items (pq s)).
  { intros x Hx. rewrite Hp. by right. }
  split; [|split].
  - destruct Hinv. split; cbn; eauto.
    intros v c Hc Hv. destruct (inv_queued0 v c Hc Hv) as (x & Hx & Hxv & Hxc).
    exists x. split; [|done]. rewrite Hp in Hx.
    apply elem_of_cons in Hx as [->|Hx]; [congruence|done].
  - eapply tinv_transfer; eauto.
  - apply Permutation_length in Hp. cbn in Hp. lia.
Qed.

(** *** Termination *)

(** The edges of the nodes not yet visited, counted from index [k]. *)
Fixpoint pending_from (vis : Z) (k : Z) (outs : list (list Edge)) : nat :=
  match outs with
  | [] => 0
  | es :: outs =>
      (if Z.testbit vis k then 0 else length es) + pending_from vis (k + 1) outs
  end.

Definition measure (s : DijkstraSearch) : nat :=
  length (items (pq s)) + pending_from (visited s) 0 (OutgoingEdges g).

Lemma pending_setbit_below vis u k outs :
  0 <= u < k ->
  pending_from (Z.setbit vis u) k outs = pending_from vis k outs.
Proof.
  revert k. induction outs as [|es outs IH]; intros k Hk; [done|].
  cbn. rewrite IH by lia. rewrite Z.setbit_neq by lia. done.
Qed.

Lemma pending_setbit vis u k outs es :
  0 <= k <= u -> outs !! Z.to_nat (u - k) = Some es ->
  Z.testbit vis u = false ->
  (pending_from (Z.setbit vis u) k outs + length es)%nat =
  pending_from vis k outs.
Proof.
  revert k. induction outs as [|es0 outs IH]; intros k Hk Hes Hvis; [done|].
  cbn. destruct (decide (u = k)) as [->|Hne].
  - rewrite Z.sub_diag in Hes. change (Z.to_nat 0) with 0%nat in Hes.
    cbn in Hes. assert (es0 = es) as -> by congruence.
    rewrite Z.setbit_eq by lia. rewrite Hvis.
    rewrite pending_setbit_below by lia. cbn. lia.
  - rewrite Z.setbit_neq by lia.
    replace (Z.to_nat (u - k)) with (S (Z.to_nat (u - (k + 1)))) in Hes by lia.
    cbn in Hes. rewrite <- (IH (k + 1)) by (done || lia). lia.
Qed.

Lemma pending_le vis k outs :
  (pending_from vis k outs <= sum_list (length <$> outs))%nat.
Proof.
  revert k. induction outs as [|es outs IH]; intros k; cbn; [lia|].
  specialize (IH (k + 1)). destruct (Z.testbit vis k); lia.
Qed.

(** *** One iteration *)

Lemma with_visited_same s : with_visited s (visited s) = s.
Proof. by destruct s. Qed.

(** What holds of the outcome of an iteration: the loop goes on with a
    smaller measure, or returns with the target visited. *)
Definition body_post (s : DijkstraSearch) (o : Outcome) : Prop :=
  graph (outcome_state o) = g /\
  tinv (engine (outcome_state o)) /\
  target (engine (outcome_state o)) = target s /\
  match o with
  | Return st' =>
      (exists pend, inv pend (engine st')) /\
      0 <= target (engine st') /\
      Z.testbit (visited (engine st')) (target (engine st')) = true
  | Continue st' _ =>
      inv no_pend (engine st') /\ (measure (engine st') < measure s)%nat
  end.

Lemma reachTarget_true s v :
  reachTarget s v = true -> 0 <= target s /\ v = target s.
Proof. unfold reachTarget. intros [?%Z.leb_le ?%Z.eqb_eq]%andb_true_iff. done. Qed.

Lemma head_valid s m :
  inv no_pend s -> at_index (items (pq s)) 0 = Some m ->
  valid_id g (Value m) /\
  exists es, at_index (OutgoingEdges g) (Value m) = Some es.
Proof.
  intros Hinv Hm.
  destruct (inv_entry _ _ Hinv m (root_in _ _ Hm)) as (c & Hc & _).
  destruct (inv_cost _ _ Hinv _ _ Hc) as (_ & _ & Hvalid & _).
  split; [done|]. destruct Hvalid as [[H0 H1] _].
  destruct g_wf as [[AO _] _].
  apply (at_index_is_Some (OutgoingEdges g)). lia.
Qed.

Lemma Run_body_stale st cid m :
  graph st = g -> inv no_pend (engine st) -> tinv (engine st) ->
  at_index (items (pq (engine st))) 0 = Some m ->
  Z.testbit (visited (engine st)) (Value m) = true ->
  exists o, Run_body st cid = Some o /\ body_post (engine st) o.
Proof.
  destruct st as [g0 s]. cbn [graph engine]. intros -> Hinv Ht Hm Hvis.
  destruct (head_valid s m Hinv Hm) as ([[Hm0 _] _] & es & Hes).
  destruct (Min_ok _ (inv_heap _ _ Hinv) (root_not_nil _ _ Hm)) as (m' & HMin & Hm' & _).
  assert (m' = m) as -> by congruence. clear Hm'.
  unfold Run_body. cbn [graph engine]. rewrite HMin. cbn [mbind option_bind].
  unfold wasVisited, Exists. destruct (Z.ltb_spec (Value m) 0); [lia|].
  cbn [mbind option_bind]. rewrite Hvis. cbn [negb mbind option_bind].
  unfold Set_. destruct (Z.ltb_spec (Value m) 0); [lia|].
  cbn [mbind option_bind]. rewrite (setbit_idem _ _ Hm0 Hvis).
  change {| pq := pq s; visited := visited s; previous := previous s;
            costs := costs s; sources := sources s; target := target s |}
    with (with_visited s (visited s)).
  rewrite with_visited_same.
  destruct (reachTarget s (Value m)) eqn:Hreach.
  - eexists. split; [done|]. cbn. split; [done|]. split; [done|].
    split; [done|]. apply reachTarget_true in Hreach as [? Heq].
    split; [eauto|]. split; [done|]. cbn. by rewrite <- Heq.
  - rewrite Hes. cbn [mbind option_bind].
    rewrite (relax_edges_stale_Some s m cid es); try done.
    2:{ intros e He. exists es. done. }
    cbn [mbind option_bind].
    destruct (delete_head s m Hinv Ht Hm Hvis) as (h & -> & Hinv' & Ht' & Hlen).
    cbn [mbind option_bind]. eexists. split; [done|].
    split; [done|]. split; [done|]. split; [done|]. split; [done|].
    unfold measure. cbn. lia.
Qed.

Lemma Run_body_fresh st cid m :
  graph st = g -> inv no_pend (engine st) -> tinv (engine st) ->
  at_index (items (pq (engine st))) 0 = Some m ->
  Z.testbit (visited (engine st)) (Value m) = false ->
  exists o, Run_body st cid = Some o /\ body_post (engine st) o.
Proof.
  destruct st as [g0 s]. cbn [graph engine]. intros -> Hinv Ht Hm Hfresh.
  pose proof (inv_heap _ _ Hinv) as Hok.
  destruct (head_valid s m Hinv Hm) as (Hvalid & es & Hes).
  pose proof Hvalid as [[Hm0 _] _].
  destruct (Min_ok _ Hok (root_not_nil _ _ Hm)) as (m' & HMin & Hm' & _).
  assert (m' = m) as -> by congruence. clear Hm'.
  destruct (fresh_cost _ _ _ Hinv Hm Hfresh) as (cm & Hcm & Hcmq).
  destruct (addPrevious_fresh s m Hinv Ht Hm Hfresh)
    as (s1 & cid1 & np & HaddP & Hpq1 & Hv1 & Hc1 & Hsrc1 & Htg1 & Hnp & Hrank & Ht2).
  set (u := Value m) in *.
  set (s2 := with_visited s1 (Z.setbit (visited s) u)) in *.
  assert (Hbit : forall v, Z.testbit (visited s2) v = true ->
            v = u \/ Z.testbit (visited s) v = true).
  { intros v. cbn. rewrite Z.setbit_eqb by done.
    destruct (Z.eqb_spec u v); [auto|]. cbn. auto. }
  assert (Hbitu : Z.testbit (visited s2) u = true).
  { cbn. by apply Z.setbit_eq. }
  (* the invariant once [u] is marked, its edges still to be relaxed *)
  assert (Hinv2 : inv (pend_of u es) s2).
  { destruct Hinv. split; cbn; rewrite ?Hpq1, ?Hc1; try done.
    - intros v c Hc Hv. apply inv_queued0; [done|].
      destruct (Z.testbit (visited s) v) eqn:E; [|done].
      rewrite Z.setbit_eqb, E, orb_true_r in Hv by done. done.
    - split; [apply setbit_nonneg; [apply inv_visited0|done]|].
      intros v [->|Hv]%Hbit; [eauto|]. by apply inv_visited0.
    - intros u' cu e n [->|Hu']%Hbit Hcu He Hn.
      + left. split; [done|]. destruct He as (es' & Hes' & He).
        assert (es' = es) as -> by congruence. done.
      + right. by destruct (inv_relaxed0 u' cu e n Hu' Hcu He Hn).
    - intros u' cu x [->|Hu']%Hbit Hcu Hx; [|eauto].
      assert (cu = cm) as -> by congruence.
      pose proof (root_min _ _ _ Hok Hm Hx). Lqa.lra.
    - intros u' cu src total [->|Hu']%Hbit Hcu Hsrc Hpath; [|eauto].
      assert (cu = cm) as -> by congruence.
      assert (Cost m <= total)%Q; [|Lqa.lra].
      eapply (fresh_optimal s m); eauto. by split. }
  assert (HMin2 : at_index (items (pq s2)) 0 = Some m) by (cbn; by rewrite Hpq1).
  unfold Run_body. cbn [graph engine]. rewrite HMin. cbn [mbind option_bind].
  unfold wasVisited, Exists. destruct (Z.ltb_spec (Value m) 0); [lia|].
  cbn [mbind option_bind]. fold u. rewrite Hfresh. cbn [negb].
  rewrite HaddP. cbn [mbind option_bind].
  unfold Set_. destruct (Z.ltb_spec u 0); [unfold u in *; lia|].
  cbn [mbind option_bind]. rewrite Hv1.
  change {| pq := pq s1; visited := Z.setbit (visited s) u;
            previous := previous s1; costs := costs s1;
            sources := sources s1; target := target s1 |} with s2.
  destruct (reachTarget s2 u) eqn:Hreach.
  - eexists. split; [done|]. cbn [outcome_state graph engine].
    split; [done|]. split; [done|]. split; [done|].
    apply reachTarget_true in Hreach as [? Heq].
    split; [eauto|]. split; [done|]. cbn [engine]. by rewrite <- Heq.
  - rewrite Hes. cbn [mbind option_bind].
    destruct (relax_edges_fresh m u cm cid1 es s2)
      as (s3 & Hrel & Hinv3 & Hm3 & Hv3 & Hp3 & Hk3 & Hsub3 & Hnew3 & Hlen3);
      try done.
    { cbn. by rewrite Hc1. }
    { intros e He. exists es. done. }
    rewrite Hrel. cbn [mbind option_bind].
    apply relax_edges_frame in Hrel as (_ & _ & _ & Htg3).
    assert (Ht3 : tinv s3).
    { eapply tinv_transfer; eauto.
      intros x [Hx|(e & n & He & Hn & Hxv & Hxp & Hxc & Hxd & Hns & Hnv)]%Hnew3;
        [by left|].
      right. right. rewrite Hxv. split; [done|].
      exists np, cm, (Weight e), (Distance (Metadata e)).
      rewrite Hp3, Hxp. split; [done|]. rewrite Hrank.
      rewrite Hk3 by done. cbn. rewrite Hc1.
      split; [done|]. split; [|by rewrite Hxc, Hxd].
      exists e, n. split; [by exists es|done]. }
    destruct (delete_head s3 m Hinv3 Ht3 Hm3) as (h & -> & Hinv' & Ht' & Hlen).
    { by rewrite Hv3. }
    cbn [mbind option_bind]. eexists. split; [done|].
    cbn [outcome_state graph engine].
    split; [done|]. split; [done|].
    split; [cbn; rewrite Htg3; cbn; exact Htg1|]. split; [done|].
    unfold measure. cbn [pq visited with_queue].
    rewrite Hv3. cbn [visited with_visited s2].
    apply at_index_Some in Hes as [_ Hes].
    pose proof (pending_setbit (visited s) u 0 (OutgoingEdges g) es) as Hpend.
    rewrite Z.sub_0_r in Hpend. specialize (Hpend ltac:(lia) Hes Hfresh).
    assert (length (items (pq s2)) = length (items (pq s))) as Hl2
      by (cbn; by rewrite Hpq1).
    cbn [engine pq visited]. lia.
Qed.

Lemma Run_body_ok st cid :
  graph st = g -> inv no_pend (engine st) -> tinv (engine st) ->
  isFinished (engine st) = false ->
  exists o, Run_body st cid = Some o /\ body_post (engine st) o.
Proof.
  intros Hg Hinv Ht Hfin.
  assert (Hne : items (pq (engine st)) <> []).
  { intros E. apply (IsEmpty_items _ (inv_heap _ _ Hinv)) in E.
    unfold isFinished in Hfin. congruence. }
  destruct (Min_ok _ (inv_heap _ _ Hinv) Hne) as (m & _ & Hm & _).
  destruct (Z.testbit (visited (engine st)) (Value m)) eqn:Hvis.
  - by eapply Run_body_stale.
  - by eapply Run_body_fresh.
Qed.

(** *** The loop *)

(** What holds when the loop has returned: the queue is exhausted, or the
    target has been visited. *)
Definition loop_post (s0 : DijkstraSearch) (st' : State) : Prop :=
  graph st' = g /\ tinv (engine st') /\ target (engine st') = target s0 /\
  (exists pend, inv pend (engine st')) /\
  ((inv no_pend (engine st') /\ items (pq (engine st')) = []) \/
   (0 <= target s0 /\
    Z.testbit (visited (engine st')) (target s0) = true)).

Lemma measure_pos s :
  items (pq s) <> [] -> (1 <= measure s)%nat.
Proof. unfold measure. destruct (items (pq s)); [done|]. cbn. lia. Qed.

(** With fuel for the measure the loop returns, and does so in a state the
    invariants hold of. *)
Lemma Run_loop_ok fuel : forall st cid,
  graph st = g -> inv no_pend (engine st) -> tinv (engine st) ->
  (measure (engine st) <= fuel)%nat ->
  exists st', Run_loop fuel st cid = Some (response st', st') /\
    loop_post (engine st) st'.
Proof.
  assert (Hdone : forall st, graph st = g -> inv no_pend (engine st) ->
            tinv (engine st) -> isFinished (engine st) = true ->
            loop_post (engine st) st).
  { intros st Hg Hinv Ht Hfin.
    split; [done|]. split; [done|]. split; [done|].
    split; [by exists no_pend|]. left. split; [done|].
    by apply (IsEmpty_items _ (inv_heap _ _ Hinv)). }
  assert (Hne : forall st, inv no_pend (engine st) ->
            isFinished (engine st) = false -> items (pq (engine st)) <> []).
  { intros st Hinv Hfin E.
    apply (IsEmpty_items _ (inv_heap _ _ Hinv)) in E.
    unfold isFinished in Hfin. congruence. }
  induction fuel as [|fuel IH]; intros st cid Hg Hinv Ht Hm;
    cbn [Run_loop]; destruct (isFinished (engine st)) eqn:Hfin;
    try (exists st; split; [done|by apply Hdone]).
  - pose proof (measure_pos _ (Hne _ Hinv Hfin)). lia.
  - destruct (Run_body_ok st cid Hg Hinv Ht Hfin) as (o & -> & Hpost).
    cbn [mbind option_bind].
    destruct o as [st'|st' cid']; destruct Hpost as (Hg' & Ht' & Htg & Hrest);
      cbn [outcome_state] in *.
    + destruct Hrest as (Hpend & H0 & Hvis). exists st'. split; [done|].
      split; [done|]. split; [done|]. split; [done|]. split; [done|].
      right. by rewrite <- Htg.
    + destruct Hrest as (Hinv' & Hlt).
      destruct (IH st' cid' Hg' Hinv' Ht') as (st'' & -> & Hpost); [lia|].
      exists st''. split; [done|].
      destruct Hpost as (? & ? & Htg' & ? & Hcase).
      split; [done|]. split; [done|]. split; [congruence|]. split; [done|].
      by rewrite <- Htg.
Qed.

(** When the queue is exhausted every node a path of weight below INFINITE
    leads to is visited, at a cost that is at most the weight. *)
Lemma exhausted_complete s src v total :
  inv no_pend s -> items (pq s) = [] ->
  src ∈ srcs -> path g src v total -> (total < INFINITE)%Q ->
  Z.testbit (visited s) v = true /\
  exists c, costs s !! v = Some c /\ (c <= total)%Q.
Proof.
  intros Hinv Hnil Hsrc Hpath.
  assert (Hvis : forall x c, costs s !! x = Some c ->
            Z.testbit (visited s) x = true).
  { intros x c Hc. destruct (Z.testbit (visited s) x) eqn:E; [done|].
    destruct (inv_queued _ _ Hinv _ _ Hc E) as (y & Hy & _).
    rewrite Hnil in Hy. by apply elem_of_nil in Hy. }
  induction Hpath as [u|u v x total w d Hpath IH Harc]; intros Hlt.
  - pose proof (inv_src _ _ Hinv u Hsrc) as Hu. split; [by eapply Hvis|].
    exists 0%Q. split; [done|]. apply Qle_refl.
  - pose proof (arc_nonneg _ _ _ _ Harc) as Hw.
    destruct (IH Hsrc) as (Hv & cv & Hcv & Hle); [Lqa.lra|].
    destruct Harc as (e & n & Hout & Hn & <- & <- & _).
    destruct (inv_relaxed _ _ Hinv v cv e n Hv Hcv Hout Hn) as [[]|Hrel].
    destruct (costs s !! ID n) as [cx|] eqn:Hcx.
    + rewrite (est_Some _ _ _ Hcx) in Hrel. split; [by eapply Hvis|].
      exists cx. split; [done|]. Lqa.lra.
    + rewrite (est_None _ _ Hcx) in Hrel. Lqa.lra.
Qed.

(** The cost of a visited node is the least weight of a path to it. *)
Lemma visited_is_shortest pend s v c :
  inv pend s -> Z.testbit (visited s) v = true -> costs s !! v = Some c ->
  shortest g srcs v c.
Proof.
  intros Hinv Hv Hc. split.
  - by destruct (inv_cost _ _ Hinv _ _ Hc) as (_ & _ & _ & ?).
  - intros src total Hsrc Hpath. by eapply (inv_opt _ _ Hinv).
Qed.

Lemma shortest_unique v c d :
  shortest g srcs v c -> shortest g srcs v d -> (c == d)%Q.
Proof.
  intros [(s1 & t1 & Hs1 & Hp1 & Hq1) Hmin1] [(s2 & t2 & Hs2 & Hp2 & Hq2) Hmin2].
  pose proof (Hmin1 _ _ Hs2 Hp2). pose proof (Hmin2 _ _ Hs1 Hp1). Lqa.lra.
Qed.

(** Run on the engine NewDijkstra made for the sources. *)
Lemma Run_spec t search :
  add_sources t srcs = Some search ->
  exists st',
    Run_loop (Run_fuel search g) {| graph := g; engine := search |} 0 =
      Some (response st', st') /\
    loop_post search st'.
Proof.
  intros Hs.
  apply (Run_loop_ok _ {| graph := g; engine := search |} 0);
    cbn [graph engine].
  - done.
  - by eapply inv_init.
  - by eapply tinv_init.
  - unfold measure, Run_fuel.
    pose proof (pending_le (visited search) 0 (OutgoingEdges g)). lia.
Qed.

(** The costs Run returns: each is the weight of a path; that of the target
    is the least one; and all are when the queue was exhausted. *)
Lemma Run_costs t search st' :
  add_sources t srcs = Some search -> loop_post search st' ->
  (forall v x, costs (engine st') !! v = Some x ->
     exists src total, src ∈ srcs /\ path g src v total /\ (total == x)%Q) /\
  (forall x, costs (engine st') !! t = Some x -> shortest g srcs t x) /\
  (forall d, shortest g srcs t d -> (d < INFINITE)%Q ->
     exists x, costs (engine st') !! t = Some x /\ (x == d)%Q) /\
  (t < 0 \/ ~ reachable g srcs t ->
   forall v,
     (forall x, costs (engine st') !! v = Some x -> shortest g srcs v x) /\
     (forall d, shortest g srcs v d -> (d < INFINITE)%Q ->
        exists x, costs (engine st') !! v = Some x /\ (x == d)%Q)).
Proof.
  intros Hs (Hg & Ht & Htg & (pend & Hinv) & Hcase).
  destruct (add_sources_spec _ _ _ Hs) as (_ & _ & _ & _ & _ & Htarget & _).
  rewrite Htarget in *.
  assert (Hall : inv no_pend (engine st') -> items (pq (engine st')) = [] ->
            forall v,
              (forall x, costs (engine st') !! v = Some x ->
                 shortest g srcs v x) /\
              (forall d, shortest g srcs v d -> (d < INFINITE)%Q ->
                 exists x, costs (engine st') !! v = Some x /\ (x == d)%Q)).
  { intros Hinv0 Hnil v. split.
    - intros x Hx. eapply visited_is_shortest; [done| |done].
      destruct (Z.testbit (visited (engine st')) v) eqn:E; [done|].
      destruct (inv_queued _ _ Hinv0 _ _ Hx E) as (y & Hy & _).
      rewrite Hnil in Hy. by apply elem_of_nil in Hy.
    - intros d Hsh Hd.
      pose proof Hsh as [(src & total & Hsrc & Hpath & Hq) _].
      destruct (exhausted_complete _ src v total Hinv0 Hnil Hsrc Hpath)
        as (Hv & c & Hc & _); [Lqa.lra|].
      exists c. split; [done|]. eapply shortest_unique; [|done].
      by eapply visited_is_shortest. }
  split; [|split; [|split]].
  - intros v x Hx.
    by destruct (inv_cost _ _ Hinv _ _ Hx) as (_ & _ & _ & ?).
  - intros x Hx. destruct Hcase as [[Hinv0 Hnil]|[H0 Hv]].
    + by apply (Hall Hinv0 Hnil t).
    + by eapply visited_is_shortest.
  - intros d Hsh Hd. destruct Hcase as [[Hinv0 Hnil]|[H0 Hv]].
    + by apply (Hall Hinv0 Hnil t).
    + destruct (proj2 (inv_visited _ _ Hinv) _ Hv) as [c Hc].
      exists c. split; [done|]. eapply shortest_unique; [|done].
      by eapply visited_is_shortest.
  - intros Hno. destruct Hcase as [[Hinv0 Hnil]|[H0 Hv]]; [by apply Hall|].
    destruct Hno as [?|Hno]; [lia|]. destruct Hno.
    destruct (proj2 (inv_visited _ _ Hinv) _ Hv) as [c Hc].
    destruct (inv_cost _ _ Hinv _ _ Hc) as (_ & _ & _ & src & total & ? & ? & _).
    by exists src, total.
Qed.

End Dijkstra.

(** *** Run on a built graph *)

(** On a graph built with AddNode and RelateNodes, with no negative weight,
    and for sources that are nodes of it, NewDijkstra and Run return, and
    the invariants hold of the memory Run leaves. *)
Lemma Run_returns g c :
  Built g -> nonneg_weights g ->
  (forall s, s ∈ Source c -> valid_id g s) ->
  exists search st',
    NewDijkstra c = Some search /\
    Run search g = Some (response st') /\
    loop_post g (Source c) search st'.
Proof.
  intros Hb Hn Hv.
  assert (H0 : Forall (fun s => 0 <= s) (Source c)).
  { apply Forall_forall. intros s Hs. by destruct (Hv s Hs) as [[? _] _]. }
  destruct (add_sources_is_Some (first_target c) _ H0) as [search Hs].
  destruct (Run_spec g (Source c) (Built_wf g Hb) Hn Hv _ _ Hs)
    as (st' & Hrun & Hpost).
  exists search, st'. rewrite NewDijkstra_add_sources.
  split; [done|]. split; [|done]. unfold Run. by rewrite Hrun.
Qed.

(** C1 (amended): on a graph built with AddNode and RelateNodes, with no
    negative weight, and for valid sources, Run returns; every cost in the
    returned map is the weight of a path from a source; the cost the map
    holds for the first target is its shortest-path cost, and the map holds
    it whenever that cost is below INFINITE; and when no target is set, or
    the first target cannot be reached, the same is true of every node. *)
Theorem Run_shortest_costs g c :
  Built g -> nonneg_weights g ->
  (forall s, s ∈ Source c -> valid_id g s) ->
  exists search r,
    NewDijkstra c = Some search /\ Run search g = Some r /\
    (forall v x, Costs r !! v = Some x ->
       exists src total,
         src ∈ Source c /\ path g src v total /\ (total == x)%Q) /\
    (forall x, Costs r !! first_target c = Some x ->
       shortest g (Source c) (first_target c) x) /\
    (forall d, shortest g (Source c) (first_target c) d ->
       (d < INFINITE)%Q ->
       exists x, Costs r !! first_target c = Some x /\ (x == d)%Q) /\
    (first_target c < 0 \/ ~ reachable g (Source c) (first_target c) ->
     forall v,
       (forall x, Costs r !! v = Some x -> shortest g (Source c) v x) /\
       (forall d, shortest g (Source c) v d -> (d < INFINITE)%Q ->
          exists x, Costs r !! v = Some x /\ (x == d)%Q)).
Proof.
  intros Hb Hn Hv.
  destruct (Run_returns g c Hb Hn Hv) as (search & st' & Hnew & Hrun & Hpost).
  exists search, (response st'). split; [done|]. split; [done|].
  rewrite NewDijkstra_add_sources in Hnew.
  exact (Run_costs g (Source c) Hn _ _ _ Hnew Hpost).
Qed.

(** C3 (amended): in the tree Run returns, every edge goes from the tree id
    of the predecessor to the larger tree id of the child, and is recorded
    in both the outgoing and the incoming entries.  Its weight is the total
    cost of the child.  For an edge that stands for an edge of the graph,
    weight and metadata distance are the total cost of the predecessor plus
    the weight and the distance of that edge. *)
Theorem SearchSpace_edge_total_cost g c :
  Built g -> nonneg_weights g ->
  (forall s, s ∈ Source c -> valid_id g s) ->
  exists search r,
    NewDijkstra c = Some search /\ Run search g = Some r /\
    mirrored (SearchSpace r) /\
    (forall j n, Nodes (SearchSpace r) !! j = Some n -> ID n = Z.of_nat j) /\
    (forall p e, out_has (SearchSpace r) p e ->
       exists np nc cc,
         at_index (Nodes (SearchSpace r)) p = Some np /\
         at_index (Nodes (SearchSpace r)) (eID e) = Some nc /\
         p < eID e /\
         Costs r !! Rank nc = Some cc /\ (cc == Weight e)%Q /\
         ((p = 0 /\ Rank nc ∈ Source c /\ Weight e = 0%Q /\
           Distance (Metadata e) = 0%Q) \/
          (exists cp w d, Costs r !! Rank np = Some cp /\
             arc g (Rank np) (Rank nc) w d /\
             (Weight e == cp + w)%Q /\
             (Distance (Metadata e) == cp + d)%Q))).
Proof.
  intros Hb Hn Hv.
  destruct (Run_returns g c Hb Hn Hv)
    as (search & st' & Hnew & Hrun & _ & Ht & _).
  exists search, (response st'). split; [done|]. split; [done|].
  cbn [response SearchSpace Costs]. split; [apply (t_mirror _ _ _ Ht)|].
  split.
  - intros j n Hj. by destruct (t_nodes _ _ _ Ht j n Hj).
  - intros p e Hout. exact (t_edges _ _ _ Ht p e Hout).
Qed.


(** ** The bit set *)

Lemma Set_nonneg b i v b' : 0 <= b -> Set_ b i v = Some b' -> 0 <= b'.
Proof.
  unfold Set_. destruct (Z.ltb_spec i 0); [done|]. intros Hb [= <-].
  destruct v.
  - unfold Z.setbit. apply Z.lor_nonneg. split; [done|].
    apply Z.shiftl_nonneg. lia.
  - unfold Z.clearbit. apply Z.ldiff_nonneg. by left.
Qed.

(** X1: Set and Exists panic on a negative index and on no other; after
    Set(i, value) Exists(i) is [value], and Exists is unchanged at every
    other index. *)
Theorem Bitset_Set_Exists (b : Bitset) (i : Z) (value : bool) :
  (i < 0 -> Set_ b i value = None /\ Exists b i = None) /\
  (0 <= i -> exists b',
     Set_ b i value = Some b' /\ Exists b' i = Some value /\
     forall j, j <> i -> Exists b' j = Exists b j).
Proof.
  unfold Set_, Exists. split; intros Hi.
  - destruct (Z.ltb_spec i 0); [done|lia].
  - destruct (Z.ltb_spec i 0); [lia|]. eexists. split; [done|]. split.
    + destruct value; [by rewrite Z.setbit_eq|by rewrite Z.clearbit_eq].
    + intros j Hj. destruct (Z.ltb_spec j 0); [done|]. f_equal.
      destruct value; [by rewrite Z.setbit_neq|by rewrite Z.clearbit_neq].
Qed.

Lemma Bitset_Set_Exists_witness :
  exists b', Set_ NewBigInt 5 true = Some b' /\ Exists b' 5 = Some true /\
    Exists b' 4 = Exists NewBigInt 4.
Proof.
  destruct (proj2 (Bitset_Set_Exists NewBigInt 5 true)) as (b' & H1 & H2 & H3);
    [lia|].
  exists b'. split; [exact H1|]. split; [exact H2|]. apply H3. lia.
Defined.

Lemma Len_bound b i : 0 <= b -> Z.testbit b i = true -> i < Len b.
Proof.
  intros Hb Hi. unfold Len. destruct (Z.eqb_spec b 0) as [->|Hne].
  - by rewrite Z.bits_0 in Hi.
  - rewrite Z.abs_eq by done.
    destruct (Z.lt_ge_cases (Z.log2 b) i) as [Hlt|Hge]; [|lia].
    rewrite Z.bits_above_log2 in Hi by lia. done.
Qed.

(** X2: a bit set made from NewBigInt by Set is never negative; Len is 0 for
    the fresh bit set, it is above the index of every bit that is set, and
    setting bit [i] makes it the larger of the old Len and [i + 1]. *)
Theorem Bitset_Len (b : Bitset) (i : Z) :
  Len NewBigInt = 0 /\
  (0 <= b -> forall v b', Set_ b i v = Some b' -> 0 <= b') /\
  (0 <= b -> Exists b i = Some true -> i < Len b) /\
  (0 <= b -> forall b', Set_ b i true = Some b' ->
     Len b' = Z.max (Len b) (i + 1)).
Proof.
  split; [done|]. split; [intros Hb v b'; by apply Set_nonneg|]. split.
  - intros Hb. unfold Exists. destruct (Z.ltb_spec i 0); [done|].
    intros [= Hi]. by apply Len_bound.
  - intros Hb b'. unfold Set_. destruct (Z.ltb_spec i 0); [done|].
    intros [= <-]. unfold Len.
    assert (Hs : 0 < Z.setbit b i).
    { assert (Z.testbit (Z.setbit b i) i = true) by by rewrite Z.setbit_eq.
      destruct (Z.eq_dec (Z.setbit b i) 0) as [E|].
      - rewrite E, Z.bits_0 in *. done.
      - pose proof (Set_nonneg b i true (Z.setbit b i) Hb) as Hn.
        unfold Set_ in Hn. destruct (Z.ltb_spec i 0); [lia|].
        specialize (Hn eq_refl). lia. }
    destruct (Z.eqb_spec (Z.setbit b i) 0); [lia|].
    rewrite (Z.abs_eq (Z.setbit b i)) by lia.
    unfold Z.setbit. rewrite Z.log2_lor by (try apply Z.shiftl_nonneg; lia).
    rewrite Z.shiftl_1_l, Z.log2_pow2 by lia.
    destruct (Z.eqb_spec b 0) as [->|Hne].
    + cbn [Z.log2]. lia.
    + rewrite Z.abs_eq by done. pose proof (Z.log2_nonneg b). lia.
Qed.

Lemma Bitset_Len_witness :
  exists b', Set_ 1 3 true = Some b' /\ 0 <= b' /\ 3 < Len b' /\
    Len b' = Z.max (Len 1) 4.
Proof.
  destruct (Bitset_Len 1 3) as (_ & Hn & _ & Hl).
  destruct (Bitset_Len 9 3) as (_ & _ & Hb & _).
  exists 9. split; [reflexivity|]. split; [apply (Hn ltac:(lia) true); reflexivity|].
  split; [apply Hb; [lia|reflexivity]|]. apply Hl; [lia|reflexivity].
Defined.

(** ** The priority queue, for its clients *)

Lemma apply_ops_heap_ok ops h : apply_ops Create ops = Some h -> heap_ok h.
Proof.
  intros H. destruct (apply_ops_ok ops) as (h' & Hh' & Hok). congruence.
Qed.

(** X3: on a heap made from Create by Insert and DeleteMin calls, IsEmpty
    tells whether there are items; with no item Min returns the zero HNode
    and ErrHeapEmpty, and DeleteMin returns ErrHeapEmpty and leaves the heap
    as it was; with an item both return without an error. *)
Theorem Heap_empty_errors (ops : list HeapOp) (h : Heap) :
  apply_ops Create ops = Some h ->
  (IsEmpty h = true <-> items h = []) /\
  (items h = [] ->
     Min h = Some (HNode0, Some ErrHeapEmpty) /\
     DeleteMin h = Some (h, Some ErrHeapEmpty)) /\
  (items h <> [] ->
     exists m h', Min h = Some (m, None) /\ DeleteMin h = Some (h', None)).
Proof.
  intros Hok%apply_ops_heap_ok. split; [by apply IsEmpty_items|]. split.
  - intros E. split; [by apply Min_empty|by apply DeleteMin_empty].
  - intros Hne. destruct (Min_ok h Hok Hne) as (m & Hmin & Hm & _).
    destruct (DeleteMin_ok h m Hok Hm) as (h' & Hdel & _). eauto.
Qed.

Lemma Heap_empty_errors_witness :
  let n := {| Value := 7; Cost := 3; Depth := 0; Previous := 0; Dist := 0 |} in
  exists h, apply_ops Create [OpInsert n; OpDeleteMin] = Some h /\
    IsEmpty h = true /\
    Min h = Some (HNode0, Some ErrHeapEmpty) /\
    DeleteMin h = Some (h, Some ErrHeapEmpty).
Proof.
  intros n. exists Create.
  pose proof (Heap_empty_errors [OpInsert n; OpDeleteMin] Create eq_refl)
    as (He & Hempty & _).
  split; [reflexivity|]. split; [by apply He|]. by apply Hempty.
Defined.

(** X4: on a heap made from Create by Insert and DeleteMin calls, [size] is
    the number of items; Insert adds the entry and nothing else; Min returns
    an entry of least Cost; DeleteMin removes one copy of that entry and
    nothing else. *)
Theorem Heap_accounting (ops : list HeapOp) (h : Heap) :
  apply_ops Create ops = Some h ->
  size h = Z.of_nat (length (items h)) /\
  (forall n, exists h',
     Insert h n = Some h' /\ items h' ≡ₚ n :: items h /\
     size h' = size h + 1) /\
  (items h <> [] ->
     exists m h',
       Min h = Some (m, None) /\ m ∈ items h /\
       (forall x, x ∈ items h -> (Cost m <= Cost x)%Q) /\
       DeleteMin h = Some (h', None) /\ items h ≡ₚ m :: items h' /\
       size h' = size h - 1).
Proof.
  intros Hok%apply_ops_heap_ok. pose proof Hok as [Hsz _].
  split; [done|]. split.
  - intros n. destruct (Insert_ok h n Hok) as (h' & Hi & [Hsz' _] & Hp).
    exists h'. split; [done|]. split; [done|].
    apply Permutation_length in Hp. cbn in Hp. lia.
  - intros Hne. destruct (Min_ok h Hok Hne) as (m & Hmin & Hm & Hin & Hle).
    destruct (DeleteMin_ok h m Hok Hm) as (h' & Hdel & [Hsz' _] & Hp).
    exists m, h'. repeat (split; [done|]).
    apply Permutation_length in Hp. cbn in Hp. lia.
Qed.

Lemma Heap_accounting_witness :
  let mk v c :=
    {| Value := v; Cost := c; Depth := 0; Previous := 0; Dist := 0 |} in
  exists h m h',
    apply_ops Create [OpInsert (mk 1 5%Q); OpInsert (mk 2 3%Q)] = Some h /\
    size h = 2 /\ Min h = Some (m, None) /\ Cost m = 3%Q /\
    DeleteMin h = Some (h', None) /\ items h ≡ₚ m :: items h' /\
    size h' = size h - 1.
Proof.
  intros mk.
  destruct (apply_ops Create [OpInsert (mk 1 5%Q); OpInsert (mk 2 3%Q)])
    as [h|] eqn:E; [|vm_compute in E; discriminate E].
  destruct (Heap_accounting _ h E) as (Hsz & _ & Hmin).
  destruct Hmin as (m & h' & Hm & _ & _ & Hd & Hp & Hs).
  { vm_compute in E. injection E as <-. discriminate. }
  exists h, m, h'. split; [reflexivity|].
  vm_compute in E. injection E as <-.
  split; [reflexivity|]. split; [exact Hm|].
  split; [vm_compute in Hm; by injection Hm as <-|]. done.
Defined.

(** X5: CreateWithValue(v) returns a heap of one entry, [v] at cost 0: Min
    returns that entry, and one DeleteMin leaves the heap empty. *)
Theorem CreateWithValue_single (value : Z) :
  exists h h',
    CreateWithValue value = Some h /\
    size h = 1 /\
    Min h = Some ({| Value := value; Cost := 0; Depth := 0; Previous := 0;
                     Dist := 0 |}, None) /\
    DeleteMin h = Some (h', None) /\ IsEmpty h' = true /\ items h' = [].
Proof. eexists _, _. repeat split. Qed.

(** ** Vectors *)


Lemma Dot_loop_None r vs os :
  Dot_loop r vs os = None <-> (length os < length vs)%nat.
Proof.
  revert r os. induction vs as [|x vs IH]; intros r [|o os]; cbn.
  - split; [done|lia].
  - split; [done|lia].
  - split; [lia|done].
  - rewrite IH. lia.
Qed.

Lemma squaredDistance_loop_None r vs os :
  squaredDistance_loop r vs os = None <-> (length os < length vs)%nat.
Proof.
  revert r os. induction vs as [|x vs IH]; intros r [|o os]; cbn.
  - split; [done|lia].
  - split; [done|lia].
  - split; [lia|done].
  - rewrite IH. lia.
Qed.

Lemma Dot_loop_take r vs os :
  Dot_loop r vs os = Dot_loop r vs (take (length vs) os).
Proof.
  revert r os. induction vs as [|x vs IH]; intros r [|o os]; cbn; auto.
Qed.

Lemma Dot_loop_comm r vs os :
  length vs = length os -> Dot_loop r vs os = Dot_loop r os vs.
Proof.
  revert r os. induction vs as [|x vs IH]; intros r [|o os] Hlen; cbn in *;
    try done.
  rewrite IH by lia. f_equal. f_equal. unfold Qmult.
  by rewrite (Z.mul_comm (Qnum x)), (Pos.mul_comm (Qden x)).
Qed.

Lemma Dot_loop_self r vs d :
  Dot_loop r vs vs = Some d -> (r <= d)%Q.
Proof.
  revert r. induction vs as [|x vs IH]; intros r; cbn.
  - intros [= <-]. apply Qle_refl.
  - intros H%IH. pose proof (Qsquare_nonneg x). Lqa.lra.
Qed.

Lemma Dot_self_is_Some v : is_Some (Dot v v).
Proof.
  unfold Dot. destruct (Dot_loop 0 (Components v) (Components v)) eqn:E;
    [eauto|]. apply Dot_loop_None in E. lia.
Qed.

Section VectorProofs.

Variable Sqrt : Q -> Q.

(** X6: which vector operations panic, and when.  Add and Subtract panic
    exactly when the two vectors differ in dimension.  Dot, Between,
    Distance and DistanceSquared panic exactly when the argument has fewer
    components than the receiver, and Project when the receiver has more
    components than the vector projected onto: an argument with more
    components is accepted.  Equals, Magnitude and Normalize never panic. *)
Theorem Vector_panics (v other : Vector) :
  let n := length (Components v) in
  let m := length (Components other) in
  (Add v other = None <-> n <> m) /\
  (Subtract v other = None <-> n <> m) /\
  (Dot v other = None <-> (m < n)%nat) /\
  (Between v other = None <-> (m < n)%nat) /\
  (DistanceSquared v other = None <-> (m < n)%nat) /\
  (Vector_Distance Sqrt v other = None <-> (m < n)%nat) /\
  (Project Sqrt v other = None <-> (m < n)%nat) /\
  is_Some (Equals v other) /\ is_Some (Magnitude Sqrt v) /\
  is_Some (Normalize Sqrt v).
Proof.
  intros n m. subst n m.
  assert (HM : is_Some (Magnitude Sqrt v)).
  { unfold Magnitude. destruct (Dot_self_is_Some v) as [d ->]. cbn. eauto. }
  assert (HN : forall u, exists u', Normalize Sqrt u = Some u' /\
             length (Components u') = length (Components u)).
  { intros u. unfold Normalize, Magnitude.
    destruct (Dot_self_is_Some u) as [d ->]. cbn.
    destruct (Qeq_bool (Sqrt d) 0); eexists; (split; [done|]); cbn.
    - by rewrite length_replicate.
    - by rewrite length_fmap. }
  split; [|split; [|split; [|split; [|split; [|split; [|split; [|split; [|split]]]]]]]].
  - unfold Add. case_bool_decide; split; (done || congruence).
  - unfold Subtract, Add. cbn. rewrite length_fmap.
    case_bool_decide; split; (done || congruence).
  - apply Dot_loop_None.
  - unfold Between. destruct (Dot v other) as [a|] eqn:E.
    + cbn. destruct (Dot_self_is_Some v) as [c ->].
      split; [by destruct (fltb 0 a)|].
      intros H. apply (proj2 (Dot_loop_None 0 _ _)) in H.
      unfold Dot in E. congruence.
    + cbn. split; [|done]. intros _. by apply (Dot_loop_None 0).
  - apply squaredDistance_loop_None.
  - unfold Vector_Distance.
    destruct (squaredDistance_loop 0 (Components v) (Components other)) eqn:E;
      cbn.
    + split; [done|]. intros H.
      apply (proj2 (squaredDistance_loop_None 0 _ _)) in H. congruence.
    + split; [|done]. intros _. by apply (squaredDistance_loop_None 0).
  - unfold Project, Unit. destruct (HN other) as (u & -> & Hu). cbn.
    destruct (Dot v u) as [d|] eqn:E; cbn.
    + split; [done|]. rewrite <- Hu. intros H.
      apply (proj2 (Dot_loop_None 0 _ _)) in H. unfold Dot in E. congruence.
    + split; [|done]. intros _. rewrite <- Hu. by apply (Dot_loop_None 0).
  - unfold Equals.
    destruct (Nat.eqb_spec (length (Components v)) (length (Components other)))
      as [Hlen|]; cbn; [|eauto].
    revert Hlen. generalize (Components other).
    induction (Components v) as [|x vs IH]; intros [|o os] Hlen; cbn in *;
      try done; eauto.
    destruct (Qeq_bool x o); cbn; [|eauto]. apply IH. lia.
  - done.
  - destruct (HN v) as (u & -> & _). eauto.
Qed.

End VectorProofs.

Lemma Vector_panics_witness :
  let v := NewVector 1 [1%Q; 2%Q] in
  let short := NewVector 2 [3%Q] in
  let long := NewVector 3 [3%Q; 4%Q; 5%Q] in
  Add v long = None /\ Dot v short = None /\ Dot v long = Some 11%Q /\
  Equals v short = Some false.
Proof.
  intros v short long.
  pose proof (Vector_panics sqrt_up v long) as (HA & _).
  pose proof (Vector_panics sqrt_up v short) as (_ & _ & HD & _).
  split; [apply HA; cbn; lia|]. split; [apply HD; cbn; lia|].
  split; reflexivity.
Defined.

Lemma Qplus_comm_eq (x y : Q) : (x + y)%Q = (y + x)%Q.
Proof.
  unfold Qplus. by rewrite (Z.add_comm (Qnum x * _)), (Pos.mul_comm (Qden x)).
Qed.

(** X7: for two vectors of one dimension Add and Subtract return vectors of
    that dimension whose components are the sums and the differences of the
    components, and whose ID is 0 whatever the IDs of the operands; Add gives
    the same vector with its operands exchanged. *)
Theorem Vector_Add_Subtract (v other : Vector) :
  length (Components v) = length (Components other) ->
  exists s d,
    Add v other = Some s /\ Subtract v other = Some d /\
    Add other v = Some s /\
    vID s = 0 /\ vID d = 0 /\
    length (Components s) = length (Components v) /\
    length (Components d) = length (Components v) /\
    forall i x y,
      Components v !! i = Some x -> Components other !! i = Some y ->
      Components s !! i = Some (x + y)%Q /\
      exists z, Components d !! i = Some z /\ (z == x - y)%Q.
Proof.
  intros Hlen. unfold Subtract, Add. cbn. rewrite length_fmap.
  rewrite !bool_decide_eq_true_2 by done.
  eexists _, _. split; [done|]. split; [done|]. split.
  { do 2 f_equal. revert Hlen. generalize (Components other).
    induction (Components v) as [|x vs IH]; intros [|o os] Hlen; cbn in *;
      try done.
    rewrite IH by lia. by rewrite Qplus_comm_eq. }
  cbn. split; [done|]. split; [done|].
  rewrite !length_zip_with, length_fmap.
  split; [lia|]. split; [lia|].
  intros i x y Hx Hy. rewrite !lookup_zip_with, list_lookup_fmap, Hx, Hy. cbn.
  split; [done|]. eexists. split; [done|]. Lqa.lra.
Qed.

Lemma Vector_Add_Subtract_witness :
  let v := NewVector 4 [1%Q; 2%Q] in
  let o := NewVector 5 [10%Q; 20%Q] in
  exists s d, Add v o = Some s /\ Subtract v o = Some d /\ vID s = 0 /\
    Components s = [11%Q; 22%Q] /\ Forall2 Qeq (Components d) [-9; -18]%Q.
Proof.
  intros v o.
  destruct (Vector_Add_Subtract v o eq_refl)
    as (s & d & Hs & Hd & _ & Hid & _).
  exists s, d. split; [exact Hs|]. split; [exact Hd|]. split; [exact Hid|].
  vm_compute in Hs. injection Hs as <-. vm_compute in Hd. injection Hd as <-.
  split; [reflexivity|]. repeat constructor.
Defined.

(** X8: Dot reads only as many components of its argument as the receiver
    has; for two vectors of one dimension it gives the same number with the
    operands exchanged; and the dot product of a vector with itself, which
    Magnitude takes the root of, is never negative. *)
Theorem Vector_Dot (Sqrt : Q -> Q) (v other : Vector) :
  Dot v other =
    Dot v (NewVector (vID other)
             (take (length (Components v)) (Components other))) /\
  (length (Components v) = length (Components other) ->
   Dot v other = Dot other v) /\
  exists d, Dot v v = Some d /\ (0 <= d)%Q /\
    Magnitude Sqrt v = Some (Sqrt d).
Proof.
  split; [apply Dot_loop_take|]. split; [apply Dot_loop_comm|].
  destruct (Dot_self_is_Some v) as [d Hd]. exists d. split; [done|].
  split; [by apply Dot_loop_self in Hd|]. unfold Magnitude. by rewrite Hd.
Qed.

Lemma Vector_Dot_witness :
  let v := NewVector 1 [1%Q; 2%Q] in
  let o := NewVector 2 [3%Q; 4%Q] in
  Dot v o = Dot o v /\ Dot v o = Some 11%Q.
Proof.
  intros v o. split; [|reflexivity].
  exact (proj1 (proj2 (Vector_Dot sqrt_up v o)) eq_refl).
Defined.

Lemma Equals_loop_true vs os :
  length vs = length os ->
  Equals_loop vs os = Some true <-> Forall2 Qeq vs os.
Proof.
  intros Hlen. split.
  - revert os Hlen.
    induction vs as [|x vs IH]; intros [|o os] Hlen; cbn in *; try done.
    destruct (Qeq_bool x o) eqn:E; cbn; [|done].
    intros H%IH; [|lia]. constructor; [|done]. by apply Qeq_bool_iff.
  - clear Hlen. intros H. induction H as [|a b l1 l2 Hab _ IH]; cbn; [done|].
    apply Qeq_bool_iff in Hab. by rewrite Hab.
Qed.

Lemma Equals_true v other :
  Equals v other = Some true <->
  Forall2 Qeq (Components v) (Components other).
Proof.
  unfold Equals.
  destruct (Nat.eqb_spec (length (Components v)) (length (Components other)))
    as [Hlen|Hlen]; cbn.
  - by apply Equals_loop_true.
  - split; [done|]. intros H%Forall2_length. done.
Qed.

(** X10: Equals returns true exactly when the two vectors have the same
    number of components and equal components; the IDs are not compared.  A
    vector equals itself and its Copy, and the Copy has ID 0. *)
Theorem Vector_Equals (v other : Vector) :
  (Equals v other = Some true <->
   Forall2 Qeq (Components v) (Components other)) /\
  (Equals v other = Some true -> Equals other v = Some true) /\
  Equals v v = Some true /\
  Equals (Copy v) v = Some true /\ vID (Copy v) = 0 /\
  Equals (NewVector (vID v + 1) (Components v)) v = Some true.
Proof.
  assert (Hrefl : forall l : list Q, Forall2 Qeq l l).
  { intros l. induction l; constructor; (reflexivity || done). }
  split; [apply Equals_true|]. split.
  - rewrite !Equals_true. intros H.
    induction H; constructor; [by symmetry|done].
  - split; [by apply Equals_true|]. split; [by apply Equals_true|].
    split; [done|]. by apply Equals_true.
Qed.

Lemma Vector_Equals_witness :
  let v := NewVector 1 [1%Q; 2%Q] in
  let o := NewVector 2 [(2 # 2)%Q; (4 # 2)%Q] in
  Equals v o = Some true /\ Equals o v = Some true.
Proof.
  intros v o.
  destruct (Vector_Equals v o) as (_ & Hsym & _).
  split; [reflexivity|]. apply Hsym. reflexivity.
Defined.

Lemma squaredDistance_loop_shift a b l1 l2 e1 e2 :
  (a == b)%Q -> squaredDistance_loop a l1 l2 = Some e1 ->
  squaredDistance_loop b l1 l2 = Some e2 -> (e1 == e2)%Q.
Proof.
  revert a b l2. induction l1 as [|y l1 IH]; intros a b [|z l2] Hab H1 H2;
    cbn in *; simplify_eq; try done.
  eapply IH; [|exact H1|exact H2]. by rewrite Hab.
Qed.

Lemma Dot_loop_shift a b l1 l2 e1 e2 :
  (a == b)%Q -> Dot_loop a l1 l2 = Some e1 -> Dot_loop b l1 l2 = Some e2 ->
  (e1 == e2)%Q.
Proof.
  revert a b l2. induction l1 as [|y l1 IH]; intros a b [|z l2] Hab H1 H2;
    cbn in *; simplify_eq; try done.
  eapply IH; [|exact H1|exact H2]. by rewrite Hab.
Qed.

Lemma squaredDistance_loop_sym r vs os d :
  length vs = length os -> squaredDistance_loop r vs os = Some d ->
  exists d', squaredDistance_loop r os vs = Some d' /\ (d' == d)%Q.
Proof.
  revert r os d. induction vs as [|x vs IH]; intros r [|o os] d Hlen H;
    cbn in *; simplify_eq.
  - eexists. split; [done|]. reflexivity.
  - destruct (squaredDistance_loop_is_Some (r + (o - x) * (o - x))%Q os vs)
      as [d' Hd']; [lia|].
    exists d'. split; [done|].
    edestruct IH as (d'' & Hd'' & Heq); [|exact H|]; [lia|].
    rewrite <- Heq.
    eapply squaredDistance_loop_shift; [|exact Hd'|exact Hd'']. Lqa.lra.
Qed.

Lemma Dot_loop_Subtract r vs os d :
  length vs = length os -> squaredDistance_loop r vs os = Some d ->
  exists e,
    Dot_loop r (zip_with Qplus vs ((fun c => c * -1)%Q <$> os))
      (zip_with Qplus vs ((fun c => c * -1)%Q <$> os)) = Some e /\
    (e == d)%Q.
Proof.
  revert r os d. induction vs as [|x vs IH]; intros r [|o os] d Hlen H;
    cbn in *; simplify_eq.
  - eexists. split; [done|]. reflexivity.
  - edestruct IH as (e & He & Heq); [|exact H|]; [lia|].
    set (l := zip_with Qplus vs ((fun c => c * -1)%Q <$> os)) in *.
    destruct (Dot_loop (r + (x + o * -1) * (x + o * -1)) l l) as [e'|] eqn:E.
    + exists e'. split; [done|]. rewrite <- Heq.
      eapply Dot_loop_shift; [|exact E|exact He]. Lqa.lra.
    + apply Dot_loop_None in E. lia.
Qed.

(** X9: for two vectors of one dimension DistanceSquared returns a number
    that is not negative, is what squaredDistance of the k-d tree returns,
    is the same with the operands exchanged, and is the dot product of
    their difference with itself; it is 0 for vectors that Equals holds of;
    and Distance returns its square root. *)
Theorem Vector_DistanceSquared (Sqrt : Q -> Q) (v other : Vector) :
  length (Components v) = length (Components other) ->
  exists d d' s e,
    DistanceSquared v other = Some d /\ (0 <= d)%Q /\
    squaredDistance v other = Some d /\
    DistanceSquared other v = Some d' /\ (d' == d)%Q /\
    Subtract v other = Some s /\ Dot s s = Some e /\ (e == d)%Q /\
    Vector_Distance Sqrt v other = Some (Sqrt d) /\
    (Equals v other = Some true -> (d == 0)%Q).
Proof.
  intros Hlen. unfold DistanceSquared, squaredDistance, Vector_Distance.
  destruct (squaredDistance_loop_is_Some 0 (Components v) (Components other))
    as [d Hd]; [done|].
  destruct (squaredDistance_loop_sym _ _ _ _ Hlen Hd) as (d' & Hd' & Heq).
  destruct (Dot_loop_Subtract _ _ _ _ Hlen Hd) as (e & He & Hed).
  exists d, d'. eexists _, e. rewrite Hd. cbn.
  split; [done|]. split; [by apply squaredDistance_loop_ge in Hd|].
  split; [done|]. split; [done|]. split; [done|]. split.
  { unfold Subtract, Add. cbn. rewrite length_fmap.
    by rewrite bool_decide_eq_true_2. }
  split; [exact He|]. split; [done|]. split; [done|].
  intros HE%Equals_true.
  destruct (squaredDistance_loop_same 0 _ _ HE) as (d0 & Hd0 & Hz).
  assert (d0 = d) as -> by congruence. done.
Qed.

Lemma Vector_DistanceSquared_witness :
  let v := NewVector 1 [1%Q; 2%Q] in
  let o := NewVector 2 [4%Q; 6%Q] in
  exists d d', DistanceSquared v o = Some d /\ (d == 25)%Q /\
    DistanceSquared o v = Some d' /\ (d' == d)%Q /\
    Vector_Distance sqrt_up v o = Some (sqrt_up d).
Proof.
  intros v o.
  destruct (Vector_DistanceSquared sqrt_up v o eq_refl)
    as (d & d' & _ & _ & Hd & _ & _ & Hd' & Heq & _ & _ & _ & HD & _).
  exists d, d'. split; [exact Hd|]. split.
  { vm_compute in Hd. by injection Hd as <-. }
  done.
Defined.

Lemma IsZero_true v :
  IsZero v = true <-> Forall (fun c => (c == 0)%Q) (Components v).
Proof.
  unfold IsZero. rewrite forallb_forall, Forall_forall.
  split; intros H c Hc.
  - apply Qeq_bool_iff, H. by apply list_elem_of_In.
  - apply Qeq_bool_iff, H. by apply list_elem_of_In.
Qed.

(** X11: IsZero holds of the vectors all of whose components are 0, the
    vector of no component among them.  Scale by 0 and the difference of a
    vector with itself are zero vectors; and Normalize returns a vector of
    the same dimension, which for a zero vector is again a zero vector,
    whatever the square root of 0 is taken to be. *)
Theorem Vector_IsZero (Sqrt : Q -> Q) (v : Vector) :
  (IsZero v = true <-> Forall (fun c => (c == 0)%Q) (Components v)) /\
  IsZero (NewVector (vID v) []) = true /\
  IsZero (Scale v 0) = true /\
  (exists d, Subtract v v = Some d /\ IsZero d = true) /\
  exists u, Normalize Sqrt v = Some u /\
    length (Components u) = length (Components v) /\
    (IsZero v = true -> IsZero u = true).
Proof.
  split; [apply IsZero_true|]. split; [done|]. split.
  { apply IsZero_true. cbn. apply Forall_fmap, Forall_forall.
    intros c _. cbn. Lqa.lra. }
  split.
  { unfold Subtract, Add. cbn. rewrite length_fmap.
    rewrite bool_decide_eq_true_2 by done. eexists. split; [done|].
    apply IsZero_true. cbn.
    induction (Components v) as [|x l IH]; cbn; constructor; [|done].
    Lqa.lra. }
  unfold Normalize, Magnitude. destruct (Dot_self_is_Some v) as [d ->]. cbn.
  destruct (Qeq_bool (Sqrt d) 0); eexists; (split; [done|]).
  - cbn [Components]. rewrite length_replicate. split; [done|]. intros _.
    apply IsZero_true. cbn [Components]. apply Forall_replicate. reflexivity.
  - unfold Scale. cbn [Components]. rewrite length_fmap. split; [done|].
    rewrite !IsZero_true. cbn [Components].
    intros H. apply Forall_fmap. eapply Forall_impl; [exact H|].
    cbn. intros c Hc. rewrite Hc. Lqa.lra.
Qed.

Lemma Vector_IsZero_witness :
  let z := NewVector 3 [0%Q; (0 # 5)%Q] in
  exists u, Normalize sqrt_up z = Some u /\ IsZero u = true /\
    length (Components u) = 2%nat.
Proof.
  intros z.
  destruct (Vector_IsZero sqrt_up z) as (_ & _ & _ & _ & u & Hu & Hlen & Hz).
  exists u. split; [exact Hu|]. split; [by apply Hz|exact Hlen].
Defined.

(** ** The nearest neighbour *)

Lemma sqrt_up_ge x :
  (0 <= x)%Q -> (0 <= sqrt_up x)%Q /\ (x <= sqrt_up x * sqrt_up x)%Q.
Proof.
  destruct x as [n d]. unfold Qle, sqrt_up, Qmult. cbn. intros Hn.
  assert (Hn' : 0 <= n) by lia.
  pose proof (Z.sqrt_up_nonneg (n * Z.pos d)) as H0.
  split; [lia|].
  assert (Hs : n * Z.pos d <= Z.sqrt_up (n * Z.pos d) * Z.sqrt_up (n * Z.pos d)).
  { destruct (Z.eq_dec (n * Z.pos d) 0) as [E|E].
    - rewrite E. cbn. lia.
    - pose proof (Z.sqrt_up_spec (n * Z.pos d)) as Hspec.
      apply Hspec. nia. }
  rewrite Pos2Z.inj_mul. nia.
Qed.

Lemma Qsquare_le a b : (0 <= a)%Q -> (a <= b)%Q -> (a * a <= b * b)%Q.
Proof.
  destruct a as [an ad], b as [bn bd]. unfold Qle, Qmult. cbn.
  intros H0 H. rewrite !Pos2Z.inj_mul.
  assert (HX : 0 <= an * Z.pos bd) by nia.
  assert (HXY : (an * Z.pos bd) * (an * Z.pos bd) <=
                (bn * Z.pos ad) * (bn * Z.pos ad)) by nia.
  nia.
Qed.

(** What nearest returns, for the points [P] it has looked at, from the
    running best [best] at squared distance [bestDist]: a squared distance
    that no point of [P] is below; it is [bestDist], with [best], when no
    point of [P] is below [bestDist], and otherwise that of the node
    returned, whose point is in [P]. *)
Definition near_post (target : Vector) (P : Vector -> Prop)
    (best : node) (bestDist : Q) (best' : node) (d' : Q) : Prop :=
  (d' <= bestDist)%Q /\
  (forall q dq, P q -> squaredDistance q target = Some dq -> (d' <= dq)%Q) /\
  ((best' = best /\ d' = bestDist) \/
   (exists v l r, best' = mk_node v l r /\ P v /\
      squaredDistance v target = Some d' /\ (d' < bestDist)%Q)).

Lemma near_post_trans target (P1 P2 P : Vector -> Prop) b0 d0 b1 d1 b2 d2 :
  (forall q, P q <-> P1 q \/ P2 q) ->
  near_post target P1 b0 d0 b1 d1 -> near_post target P2 b1 d1 b2 d2 ->
  near_post target P b0 d0 b2 d2.
Proof.
  intros HP (Hle1 & Hall1 & Hc1) (Hle2 & Hall2 & Hc2).
  split; [Lqa.lra|]. split.
  - intros q dq [Hq|Hq]%HP Hd.
    + specialize (Hall1 q dq Hq Hd). Lqa.lra.
    + by apply (Hall2 q dq).
  - destruct Hc2 as [[-> ->]|(v & l & r & -> & Hv & Hd & Hlt)].
    + destruct Hc1 as [?|(v & l & r & -> & Hv & Hd & Hlt)]; [by left|].
      right. exists v, l, r. split; [done|]. split; [apply HP; by left|done].
    + right. exists v, l, r. split; [done|]. split; [apply HP; by right|].
      split; [done|]. Lqa.lra.
Qed.

Lemma near_post_skip target (P : Vector -> Prop) b d :
  (forall q dq, P q -> squaredDistance q target = Some dq -> (d <= dq)%Q) ->
  near_post target P b d b d.
Proof. intros H. split; [apply Qle_refl|]. split; [done|by left]. Qed.

Section KDTreeNearest.

Variable sort_Slice : (Vector -> Vector -> bool) -> list Vector -> list Vector.
Hypothesis sort_Slice_Permutation : forall lt l, sort_Slice lt l ≡ₚ l.
Hypothesis sort_Slice_sorted : forall (key : Vector -> Q) l,
  StronglySorted (fun a b => (key a <= key b)%Q)
    (sort_Slice (fun a b => fltb (key a) (key b)) l).

(** The square root, as far as the pruning test needs it: it is not
    negative and not below the exact root. *)
Variable Sqrt : Q -> Q.
Hypothesis Sqrt_ge : forall x, (0 <= x)%Q ->
  (0 <= Sqrt x)%Q /\ (x <= Sqrt x * Sqrt x)%Q.

(** A point on the far side of the splitting plane is at least as far from
    the target as the plane. *)
Lemma far_side k q target axis s t dq bd :
  Z.of_nat (length (Components q)) = k ->
  Z.of_nat (length (Components target)) = k -> 0 <= axis < k ->
  key axis target = t ->
  squaredDistance q target = Some dq ->
  ((t <= s)%Q /\ (s <= key axis q)%Q \/ (s <= t)%Q /\ (key axis q <= s)%Q) ->
  (0 <= bd)%Q -> (Sqrt bd <= Qabs (s - t))%Q ->
  (bd <= dq)%Q.
Proof.
  intros Hq Ht Ha Hkt Hd Hside Hbd Habs.
  destruct (comp_is_Some k q axis Hq Ha) as (x & Hx & Hkx).
  destruct (comp_is_Some k target axis Ht Ha) as (y & Hy & Hky).
  apply at_index_Some in Hx as [_ Hx]. apply at_index_Some in Hy as [_ Hy].
  pose proof (squaredDistance_loop_comp _ _ _ _ _ _ _ Hd Hx Hy) as Hxy.
  destruct (Sqrt_ge bd Hbd) as [Hs0 Hs1].
  rewrite Hkx in Hside. rewrite Hky in Hkt. subst y.
  assert (Hsq : (Sqrt bd * Sqrt bd <= (x - t) * (x - t))%Q).
  { destruct Hside as [[H1 H2]|[H1 H2]].
    - rewrite Qabs_pos in Habs by Lqa.lra.
      apply Qsquare_le; [done|]. Lqa.lra.
    - rewrite Qabs_neg in Habs by Lqa.lra.
      assert (Heq : ((x - t) * (x - t) == (t - x) * (t - x))%Q) by ring.
      rewrite Heq. apply Qsquare_le; [done|]. Lqa.lra. }
  Lqa.lra.
Qed.


Lemma nearest_opt k n target depth best bestDist :
  all_dim k (points n) ->
  Z.of_nat (length (Components target)) = k -> 1 <= k -> 0 <= depth ->
  kd_ordered k n depth -> (0 <= bestDist)%Q ->
  exists best' d',
    nearest Sqrt n target depth best bestDist = Some (best', d') /\
    (0 <= d')%Q /\
    near_post target (fun q => q ∈ points n) best bestDist best' d'.
Proof.
  intros Hdim Ht Hk. revert depth best bestDist.
  induction n as [|v l IHl r IHr]; intros depth best bestDist Hd Hord Hb0.
  { exists best, bestDist. split; [done|]. split; [done|].
    apply near_post_skip. intros q dq Hq. by apply elem_of_nil in Hq. }
  cbn [points] in Hdim. cbn [kd_ordered] in Hord.
  destruct Hord as (Hlo & Hro & Hol & Hor).
  assert (Hv : Z.of_nat (length (Components v)) = k) by (apply Hdim; left).
  assert (Hdl : all_dim k (points l)).
  { intros p Hp. apply Hdim. right. apply elem_of_app. by left. }
  assert (Hdr : all_dim k (points r)).
  { intros p Hp. apply Hdim. right. apply elem_of_app. by right. }
  specialize (IHl Hdl (depth + 1)). specialize (IHr Hdr (depth + 1)).
  pose proof (rem_axis depth k Hd Hk) as Hax.
  cbn [nearest]. rewrite Ht. destruct (Z.eqb_spec k 0); [lia|].
  set (axis := Z.rem depth k) in *.
  destruct (squaredDistance_is_Some k v target Hv Ht) as (dist & Ed & Hd0).
  rewrite Ed. cbn [mbind option_bind].
  destruct (comp_is_Some k target axis Ht Hax) as (t & Et & Hkt).
  destruct (comp_is_Some k v axis Hv Hax) as (s & Es & Hks).
  set (nd := mk_node v l r).
  assert (exists best1 bd1,
    (if fltb dist bestDist then (nd, dist) else (best, bestDist)) = (best1, bd1) /\
    (0 <= bd1)%Q /\
    near_post target (fun q => q = v) best bestDist best1 bd1)
    as (best1 & bd1 & -> & Hb1 & Hp1).
  { destruct (fltb dist bestDist) eqn:Hlt.
    - apply fltb_true in Hlt. exists nd, dist. split; [done|]. split; [done|].
      split; [by apply Qlt_le_weak|]. split.
      + intros q dq -> Hq. assert (dq = dist) as -> by congruence.
        apply Qle_refl.
      + right. by exists v, l, r.
    - apply fltb_false in Hlt. exists best, bestDist.
      split; [done|]. split; [done|]. apply near_post_skip.
      intros q dq -> Hq. by assert (dq = dist) as -> by congruence. }
  rewrite Et, Es. cbn [mbind option_bind].
  assert (Hmem : forall (P1 P2 : Vector -> Prop),
            (forall q, P1 q \/ P2 q <-> q ∈ points l \/ q ∈ points r) ->
            forall q, q ∈ points nd <-> (q = v \/ P1 q) \/ P2 q).
  { intros P1 P2 HP q. unfold nd. cbn [points].
    rewrite elem_of_cons, elem_of_app, <- HP. tauto. }
  destruct (fltb t s) eqn:Hts.
  - apply fltb_true in Hts.
    destruct (IHl best1 bd1) as (best2 & bd2 & -> & Hb2 & Hp2);
      [lia|done|done|].
    cbn [mbind option_bind].
    pose proof (near_post_trans target _ _ (fun q => q = v \/ q ∈ points l)
                  _ _ _ _ _ _ (fun q => iff_refl _) Hp1 Hp2) as Hp12.
    destruct (fltb (Qabs (s - t)) (Sqrt bd2)) eqn:Habs.
    + destruct (IHr best2 bd2) as (best3 & bd3 & -> & Hb3 & Hp3);
        [lia|done|done|].
      exists best3, bd3. split; [done|]. split; [done|].
      eapply near_post_trans; [|exact Hp12|exact Hp3].
      apply Hmem. tauto.
    + apply fltb_false in Habs.
      exists best2, bd2. split; [done|]. split; [done|].
      eapply near_post_trans; [|exact Hp12|apply (near_post_skip target (fun q => q ∈ points r))].
      * apply Hmem. tauto.
      * intros q dq Hq Hdq.
        eapply (far_side k q target axis s t); eauto.
        left. split; [by apply Qlt_le_weak|].
        rewrite <- Hks. by apply Hro.
  - apply fltb_false in Hts.
    destruct (IHr best1 bd1) as (best2 & bd2 & -> & Hb2 & Hp2);
      [lia|done|done|].
    cbn [mbind option_bind].
    pose proof (near_post_trans target _ _ (fun q => q = v \/ q ∈ points r)
                  _ _ _ _ _ _ (fun q => iff_refl _) Hp1 Hp2) as Hp12.
    destruct (fltb (Qabs (s - t)) (Sqrt bd2)) eqn:Habs.
    + destruct (IHl best2 bd2) as (best3 & bd3 & -> & Hb3 & Hp3);
        [lia|done|done|].
      exists best3, bd3. split; [done|]. split; [done|].
      eapply near_post_trans; [|exact Hp12|exact Hp3].
      intros q. unfold nd. cbn [points].
      rewrite elem_of_cons, elem_of_app. tauto.
    + apply fltb_false in Habs.
      exists best2, bd2. split; [done|]. split; [done|].
      eapply near_post_trans; [|exact Hp12|apply (near_post_skip target (fun q => q ∈ points l))].
      * intros q. unfold nd. cbn [points].
        rewrite elem_of_cons, elem_of_app. tauto.
      * intros q dq Hq Hdq.
        eapply (far_side k q target axis s t); eauto.
        right. split; [done|].
        rewrite <- Hks. by apply Hlo.
Qed.

(** X12: FindNearest on the tree BuildKDTree made of points of one
    dimension, for a target of that dimension and a square root that is not
    below the exact one.  When some point is at a squared distance below
    MaxFloat64 it returns a stored point that no stored point is nearer
    than, together with the squared distance of that point, not its
    distance; otherwise, and so for the empty tree, it panics on the nil
    [best]. *)
Theorem FindNearest_nearest (k : Z) (pts : list Vector) (t : KDTree)
    (target : Vector) :
  all_dim k pts -> BuildKDTree sort_Slice pts = Some t ->
  Z.of_nat (length (Components target)) = k ->
  ((exists q dq, q ∈ pts /\ squaredDistance q target = Some dq /\
      (dq < MaxFloat64)%Q) ->
   exists v d,
     FindNearest Sqrt t target = Some (v, d) /\ v ∈ pts /\
     squaredDistance v target = Some d /\
     forall q dq, q ∈ pts -> squaredDistance q target = Some dq ->
       (d <= dq)%Q) /\
  ((forall q dq, q ∈ pts -> squaredDistance q target = Some dq ->
      (MaxFloat64 <= dq)%Q) ->
   FindNearest Sqrt t target = None).
Proof.
  intros Hdim Hbuild Ht.
  destruct (BuildKDTree_ok sort_Slice sort_Slice_Permutation sort_Slice_sorted
              k pts t Hdim Hbuild) as (Hperm & Hne).
  assert (Hin : forall q, q ∈ points (root t) <-> q ∈ pts).
  { intros q. by rewrite Hperm. }
  destruct pts as [|p0 rest].
  { assert (Hnil : points (root t) = []).
    { by apply Permutation_nil_r in Hperm. }
    assert (Hroot : root t = nil_node).
    { destruct (root t); [done|]. cbn in Hnil. done. }
    split.
    - intros (q & _ & Hq & _). by apply elem_of_nil in Hq.
    - intros _. unfold FindNearest. rewrite Hroot. done. }
  destruct Hne as [Hk Hord]; [done|].
  assert (Hdim' : all_dim k (points (root t))).
  { intros q Hq%Hin. by apply Hdim. }
  destruct (nearest_opt k (root t) target 0 nil_node MaxFloat64 Hdim' Ht Hk)
    as (best & d & Hn & Hd0 & Hle & Hall & Hcase); [lia|done|done|].
  unfold FindNearest. rewrite Hn. cbn [mbind option_bind].
  split.
  - intros (q & dq & Hq & Hdq & Hlt).
    destruct Hcase as [[-> ->]|(v & l & r & -> & Hv & Hdv & _)].
    + pose proof (Hall q dq (proj2 (Hin q) Hq) Hdq). Lqa.lra.
    + exists v, d. split; [done|]. split; [by apply Hin|]. split; [done|].
      intros q' dq' Hq'. apply Hall. by apply Hin.
  - intros Hfar.
    destruct Hcase as [[-> ->]|(v & l & r & -> & Hv & Hdv & Hlt)]; [done|].
    pose proof (Hfar v d (proj1 (Hin v) Hv) Hdv). Lqa.lra.
Qed.

End KDTreeNearest.

Lemma FindNearest_nearest_witness :
  let mk i x y := {| vID := i; Components := [x; y] |} in
  let pts := [mk 0 2%Q 3%Q; mk 1 5%Q 4%Q; mk 2 9%Q 6%Q; mk 3 4%Q 7%Q;
              mk 4 8%Q 1%Q; mk 5 7%Q 2%Q] in
  let target := mk 9 6%Q 5%Q in
  exists t v d,
    BuildKDTree insertion_sort pts = Some t /\
    FindNearest sqrt_up t target = Some (v, d) /\
    v = mk 1 5%Q 4%Q /\ (d == 2)%Q /\
    forall q dq, q ∈ pts -> squaredDistance q target = Some dq ->
      (d <= dq)%Q.
Proof.
  intros mk pts target.
  destruct (BuildKDTree insertion_sort pts) as [t|] eqn:Ht;
    [|vm_compute in Ht; discriminate Ht].
  assert (Hdim : all_dim 2 pts).
  { intros p Hp. unfold pts in Hp.
    repeat (apply elem_of_cons in Hp as [->|Hp]; [reflexivity|]).
    by apply elem_of_nil in Hp. }
  destruct (proj1 (FindNearest_nearest insertion_sort
              insertion_sort_Permutation insertion_sort_sorted
              sqrt_up sqrt_up_ge 2 pts t target Hdim Ht eq_refl))
    as (v & d & Hf & _ & _ & Hall).
  { exists (mk 1 5%Q 4%Q), 2%Q. split; [right; left|].
    split; [reflexivity|reflexivity]. }
  exists t, v, d. split; [reflexivity|]. split; [exact Hf|].
  vm_compute in Ht. injection Ht as <-.
  vm_compute in Hf. injection Hf as <- <-.
  split; [reflexivity|]. split; [reflexivity|]. exact Hall.
Defined.

(** ** The range query, exactly *)

Lemma in_range_within center radius p :
  in_range center radius p = true <-> within p center radius.
Proof.
  unfold in_range, within. destruct (squaredDistance p center) as [d|].
  - rewrite fleb_true. split; [eauto|]. by intros (d' & [= <-] & ?).
  - split; [done|]. by intros (d' & ? & _).
Qed.

Lemma filter_none {A} (P : A -> Prop) `{forall x, Decision (P x)} (l : list A) :
  (forall x, x ∈ l -> ~ P x) -> filter P l = [].
Proof.
  induction l as [|x l IH]; intros Hl; [done|].
  rewrite filter_cons_False by (apply Hl; left).
  apply IH. intros y Hy. apply Hl. by right.
Qed.

Section KDTreeRange.

Variable sort_Slice : (Vector -> Vector -> bool) -> list Vector -> list Vector.
Hypothesis sort_Slice_Permutation : forall lt l, sort_Slice lt l ≡ₚ l.
Hypothesis sort_Slice_sorted : forall (key : Vector -> Q) l,
  StronglySorted (fun a b => (key a <= key b)%Q)
    (sort_Slice (fun a b => fltb (key a) (key b)) l).

Lemma rangeQuery_filter k n center radius depth :
  kd_ordered k n depth -> all_dim k (points n) ->
  Z.of_nat (length (Components center)) = k -> 1 <= k -> 0 <= depth ->
  (0 <= radius)%Q ->
  rangeQuery n center radius depth =
    Some (filter (fun p => in_range center radius p = true) (points n)).
Proof.
  intros Hord Hdim Hc Hk Hd Hr. revert depth Hord Hd.
  induction n as [|v l IHl r IHr]; intros depth Hord Hd; [done|].
  cbn [kd_ordered] in Hord. destruct Hord as (Hlo & Hro & Hordl & Hordr).
  cbn [points] in Hdim.
  assert (Hv : Z.of_nat (length (Components v)) = k) by (apply Hdim; left).
  assert (Hdl : all_dim k (points l)).
  { intros p Hp. apply Hdim. right. apply elem_of_app. by left. }
  assert (Hdr : all_dim k (points r)).
  { intros p Hp. apply Hdim. right. apply elem_of_app. by right. }
  specialize (IHl Hdl (depth + 1) Hordl ltac:(lia)).
  specialize (IHr Hdr (depth + 1) Hordr ltac:(lia)).
  pose proof (rem_axis depth k Hd Hk) as Hax.
  cbn [rangeQuery]. rewrite Hv. destruct (Z.eqb_spec k 0); [lia|].
  set (axis := Z.rem depth k) in *.
  destruct (squaredDistance_is_Some k v center Hv Hc) as (d & Ed & Hd0).
  rewrite Ed. cbn [mbind option_bind].
  destruct (comp_is_Some k center axis Hc Hax) as (c & Ec & Hkc).
  destruct (comp_is_Some k v axis Hv Hax) as (s & Es & Hks).
  rewrite IHl, IHr, Ec, Es. cbn [mbind option_bind points].
  set (P := fun p => in_range center radius p = true).
  set (base := if fleb d (radius * radius) then [v] else []).
  assert (Hbase : filter P [v] = base).
  { unfold base. destruct (fleb d (radius * radius)) eqn:Hle.
    - rewrite filter_cons_True; [done|]. unfold P, in_range. by rewrite Ed.
    - rewrite filter_cons_False; [done|]. unfold P, in_range.
      rewrite Ed, Hle. done. }
  change (v :: points l ++ points r) with ([v] ++ points l ++ points r).
  rewrite !filter_app, Hbase.
  assert (Hl : (s < c - radius)%Q -> filter P (points l) = []).
  { intros Hlt. apply filter_none. intros p Hp Hw%in_range_within.
    pose proof (Hlo p Hp) as Hps.
    destruct (within_axis k p center radius axis) as [Hlow _]; auto.
    rewrite Hkc, Hks in *. Lqa.lra. }
  assert (Hrn : (c + radius < s)%Q -> filter P (points r) = []).
  { intros Hlt. apply filter_none. intros p Hp Hw%in_range_within.
    pose proof (Hro p Hp) as Hps.
    destruct (within_axis k p center radius axis) as [_ Hhigh]; auto.
    rewrite Hkc, Hks in *. Lqa.lra. }
  assert (Hnil : filter P (points nil_node) = []) by done.
  destruct (fleb (c - radius) s) eqn:H1;
    [clear Hl|apply fleb_false in H1; specialize (Hl H1)];
    (destruct (fleb s (c + radius)) eqn:H2;
      [clear Hrn|apply fleb_false in H2; specialize (Hrn H2)]);
    destruct l as [|lv ll lr]; destruct r as [|rv rl rr];
    cbn [mbind option_bind]; f_equal;
    rewrite ?Hnil, ?Hl, ?Hrn, ?app_nil_r, <- ?app_assoc; done.
Qed.

(** X13: for a radius that is not negative, RangeQuery on the tree
    BuildKDTree made of points of one dimension returns the stored points
    that pass the test [squaredDistance(p, center) <= radius*radius], each
    as often as it is stored: the points of the tree in the order node,
    left subtree, right subtree, with those that fail the test left out. *)
Theorem RangeQuery_filter (k : Z) (pts : list Vector) (t : KDTree)
    (center : Vector) (radius : Q) :
  all_dim k pts -> Z.of_nat (length (Components center)) = k ->
  BuildKDTree sort_Slice pts = Some t -> (0 <= radius)%Q ->
  exists res,
    RangeQuery t center radius = Some res /\
    res = filter (fun p => in_range center radius p = true)
            (points (root t)) /\
    res ≡ₚ filter (fun p => in_range center radius p = true) pts.
Proof.
  intros Hdim Hc Ht Hr.
  destruct (BuildKDTree_ok sort_Slice sort_Slice_Permutation sort_Slice_sorted
              k pts t Hdim Ht) as [Hp Hne].
  eexists. split; [|split; [done|by rewrite Hp]].
  destruct pts as [|v0 rest].
  { apply Permutation_nil_r in Hp. unfold RangeQuery.
    destruct (root t); [done|]. cbn in Hp. done. }
  destruct Hne as [Hk Hord]; [done|].
  apply (rangeQuery_filter k); try done.
  intros p. rewrite Hp. apply Hdim.
Qed.

End KDTreeRange.

Lemma RangeQuery_filter_witness :
  let mk i x y := {| vID := i; Components := [x; y] |} in
  let pts := [mk 0 1%Q 2%Q; mk 1 3%Q 4%Q; mk 2 5%Q 6%Q; mk 3 7%Q 8%Q;
              mk 4 3%Q 4%Q] in
  let center := mk 9 4%Q 5%Q in
  exists t res,
    BuildKDTree insertion_sort pts = Some t /\
    RangeQuery t center 2%Q = Some res /\
    res ≡ₚ [mk 1 3%Q 4%Q; mk 2 5%Q 6%Q; mk 4 3%Q 4%Q].
Proof.
  intros mk pts center.
  destruct (BuildKDTree insertion_sort pts) as [t|] eqn:Ht;
    [|vm_compute in Ht; discriminate Ht].
  assert (Hdim : all_dim 2 pts).
  { intros p Hp. unfold pts in Hp.
    repeat (apply elem_of_cons in Hp as [->|Hp]; [reflexivity|]).
    by apply elem_of_nil in Hp. }
  destruct (RangeQuery_filter insertion_sort insertion_sort_Permutation
              insertion_sort_sorted 2 pts t center 2%Q Hdim eq_refl Ht)
    as (res & Hres & _ & Hperm); [done|].
  exists t, res. split; [reflexivity|]. split; [exact Hres|].
  rewrite Hperm. reflexivity.
Defined.

(** ** The k-d tree at its edges *)

(** X14: the empty slice builds the empty tree; on it RangeQuery returns no
    point and FindNearest panics, dereferencing the nil [best].  BuildKDTree
    panics, dividing by zero, when the first vector has no component, and so
    does FindNearest on a tree that is not empty for a target with no
    component; RangeQuery on a tree that is not empty panics, indexing out
    of range, for a center with fewer components than the root. *)
Theorem KDTree_edge_cases
    (sort_Slice : (Vector -> Vector -> bool) -> list Vector -> list Vector)
    (Sqrt : Q -> Q) :
  BuildKDTree sort_Slice [] = Some {| root := nil_node |} /\
  (forall center radius,
     RangeQuery {| root := nil_node |} center radius = Some []) /\
  (forall target, FindNearest Sqrt {| root := nil_node |} target = None) /\
  (forall v0 rest, Components v0 = [] ->
     BuildKDTree sort_Slice (v0 :: rest) = None) /\
  (forall v l r target, Components target = [] ->
     FindNearest Sqrt {| root := mk_node v l r |} target = None) /\
  (forall v l r center radius,
     (length (Components center) < length (Components v))%nat ->
     RangeQuery {| root := mk_node v l r |} center radius = None).
Proof.
  split; [done|]. split; [done|]. split; [done|]. split.
  { intros v0 rest Hv. unfold BuildKDTree. cbn. by rewrite Hv. }
  split.
  { intros v l r target Ht. unfold FindNearest. cbn. by rewrite Ht. }
  intros v l r center radius Hlt. unfold RangeQuery. cbn [root rangeQuery].
  destruct (Z.eqb_spec (Z.of_nat (length (Components v))) 0); [done|].
  assert (E : squaredDistance v center = None).
  { apply squaredDistance_loop_None. lia. }
  by rewrite E.
Qed.

Lemma KDTree_edge_cases_witness :
  let v := {| vID := 0; Components := [1%Q; 2%Q] |} in
  BuildKDTree insertion_sort [ {| vID := 0; Components := [] |}; v ] = None /\
  FindNearest sqrt_up {| root := mk_node v nil_node nil_node |}
    {| vID := 1; Components := [] |} = None /\
  RangeQuery {| root := mk_node v nil_node nil_node |}
    {| vID := 1; Components := [1%Q] |} 5%Q = None.
Proof.
  intros v.
  destruct (KDTree_edge_cases insertion_sort sqrt_up)
    as (_ & _ & _ & Hb & Hf & Hr).
  split; [by apply Hb|]. split; [by apply Hf|]. apply Hr. cbn. lia.
Defined.

Section KDTreeBuild.

Variable sort_Slice : (Vector -> Vector -> bool) -> list Vector -> list Vector.
Hypothesis sort_Slice_Permutation : forall lt l, sort_Slice lt l ≡ₚ l.
Hypothesis sort_Slice_sorted : forall (key : Vector -> Q) l,
  StronglySorted (fun a b => (key a <= key b)%Q)
    (sort_Slice (fun a b => fltb (key a) (key b)) l).

(** X15: on vectors that all have the same number [k >= 1] of components
    BuildKDTree returns, and the tree holds the vectors it was given, each
    as often as it was given, the left subtree of every node not above the
    node and the right subtree not below it along the axis of its depth. *)
Theorem BuildKDTree_stores (k : Z) (pts : list Vector) :
  all_dim k pts -> 1 <= k ->
  exists t, BuildKDTree sort_Slice pts = Some t /\
    points (root t) ≡ₚ pts /\ kd_ordered k (root t) 0 /\
    length (points (root t)) = length pts.
Proof.
  intros Hdim Hk.
  destruct (build_ok sort_Slice sort_Slice_Permutation sort_Slice_sorted
              k (length pts) pts 0) as (n & Hn & Hp & Hord); [done..|].
  exists {| root := n |}. unfold BuildKDTree. rewrite Hn.
  split; [done|]. split; [done|]. split; [done|]. by rewrite Hp.
Qed.

End KDTreeBuild.

Lemma BuildKDTree_stores_witness :
  let mk i x y := {| vID := i; Components := [x; y] |} in
  let pts := [mk 0 2%Q 3%Q; mk 1 5%Q 4%Q; mk 2 9%Q 6%Q; mk 3 5%Q 4%Q] in
  exists t, BuildKDTree insertion_sort pts = Some t /\
    points (root t) ≡ₚ pts /\ length (points (root t)) = 4%nat.
Proof.
  intros mk pts.
  assert (Hdim : all_dim 2 pts).
  { intros p Hp. unfold pts in Hp.
    repeat (apply elem_of_cons in Hp as [->|Hp]; [reflexivity|]).
    by apply elem_of_nil in Hp. }
  destruct (BuildKDTree_stores insertion_sort insertion_sort_Permutation
              insertion_sort_sorted 2 pts Hdim) as (t & Ht & Hp & _ & Hl);
    [lia|].
  exists t. done.
Defined.

(** ** Runs on small graphs *)

Lemma Built_AddNodes g ns : Built g -> Built (AddNodes g ns).
Proof.
  intros Hg. induction ns as [|n ns IH] using rev_ind; [done|].
  rewrite AddNodes_snoc. by constructor.
Qed.

Lemma roads_Built n es g :
  Forall (fun '(a, b, _, _) => in_int32 a /\ in_int32 b) es ->
  roads n es = Some g -> Built g.
Proof.
  unfold roads. revert g.
  induction es as [|[[[a b] w] d] es IH] using rev_ind; intros g Hes.
  - intros [= <-]. apply Built_AddNodes. constructor.
  - apply Forall_app in Hes as [Hes [[Ha Hb] _]%Forall_cons].
    rewrite foldl_app. cbn [foldl].
    intros (g0 & Hg0 & Hrel)%bind_Some.
    eapply Built_RelateNodes; [by apply IH| | |exact Hrel]; done.
Qed.

Lemma roads_default_Built n es :
  Forall (fun '(a, b, _, _) => in_int32 a /\ in_int32 b) es ->
  Built (default EmptyGraph (roads n es)).
Proof.
  intros Hes. destruct (roads n es) as [g|] eqn:E; cbn.
  - by eapply roads_Built.
  - constructor.
Qed.

Lemma nonneg_weightsb_true g :
  nonneg_weightsb g = true -> nonneg_weights g.
Proof.
  unfold nonneg_weightsb. rewrite forallb_forall.
  intros H u e (es & [_ Hes]%at_index_Some & He).
  apply list_elem_of_lookup_2, list_elem_of_In in Hes.
  specialize (H es Hes). rewrite forallb_forall in H.
  apply Qle_bool_iff, H. by apply list_elem_of_In.
Qed.

Lemma valid_id_check g (l : list Z) :
  forallb (fun s => (0 <=? s) && (s <? Z.of_nat (length (Nodes g))) &&
                    (- 2 ^ 31 <=? s) && (s <? 2 ^ 31)) l = true ->
  forall s, s ∈ l -> valid_id g s.
Proof.
  rewrite forallb_forall. intros H s Hs%list_elem_of_In.
  specialize (H s Hs).
  apply andb_true_iff in H as [H H4]. apply andb_true_iff in H as [H H3].
  apply andb_true_iff in H as [H1 H2].
  unfold valid_id, has_node, in_int32. lia.
Qed.

Ltac check_roads :=
  apply roads_default_Built;
  repeat (constructor; [cbn; unfold in_int32; lia|]); constructor.

Lemma triangle_Built : Built triangle.
Proof. check_roads. Qed.

Lemma chain_Built : Built chain.
Proof. check_roads. Qed.

(** ** More on the engine *)

(** X16: NewDijkstra panics exactly when a source id is negative (the bitset
    of the sources refuses the index).  Otherwise the engine it returns holds
    one queue entry of cost 0 per source, the cost 0 for every source and no
    other cost, no visited node, an empty tree, and the first target, or -1
    when there is none.  With no source Run returns at once, whatever the
    graph: an empty tree and no cost. *)
Theorem NewDijkstra_sources (c : Criteria) :
  (is_Some (NewDijkstra c) <-> Forall (fun s => 0 <= s) (Source c)) /\
  (forall search, NewDijkstra c = Some search ->
     items (pq search) ≡ₚ source_entry <$> Source c /\
     (forall v, costs search !! v =
                if decide (v ∈ Source c) then Some 0%Q else None) /\
     visited search = 0 /\ previous search = EmptyGraph /\
     target search = match Targets c with t :: _ => t | [] => -1 end) /\
  (Source c = [] ->
   forall g, exists search,
     NewDijkstra c = Some search /\
     Run search g = Some {| SearchSpace := EmptyGraph; Costs := ∅ |}).
Proof.
  rewrite NewDijkstra_add_sources. split; [|split].
  - split.
    + intros [search H]. by apply add_sources_spec in H as (_ & _ & _ & _ & _ & _ & ?).
    + apply add_sources_is_Some.
  - intros search H.
    apply add_sources_spec in H as (_ & Hp & Hc & Hv & Hprev & Ht & _).
    done.
  - intros -> g. eexists. split; [reflexivity|].
    unfold Run, Run_fuel. cbn [pq items Create length Nat.add].
    by destruct (sum_list _).
Qed.

Lemma NewDijkstra_sources_witness :
  exists search,
    NewDijkstra {| Source := []; Targets := [3] |} = Some search /\
    Run search EmptyGraph = Some {| SearchSpace := EmptyGraph; Costs := ∅ |}.
Proof.
  exact (proj2 (proj2 (NewDijkstra_sources {| Source := []; Targets := [3] |}))
           eq_refl EmptyGraph).
Defined.

(** X17: on a graph built with AddNode and RelateNodes, with no negative
    weight, and for valid sources, the tree Run returns has its three
    collections of one length, holds every node of the graph at most once
    (so it is no larger than the graph), and the cost recorded for each of
    its nodes is final: it is the least weight of a path from a source, also
    when Run returned early at the target.  Every recorded cost lies in
    [0, INFINITE) and belongs to a node of the graph, and every source is
    recorded at cost 0. *)
Theorem Run_tree_final g c :
  Built g -> nonneg_weights g ->
  (forall s, s ∈ Source c -> valid_id g s) ->
  exists search r,
    NewDijkstra c = Some search /\ Run search g = Some r /\
    aligned (SearchSpace r) /\
    NoDup (Rank <$> Nodes (SearchSpace r)) /\
    (length (Nodes (SearchSpace r)) <= length (Nodes g))%nat /\
    (forall j n, Nodes (SearchSpace r) !! j = Some n ->
       has_node g (Rank n) /\
       exists x, Costs r !! Rank n = Some x /\
                 shortest g (Source c) (Rank n) x) /\
    (forall v x, Costs r !! v = Some x ->
       (0 <= x)%Q /\ (x < INFINITE)%Q /\ has_node g v) /\
    (forall s, s ∈ Source c -> Costs r !! s = Some 0%Q).
Proof.
  intros Hb Hn Hv.
  destruct (Run_returns g c Hb Hn Hv)
    as (search & st' & Hnew & Hrun & _ & Ht & _ & (pend & Hinv) & _).
  exists search, (response st'). split; [done|]. split; [done|].
  cbn [response SearchSpace Costs].
  assert (Hnode : forall j n, Nodes (previous (engine st')) !! j = Some n ->
            has_node g (Rank n) /\
            exists x, costs (engine st') !! Rank n = Some x /\
                      shortest g (Source c) (Rank n) x).
  { intros j n Hj. destruct (t_nodes _ _ _ Ht j n Hj) as [_ Hvis].
    destruct (proj2 (inv_visited _ _ _ _ Hinv) _ Hvis) as [x Hx].
    destruct (inv_cost _ _ _ _ Hinv _ _ Hx) as (_ & _ & [Hh _] & _).
    split; [done|]. exists x. split; [done|].
    by eapply visited_is_shortest. }
  split; [apply (t_aligned _ _ _ Ht)|].
  split; [apply (t_nodup _ _ _ Ht)|].
  split; [|split; [done|split]].
  - assert (Hsub : Rank <$> Nodes (previous (engine st')) ⊆+
                   seqZ 0 (Z.of_nat (length (Nodes g)))).
    { apply NoDup_submseteq; [apply (t_nodup _ _ _ Ht)|].
      intros x (n & -> & [j Hj]%list_elem_of_lookup)%list_elem_of_fmap.
      destruct (Hnode j n Hj) as [[? ?] _]. apply elem_of_seqZ. lia. }
    apply submseteq_length in Hsub.
    rewrite length_seqZ, length_fmap in Hsub. lia.
  - intros v x Hx.
    by destruct (inv_cost _ _ _ _ Hinv _ _ Hx) as (? & ? & [? _] & _).
  - intros s Hs. by apply (inv_src _ _ _ _ Hinv).
Qed.

Lemma Run_tree_final_witness :
  exists search r,
    NewDijkstra {| Source := [0]; Targets := [1] |} = Some search /\
    Run search triangle = Some r /\
    aligned (SearchSpace r) /\
    NoDup (Rank <$> Nodes (SearchSpace r)) /\
    (length (Nodes (SearchSpace r)) <= length (Nodes triangle))%nat /\
    (forall j n, Nodes (SearchSpace r) !! j = Some n ->
       has_node triangle (Rank n) /\
       exists x, Costs r !! Rank n = Some x /\
                 shortest triangle [0] (Rank n) x) /\
    (forall v x, Costs r !! v = Some x ->
       (0 <= x)%Q /\ (x < INFINITE)%Q /\ has_node triangle v) /\
    (forall s, s ∈ [0] -> Costs r !! s = Some 0%Q).
Proof.
  apply (Run_tree_final triangle {| Source := [0]; Targets := [1] |}
           triangle_Built
           (nonneg_weightsb_true triangle eq_refl)
           (valid_id_check triangle [0] eq_refl)).
Defined.

(** ** The tree Run builds, node by node *)

(** The tree after addPrevious: one more node, for the head of the queue,
    and one more incoming entry, empty or holding the edge from the
    predecessor. *)
Lemma addPrevious_tree s s1 cid1 :
  addPrevious s = Some (s1, cid1) ->
  exists m err, Min (pq s) = Some (m, err) /\
    cid1 = int32 (Z.of_nat (length (Nodes (previous s)))) /\
    Nodes (previous s1) =
      Nodes (previous s) ++ [{| ID := cid1; Location := 0; Rank := Value m |}] /\
    if Previous m =? cid1
    then IncomingEdges (previous s1) = IncomingEdges (previous s) ++ [[]]
    else exists es,
      at_index (IncomingEdges (previous s) ++ [[]]) cid1 = Some es /\
      IncomingEdges (previous s1) =
        <[Z.to_nat cid1 :=
            es ++ [mkEdge (Previous m) (Cost m)
                     {| Speed := 0; Distance := Dist m; RoadType := "" |}]]>
          (IncomingEdges (previous s) ++ [[]]).
Proof.
  unfold addPrevious. intros H.
  apply bind_Some in H as ([m err] & HMin & H). exists m, err.
  split; [done|]. unfold AddNode in H. cbn [Rank Location] in H.
  apply bind_Some in H as (prev' & Hrel & H). simplify_eq. cbn [previous].
  split; [done|].
  destruct (Previous m =? _) eqn:E; cbn [negb] in Hrel.
  - by simplify_eq.
  - unfold RelateNodes in Hrel. cbn [ID] in Hrel.
    apply bind_Some in Hrel as (g1 & Hout & Hin).
    unfold addOutgoingEdge in Hout.
    apply bind_Some in Hout as (es0 & _ & Hout).
    apply bind_Some in Hout as (out & _ & Hout). simplify_eq.
    unfold addIncomingEdge in Hin. cbn [IncomingEdges Nodes] in Hin.
    apply bind_Some in Hin as (es & Hes & Hin).
    apply bind_Some in Hin as (inc & Hinc & Hin). simplify_eq.
    cbn [Nodes IncomingEdges]. split; [done|].
    exists es. split; [done|].
    by apply set_index_Some in Hinc as [_ ->].
Qed.

(** One iteration of Run: the head [m] of the queue is marked, and a tree
    node is added for it when it was not marked before; the iteration
    returns exactly when [m] is the target. *)
Lemma Run_body_cases st cid o :
  Run_body st cid = Some o ->
  exists m err s1 cid1,
    Min (pq (engine st)) = Some (m, err) /\ 0 <= Value m /\
    (if Z.testbit (visited (engine st)) (Value m)
     then s1 = engine st /\ cid1 = cid
     else addPrevious (engine st) = Some (s1, cid1)) /\
    previous (engine (outcome_state o)) = previous s1 /\
    visited (engine (outcome_state o)) =
      Z.setbit (visited (engine st)) (Value m) /\
    match o with
    | Return _ => 0 <= target (engine st) /\ Value m = target (engine st)
    | Continue _ c =>
        c = cid1 /\
        ~ (0 <= target (engine st) /\ Value m = target (engine st))
    end.
Proof.
  unfold Run_body. intros H.
  apply bind_Some in H as ([m err] & HMin & H). exists m, err.
  apply bind_Some in H as (seen & Hseen & H).
  unfold wasVisited, Exists in Hseen.
  destruct (Z.ltb_spec (Value m) 0); [done|]. simplify_eq.
  apply bind_Some in H as ([s1 cid1] & E1 & H). exists s1, cid1.
  split; [done|]. split; [done|].
  assert (Hfr : visited s1 = visited (engine st) /\
                target s1 = target (engine st)).
  { destruct (Z.testbit _ _); cbn [negb] in E1.
    - by simplify_eq.
    - apply addPrevious_frame in E1. tauto. }
  destruct Hfr as [Hv1 Ht1].
  split.
  { destruct (Z.testbit _ _); cbn [negb] in E1; [by simplify_eq|done]. }
  apply bind_Some in H as (vis & Hvis & H).
  unfold Set_ in Hvis. destruct (Z.ltb_spec (Value m) 0); [done|].
  simplify_eq. unfold reachTarget in H. cbn [target] in H. rewrite Ht1, Hv1 in H.
  destruct ((0 <=? target (engine st)) && (Value m =? target (engine st)))
    eqn:Hreach.
  - simplify_eq. cbn. split; [done|]. split; [done|].
    apply andb_true_iff in Hreach as [?%Z.leb_le ?%Z.eqb_eq]. done.
  - apply bind_Some in H as (es & _ & H).
    apply bind_Some in H as (s2 & E2 & H).
    apply relax_edges_frame in E2 as (Hv2 & Hp2 & _). cbn in Hv2, Hp2.
    apply bind_Some in H as ([pq' err'] & _ & H). simplify_eq. cbn.
    split; [done|]. split; [done|]. split; [done|].
    intros [?%Z.leb_le ?%Z.eqb_eq]. rewrite andb_false_iff in Hreach.
    destruct Hreach; congruence.
Qed.

Section DijkstraTree.

Variable g : Graph.
Variable srcs : list Z.
Hypothesis g_wf : wf g.
Hypothesis g_nonneg : nonneg_weights g.
Hypothesis srcs_valid : forall s, s ∈ srcs -> valid_id g s.

(** A property [J] of the engine kept by every iteration that goes on holds
    when the queue is exhausted; otherwise what the returning iteration
    establishes, [R], holds. *)
Lemma Run_loop_extra (J : DijkstraSearch -> Prop) (R : State -> Prop) :
  (forall st cid o, graph st = g -> inv g srcs no_pend (engine st) ->
     tinv g srcs (engine st) -> isFinished (engine st) = false ->
     J (engine st) -> Run_body st cid = Some o ->
     match o with
     | Return st' => R st'
     | Continue st' _ => J (engine st')
     end) ->
  forall fuel st cid r st',
    graph st = g -> inv g srcs no_pend (engine st) ->
    tinv g srcs (engine st) -> J (engine st) ->
    Run_loop fuel st cid = Some (r, st') ->
    (inv g srcs no_pend (engine st') /\ items (pq (engine st')) = [] /\
     J (engine st')) \/ R st'.
Proof.
  intros Hstep.
  induction fuel as [|fuel IH]; intros st cid r st' Hg Hinv Ht HJ H;
    cbn [Run_loop] in H; destruct (isFinished (engine st)) eqn:Hfin;
    try discriminate;
    try (simplify_eq; left; split; [done|]; split; [|done];
         by apply (IsEmpty_items _ (inv_heap _ _ _ _ Hinv))).
  apply bind_Some in H as (o & Hbody & H).
  pose proof (Hstep _ _ _ Hg Hinv Ht Hfin HJ Hbody) as HJ'.
  destruct (Run_body_ok g srcs g_wf g_nonneg st cid Hg Hinv Ht Hfin)
    as (o' & Ho' & Hg' & Ht' & _ & Hrest).
  assert (o' = o) as -> by congruence.
  destruct o as [st1|st1 cid1]; cbn [outcome_state] in *.
  - simplify_eq. by right.
  - destruct Hrest as [Hinv' _]. by eapply IH.
Qed.

(** At the head of the loop the target has not been visited. *)
Definition target_open (s : DijkstraSearch) : Prop :=
  0 <= target s -> Z.testbit (visited s) (target s) = false.

(** The node the tree ends with stands for the target. *)
Definition target_last (st : State) : Prop :=
  exists n, last (Nodes (previous (engine st))) = Some n /\
            Rank n = target (engine st).

Lemma tree_step st cid o :
  graph st = g -> inv g srcs no_pend (engine st) ->
  tinv g srcs (engine st) -> isFinished (engine st) = false ->
  tree_in (previous (engine st)) /\ target_open (engine st) ->
  Run_body st cid = Some o ->
  match o with
  | Return st' => tree_in (previous (engine st')) /\ target_last st'
  | Continue st' _ => tree_in (previous (engine st')) /\ target_open (engine st')
  end.
Proof.
  intros Hg Hinv Ht Hfin [Hin Hopen] Hbody.
  pose proof (Run_body_frame _ _ _ Hbody) as (_ & _ & Htg).
  destruct (Run_body_cases _ _ _ Hbody)
    as (m & err & s1 & cid1 & HMin & Hm0 & Hs1 & Hprev & Hvis & Ho).
  assert (Hne : items (pq (engine st)) <> []).
  { intros E. apply (IsEmpty_items _ (inv_heap _ _ _ _ Hinv)) in E.
    unfold isFinished in Hfin. congruence. }
  destruct (Min_inv _ _ _ HMin (inv_heap _ _ _ _ Hinv) Hne)
    as (_ & Hm & Hmin & _).
  assert (Htree : tree_in (previous s1) /\
            (Z.testbit (visited (engine st)) (Value m) = false ->
             exists n, last (Nodes (previous s1)) = Some n /\
                       Rank n = Value m)).
  { destruct (Z.testbit (visited (engine st)) (Value m)) eqn:Hseen.
    - destruct Hs1 as [-> _]. done.
    - destruct (addPrevious_tree _ _ _ Hs1)
        as (m' & err' & HMin' & Hcid & Hnodes & Hinc).
      assert (m' = m) as -> by congruence.
      destruct (head_valid g srcs g_wf _ _ Hinv Hm) as [Hvalid _].
      pose proof (tree_size g srcs _ _ Hinv Ht Hvalid Hseen) as Hsize.
      rewrite int32_small in Hcid by lia.
      destruct (entry_ok_previous g srcs _ _ Ht (t_entries _ _ _ Ht _ Hmin))
        as [Hp Hp0].
      destruct (t_aligned _ _ _ Ht) as [_ Hlen].
      split.
      2:{ intros _. rewrite Hnodes, last_snoc. eauto. }
      destruct (Z.eqb_spec (Previous m) cid1) as [Heq|Hneq].
      + unfold tree_in. rewrite Hinc. intros j es Hj.
        apply lookup_app_Some in Hj as [Hj|[Hj1 Hj2]]; [by apply Hin|].
        apply list_lookup_singleton_Some in Hj2 as [Hj2 <-].
        destruct (Hp0 ltac:(lia)) as [_ H0].
        assert (j = 0%nat) as -> by lia. done.
      + destruct Hinc as (es0 & Hes0 & Hinc).
        unfold tree_in. rewrite Hinc. clear Hinc. subst cid1.
        apply at_index_Some in Hes0 as [_ Hes0].
        rewrite Nat2Z.id, <- Hlen in *.
        rewrite lookup_app_r, Nat.sub_diag in Hes0 by lia.
        cbn in Hes0. simplify_eq. cbn [app].
        intros j es Hj.
        destruct (decide (j = length (IncomingEdges (previous (engine st)))))
          as [->|Hne'].
        * assert (Hes : Some es = Some [mkEdge (Previous m) (Cost m)
                    {| Speed := 0; Distance := Dist m; RoadType := "" |}]).
          { rewrite <- Hj. apply list_lookup_insert_eq.
            rewrite length_app. cbn. lia. }
          clear Hj. simplify_eq.
          destruct (length (IncomingEdges (previous (engine st)))) eqn:El;
            [lia|].
          eexists. split; [done|]. cbn. lia.
        * assert (Hj' : (IncomingEdges (previous (engine st)) ++ [[]]) !! j
                          = Some es).
          { rewrite <- Hj. symmetry. apply list_lookup_insert_ne. lia. }
          clear Hj.
          apply lookup_app_Some in Hj' as [Hj|[Hj1 Hj2]]; [by apply Hin|].
          apply list_lookup_singleton_Some in Hj2 as [Hj2 _]. lia. }
  destruct Htree as [Hin1 Hlast]. rewrite <- Hprev in Hin1, Hlast.
  destruct o as [st'|st' cid']; cbn [outcome_state] in *.
  - split; [done|]. destruct Ho as [Ht0 Heq].
    unfold target_last. rewrite Htg, <- Heq. apply Hlast.
    specialize (Hopen Ht0). by rewrite <- Heq in Hopen.
  - split; [done|]. destruct Ho as [_ Hno].
    unfold target_open. rewrite Htg, Hvis. intros Ht0.
    rewrite Z.setbit_neq; [by apply Hopen|done|]. intros E. apply Hno. done.
Qed.

(** Run on the engine NewDijkstra made for the sources: the tree has one
    incoming edge per node but the first, and when the target [t] has got a
    cost, the tree ends with its node. *)
Lemma Run_spec_tree t search :
  add_sources t srcs = Some search ->
  exists st',
    Run_loop (Run_fuel search g) {| graph := g; engine := search |} 0 =
      Some (response st', st') /\
    loop_post g srcs search st' /\
    tree_in (previous (engine st')) /\
    (forall x, costs (engine st') !! t = Some x ->
       exists n, last (Nodes (previous (engine st'))) = Some n /\ Rank n = t).
Proof.
  intros Hs.
  destruct (Run_spec g srcs g_wf g_nonneg srcs_valid t search Hs)
    as (st' & Hrun & Hpost).
  exists st'. split; [done|]. split; [done|].
  pose proof (add_sources_spec _ _ _ Hs) as (_ & _ & _ & Hv0 & Hp0 & Ht0 & _).
  destruct Hpost as (_ & _ & Htg & _).
  assert (H0 : tree_in (previous search) /\ target_open search).
  { rewrite Hp0. split.
    - intros j es Hj. cbn in Hj. by destruct j.
    - intros _. rewrite Hv0. apply Z.bits_0. }
  destruct (Run_loop_extra
              (fun s => tree_in (previous s) /\ target_open s)
              (fun st => tree_in (previous (engine st)) /\ target_last st)
              tree_step _ {| graph := g; engine := search |} 0 _ _ eq_refl
              (inv_init g srcs srcs_valid _ _ Hs) (tinv_init g srcs _ _ Hs)
              H0 Hrun)
    as [(Hinv & Hnil & Hin & Hopen)|[Hin (n & Hn & Hr)]].
  - split; [done|]. intros x Hx.
    destruct (inv_cost _ _ _ _ Hinv _ _ Hx) as (_ & _ & [[Hge _] _] & _).
    unfold target_open in Hopen. rewrite Htg, Ht0 in Hopen.
    destruct (inv_queued _ _ _ _ Hinv _ _ Hx (Hopen Hge)) as (y & Hy & _).
    rewrite Hnil in Hy. by apply elem_of_nil in Hy.
  - split; [done|]. intros x _. exists n. split; [done|]. congruence.
Qed.

End DijkstraTree.

(** ** PathCoord *)

Section PathCoordFacts.

Variable LngDegrees LatDegrees : Z -> float64.


(** More fuel does not change what the loop returns. *)
Lemma PathCoord_loop_mono sp g fuel : forall fuel' queue result r,
  PathCoord_loop LngDegrees LatDegrees fuel sp g queue result = Some r ->
  (fuel <= fuel')%nat ->
  PathCoord_loop LngDegrees LatDegrees fuel' sp g queue result = Some r.
Proof.
  induction fuel as [|fuel IH]; intros fuel' queue result r H Hle;
    destruct queue as [|nodeID queue]; cbn [PathCoord_loop] in *;
    try discriminate; try (by destruct fuel').
  destruct fuel' as [|fuel']; [lia|]. cbn [PathCoord_loop].
  apply bind_Some in H as (n & Hn & H).
  apply bind_Some in H as (gn & Hgn & H).
  apply bind_Some in H as (es & Hes & H).
  rewrite Hn. cbn [mbind option_bind]. rewrite Hgn. cbn [mbind option_bind].
  rewrite Hes. cbn [mbind option_bind]. apply IH; [done|lia].
Qed.

(** The loop only appends, one pair for each node it takes from the
    queue. *)
Lemma PathCoord_loop_appends sp g fuel : forall queue result r,
  PathCoord_loop LngDegrees LatDegrees fuel sp g queue result = Some r ->
  exists l, r = result ++ l /\ (length queue <= length l)%nat.
Proof.
  induction fuel as [|fuel IH]; intros queue result r H;
    destruct queue as [|nodeID queue]; cbn [PathCoord_loop] in *;
    try discriminate;
    try (simplify_eq; exists []; by rewrite app_nil_r).
  apply bind_Some in H as (n & _ & H).
  apply bind_Some in H as (gn & _ & H).
  apply bind_Some in H as (es & _ & H).
  apply IH in H as (l & -> & Hl). rewrite <- app_assoc.
  eexists. split; [done|]. rewrite length_app in *. cbn. lia.
Qed.

(** While every node has an incoming edge the queue never empties. *)
Lemma PathCoord_loop_diverges sp g fuel : forall queue result,
  (forall j es, IncomingEdges sp !! j = Some es -> es <> []) ->
  queue <> [] ->
  PathCoord_loop LngDegrees LatDegrees fuel sp g queue result = None.
Proof.
  induction fuel as [|fuel IH]; intros queue result Hin Hq;
    destruct queue as [|nodeID queue]; try done.
  cbn [PathCoord_loop].
  destruct (at_index (Nodes sp) nodeID) as [n|]; cbn [mbind option_bind];
    [|done].
  destruct (at_index (Nodes g) (Rank n)) as [gn|]; cbn [mbind option_bind];
    [|done].
  destruct (at_index (IncomingEdges sp) nodeID) as [es|] eqn:Hes;
    cbn [mbind option_bind]; [|done].
  apply IH; [done|].
  apply at_index_Some in Hes as [_ Hes]. apply Hin in Hes.
  destruct es; [done|]. by destruct queue.
Qed.

End PathCoordFacts.

Section PathCoordTree.

Variable LngDegrees LatDegrees : Z -> float64.
Variable g : Graph.
Variable srcs : list Z.

(** On a tree of Run the loop of PathCoord walks from a node back to tree
    node 0, one predecessor at a time. *)
Lemma PathCoord_tree pend s :
  tinv g srcs s -> inv g srcs pend s -> tree_in (previous s) ->
  forall c, (c < length (Nodes (previous s)))%nat ->
  forall result, exists ids cs,
    PathCoord_loop LngDegrees LatDegrees (S c) (previous s) g [Z.of_nat c]
      result = Some (result ++ cs) /\
    mapM (coord_of LngDegrees LatDegrees (previous s) g) ids = Some cs /\
    back_path g (previous s) srcs (costs s) (Z.of_nat c) ids.
Proof.
  intros Ht Hinv Hin.
  assert (Hnode : forall c nc, at_index (Nodes (previous s)) c = Some nc ->
            exists cc gn, costs s !! Rank nc = Some cc /\
                          at_index (Nodes g) (Rank nc) = Some gn).
  { intros c nc [_ Hnc]%at_index_Some.
    destruct (t_nodes _ _ _ Ht _ _ Hnc) as [_ Hvis].
    destruct (proj2 (inv_visited _ _ _ _ Hinv) _ Hvis) as [cc Hcc].
    destruct (inv_cost _ _ _ _ Hinv _ _ Hcc) as (_ & _ & [Hh _] & _).
    destruct (at_index_is_Some (Nodes g) (Rank nc) Hh) as [gn Hgn]. eauto. }
  induction c as [c IH] using lt_wf_ind. intros Hc result.
  destruct (at_index_is_Some (Nodes (previous s)) (Z.of_nat c) ltac:(lia))
    as [nc Hnc].
  destruct (Hnode _ _ Hnc) as (cc & gn & Hcc & Hgn).
  destruct (t_aligned _ _ _ Ht) as [_ Hlen].
  destruct (at_index_is_Some (IncomingEdges (previous s)) (Z.of_nat c)
              ltac:(lia)) as [es Hes].
  cbn [PathCoord_loop]. rewrite Hnc. cbn [mbind option_bind].
  rewrite Hgn. cbn [mbind option_bind]. rewrite Hes. cbn [mbind option_bind app].
  assert (Hco : coord_of LngDegrees LatDegrees (previous s) g (Z.of_nat c) =
                Some [LngDegrees (Location gn); LatDegrees (Location gn)]).
  { unfold coord_of. rewrite Hnc. cbn [mbind option_bind]. by rewrite Hgn. }
  pose proof Hes as [_ Hes']%at_index_Some. rewrite Nat2Z.id in Hes'.
  pose proof (Hin _ _ Hes') as Hdeg. destruct c as [|c'].
  - subst es. exists [0], [[LngDegrees (Location gn); LatDegrees (Location gn)]].
    split; [done|]. split.
    { cbn [mapM]. change (Z.of_nat 0) with 0 in Hco. rewrite Hco. done. }
    apply (back_root _ _ _ _ nc); [done| |].
    + apply (t_root _ _ _ Ht). by apply at_index_Some in Hnc as [_ ?].
    + apply (inv_src _ _ _ _ Hinv). apply (t_root _ _ _ Ht).
      by apply at_index_Some in Hnc as [_ ?].
  - destruct Hdeg as (e & -> & Hp0 & Hp1). cbn [fmap list_fmap].
    assert (Hie : in_has (previous s) (Z.of_nat (S c')) e).
    { exists [e]. split; [done|]. by left. }
    apply (proj2 (t_mirror _ _ _ Ht)) in Hie.
    apply (t_edges _ _ _ Ht) in Hie
      as (np & nc' & cc' & Hnp & Hnc' & Hlt & Hcc' & Hw & Hcase).
    cbn [mirror eID Weight Metadata] in *.
    assert (nc' = nc) as -> by congruence.
    assert (cc' = cc) as -> by congruence.
    destruct (IH (Z.to_nat (eID e)) ltac:(lia) ltac:(lia)
                (result ++ [[LngDegrees (Location gn); LatDegrees (Location gn)]]))
      as (ids & cs & Hloop & Hmap & Hback).
    rewrite Z2Nat.id in Hloop, Hback by lia.
    exists (Z.of_nat (S c') :: ids),
      ([LngDegrees (Location gn); LatDegrees (Location gn)] :: cs).
    split.
    { eapply PathCoord_loop_mono in Hloop; [rewrite Hloop|lia].
      by rewrite <- app_assoc. }
    split.
    { cbn [mapM]. rewrite Hco. cbn [mbind option_bind]. by rewrite Hmap. }
    destruct Hcase as [(H0 & Hsrc & _)|(cp & w & d & Hcp & Harc & Hwe & _)].
    + rewrite H0 in Hback.
      apply (back_source _ _ _ _ _ nc); try done; try lia.
      by apply (inv_src _ _ _ _ Hinv).
    + apply (back_arc _ _ _ _ _ (eID e) _ nc np cc cp w d); try done.
      Lqa.lra.
Qed.

End PathCoordTree.

(** Run on a built graph: what Run_returns says, and the shape of the
    tree. *)
Lemma Run_returns_tree g c :
  Built g -> nonneg_weights g ->
  (forall s, s ∈ Source c -> valid_id g s) ->
  exists search st',
    NewDijkstra c = Some search /\
    Run search g = Some (response st') /\
    loop_post g (Source c) search st' /\
    tree_in (previous (engine st')) /\
    (forall x, costs (engine st') !! first_target c = Some x ->
       exists n, last (Nodes (previous (engine st'))) = Some n /\
                 Rank n = first_target c).
Proof.
  intros Hb Hn Hv.
  assert (H0 : Forall (fun s => 0 <= s) (Source c)).
  { apply Forall_forall. intros s Hs. by destruct (Hv s Hs) as [[? _] _]. }
  destruct (add_sources_is_Some (first_target c) _ H0) as [search Hs].
  destruct (Run_spec_tree g (Source c) (Built_wf g Hb) Hn Hv _ _ Hs)
    as (st' & Hrun & Hpost & Hin & Hlast).
  exists search, st'. rewrite NewDijkstra_add_sources.
  split; [done|]. split; [|done]. unfold Run. by rewrite Hrun.
Qed.

(** X18: PathCoord never returns an empty list: what it returns starts with
    the pair of the target.  It panics when the target is not the index of a
    node of the search space, or when the rank of that node is not the index
    of a node of the graph.  On a search space in which every node has an
    incoming edge it never returns, whatever the number of iterations; and
    a result obtained within some number of iterations is the result for
    any larger number. *)
Theorem PathCoord_edge_cases (LngDegrees LatDegrees : Z -> float64)
    (fuel : nat) (sp : Graph) (target : Z) (g : Graph) :
  (forall r, PathCoord LngDegrees LatDegrees fuel sp target g = Some r ->
     exists c rest,
       coord_of LngDegrees LatDegrees sp g target = Some c /\ r = c :: rest) /\
  (coord_of LngDegrees LatDegrees sp g target = None ->
   PathCoord LngDegrees LatDegrees fuel sp target g = None) /\
  ((forall j es, IncomingEdges sp !! j = Some es -> es <> []) ->
   PathCoord LngDegrees LatDegrees fuel sp target g = None) /\
  (forall r fuel',
     PathCoord LngDegrees LatDegrees fuel sp target g = Some r ->
     (fuel <= fuel')%nat ->
     PathCoord LngDegrees LatDegrees fuel' sp target g = Some r).
Proof.
  assert (H1 : forall r,
            PathCoord LngDegrees LatDegrees fuel sp target g = Some r ->
            exists c rest,
              coord_of LngDegrees LatDegrees sp g target = Some c /\
              r = c :: rest).
  { unfold PathCoord, coord_of. intros r H.
    destruct fuel as [|fuel]; [done|]. cbn [PathCoord_loop] in H.
    apply bind_Some in H as (n & -> & H).
    apply bind_Some in H as (gn & Hgn & H).
    apply bind_Some in H as (es & _ & H). cbn [mbind option_bind].
    rewrite Hgn. cbn [mbind option_bind].
    apply PathCoord_loop_appends in H as (l & -> & _). eauto. }
  split; [done|]. split; [|split].
  - intros Hnone.
    destruct (PathCoord LngDegrees LatDegrees fuel sp target g) as [r|] eqn:E;
      [|done].
    destruct (H1 r eq_refl) as (c & rest & Hc & _). congruence.
  - intros Hin. by apply PathCoord_loop_diverges.
  - intros r fuel' H Hle. by eapply PathCoord_loop_mono.
Qed.

(** X19: on a graph built with AddNode and RelateNodes, with no negative
    weight, and for valid sources, when the map Run returns holds a cost for
    the first target, the last node of the tree stands for the target: its
    rank is the target, and its id is its index, the length of the tree
    less one. *)
Theorem Run_target_last g c :
  Built g -> nonneg_weights g ->
  (forall s, s ∈ Source c -> valid_id g s) ->
  exists search r,
    NewDijkstra c = Some search /\ Run search g = Some r /\
    forall x, Costs r !! first_target c = Some x ->
      exists n, last (Nodes (SearchSpace r)) = Some n /\
        Rank n = first_target c /\
        ID n = Z.of_nat (length (Nodes (SearchSpace r))) - 1.
Proof.
  intros Hb Hn Hv.
  destruct (Run_returns_tree g c Hb Hn Hv)
    as (search & st' & Hnew & Hrun & (_ & Ht & _) & _ & Hlast).
  exists search, (response st'). split; [done|]. split; [done|].
  cbn [response SearchSpace Costs]. intros x Hx.
  destruct (Hlast x Hx) as (n & Hn' & Hr). exists n.
  split; [done|]. split; [done|].
  rewrite last_lookup in Hn'.
  destruct (t_nodes _ _ _ Ht _ _ Hn') as [-> _].
  apply lookup_lt_Some in Hn'. lia.
Qed.

(** X20: on a graph built with AddNode and RelateNodes, with no negative
    weight, and for valid sources, every node of the tree Run returns but
    the first has exactly one incoming edge, from a node added before it,
    and the first has none.  So PathCoord returns for every node of the
    tree, within as many iterations as the tree has nodes: it returns the
    pairs of the nodes on the way from the target back to tree node 0, where
    every step stands for an edge of the graph whose weight is the
    difference of the costs of its ends, or leads from a source to tree
    node 0. *)
Theorem PathCoord_Run_tree (LngDegrees LatDegrees : Z -> float64) g c :
  Built g -> nonneg_weights g ->
  (forall s, s ∈ Source c -> valid_id g s) ->
  exists search r,
    NewDijkstra c = Some search /\ Run search g = Some r /\
    tree_in (SearchSpace r) /\
    forall target fuel,
      has_node (SearchSpace r) target -> (Z.to_nat target < fuel)%nat ->
      exists ids cs,
        PathCoord LngDegrees LatDegrees fuel (SearchSpace r) target g =
          Some cs /\
        mapM (coord_of LngDegrees LatDegrees (SearchSpace r) g) ids =
          Some cs /\
        back_path g (SearchSpace r) (Source c) (Costs r) target ids.
Proof.
  intros Hb Hn Hv.
  destruct (Run_returns_tree g c Hb Hn Hv)
    as (search & st' & Hnew & Hrun & (_ & Ht & _ & (pend & Hinv) & _) & Hin & _).
  exists search, (response st'). split; [done|]. split; [done|].
  cbn [response SearchSpace Costs]. split; [done|].
  intros target fuel [Ht0 Ht1] Hfuel.
  destruct (PathCoord_tree LngDegrees LatDegrees g (Source c) pend _ Ht Hinv
              Hin (Z.to_nat target) ltac:(lia) [])
    as (ids & cs & Hloop & Hmap & Hback).
  rewrite Z2Nat.id in Hloop, Hback by lia.
  exists ids, cs. split; [|done].
  unfold PathCoord. eapply PathCoord_loop_mono; [exact Hloop|lia].
Qed.

Lemma PathCoord_edge_cases_witness :
  PathCoord inject_Z inject_Z 1000 two_way 0 two_way = None.
Proof.
  apply (PathCoord_edge_cases inject_Z inject_Z 1000 two_way 0 two_way).
  intros [|[|j]] es H; vm_compute in H; by simplify_eq.
Defined.

Lemma Run_target_last_witness :
  exists search r,
    NewDijkstra {| Source := [0]; Targets := [1] |} = Some search /\
    Run search triangle = Some r /\
    forall x,
      Costs r !! first_target {| Source := [0]; Targets := [1] |} = Some x ->
      exists n, last (Nodes (SearchSpace r)) = Some n /\
        Rank n = first_target {| Source := [0]; Targets := [1] |} /\
        ID n = Z.of_nat (length (Nodes (SearchSpace r))) - 1.
Proof.
  apply (Run_target_last triangle {| Source := [0]; Targets := [1] |}
           triangle_Built (nonneg_weightsb_true triangle eq_refl)
           (valid_id_check triangle [0] eq_refl)).
Defined.

Lemma PathCoord_Run_tree_witness :
  exists search r,
    NewDijkstra {| Source := [0]; Targets := [2] |} = Some search /\
    Run search chain = Some r /\
    tree_in (SearchSpace r) /\
    forall target fuel,
      has_node (SearchSpace r) target -> (Z.to_nat target < fuel)%nat ->
      exists ids cs,
        PathCoord inject_Z inject_Z fuel (SearchSpace r) target chain =
          Some cs /\
        mapM (coord_of inject_Z inject_Z (SearchSpace r) chain) ids =
          Some cs /\
        back_path chain (SearchSpace r) [0] (Costs r) target ids.
Proof.
  apply (PathCoord_Run_tree inject_Z inject_Z chain
           {| Source := [0]; Targets := [2] |}
           chain_Built (nonneg_weightsb_true chain eq_refl)
           (valid_id_check chain [0] eq_refl)).
Defined.

(** ** Reading a map *)

(** The map and the counter hold the numbering of [order]. *)
Definition numbered (order : list Z) (st : gmap Z Z * Z) : Prop :=
  snd st = Z.of_nat (length order) /\ NoDup order /\
  forall n v, fst st !! n = Some v <->
    exists j, order !! j = Some n /\ v = int32 (Z.of_nat j).

Lemma number_node_numbered order st n :
  numbered order st ->
  numbered (if decide (n ∈ order) then order else order ++ [n])
    (number_node st n).
Proof.
  intros (Hi & Hnd & Hmap). unfold number_node.
  destruct (fst st !! n) as [v|] eqn:E.
  - apply Hmap in E as (j & Hj & _).
    rewrite decide_True by (by eapply list_elem_of_lookup_2). done.
  - assert (Hn : n ∉ order).
    { intros [j Hj]%list_elem_of_lookup.
      assert (fst st !! n = Some (int32 (Z.of_nat j))) as E'
        by (apply Hmap; eauto). congruence. }
    rewrite decide_False by done. split; [|split]; cbn [fst snd].
    + rewrite length_app. cbn. lia.
    + apply NoDup_app. split; [done|]. split.
      * intros x Hx ->%list_elem_of_singleton. done.
      * apply NoDup_singleton.
    + intros m v. destruct (decide (m = n)) as [->|Hne].
      * rewrite lookup_insert_eq. split.
        -- intros [= <-]. exists (length order).
           rewrite lookup_app_r, Nat.sub_diag by lia. by rewrite Hi.
        -- intros (j & Hj & ->).
           apply lookup_app_Some in Hj as [Hj|[Hj1 Hj2]].
           ++ destruct Hn. by eapply list_elem_of_lookup_2.
           ++ apply list_lookup_singleton_Some in Hj2 as [Hj2 _].
              rewrite Hi. do 3 f_equal. lia.
      * rewrite lookup_insert_ne by done. rewrite Hmap.
        split; intros (j & Hj & ->); exists j; (split; [|done]).
        -- by apply lookup_app_l_Some.
        -- apply lookup_app_Some in Hj as [Hj|[_ Hj2]]; [done|].
           by apply list_lookup_singleton_Some in Hj2 as [_ ->].
Qed.

Lemma number_nodes_numbered l : forall order st,
  numbered order st ->
  numbered
    (foldl (fun acc n => if decide (n ∈ acc) then acc else acc ++ [n]) order l)
    (foldl number_node st l).
Proof.
  induction l as [|n l IH]; intros order st H; [done|].
  cbn [foldl]. apply IH. by apply number_node_numbered.
Qed.

Lemma number_objects objs : forall st,
  foldl number_object st objs = foldl number_node st (valid_way_nodes objs).
Proof.
  induction objs as [|o objs IH]; intros st; [done|].
  cbn [foldl]. unfold valid_way_nodes. cbn [mbind list_bind].
  rewrite foldl_app. fold (valid_way_nodes objs). rewrite <- IH.
  f_equal. destruct o as [n|w|]; try done. cbn. by destruct (validWay w).
Qed.

Lemma first_seen_from (l : list Z) : forall acc x,
  x ∈ foldl (fun acc n => if decide (n ∈ acc) then acc else acc ++ [n]) acc l
  <-> x ∈ acc \/ x ∈ l.
Proof.
  induction l as [|n l IH]; intros acc x; cbn [foldl].
  - rewrite elem_of_nil. tauto.
  - rewrite IH, elem_of_cons. destruct (decide (n ∈ acc)).
    + split; [tauto|]. intros [?|[->|?]]; tauto.
    + rewrite elem_of_app, list_elem_of_singleton. tauto.
Qed.

Lemma determineValidNodesFromFile_numbered objs :
  numbered (first_seen (valid_way_nodes objs))
    (foldl number_object (∅, 0) objs).
Proof.
  rewrite number_objects. apply number_nodes_numbered.
  split; [done|]. split; [constructor|]. intros n v. cbn [fst].
  rewrite lookup_empty. split; [done|]. by intros (j & Hj & _).
Qed.

(** Every number determineValidNodesFromFile gives is an [int32]. *)
Lemma determineValidNodesFromFile_model objs k v :
  determineValidNodesFromFile objs !! k = Some v ->
  exists j, v = int32 (Z.of_nat j).
Proof.
  intros Hk.
  destruct (determineValidNodesFromFile_numbered objs) as (_ & _ & Hmap).
  apply Hmap in Hk as (j & _ & ->). eauto.
Qed.

Lemma first_seen_elem l n : n ∈ first_seen l <-> n ∈ l.
Proof. unfold first_seen. rewrite first_seen_from, elem_of_nil. tauto. Qed.

(** The ids that get a number are those of the nodes of the valid ways. *)
Lemma determineValidNodesFromFile_keys objs n :
  is_Some (determineValidNodesFromFile objs !! n) <->
  n ∈ valid_way_nodes objs.
Proof.
  destruct (determineValidNodesFromFile_numbered objs) as (_ & _ & Hmap).
  rewrite <- first_seen_elem. split.
  - intros [v (j & Hj & _)%Hmap]. by eapply list_elem_of_lookup_2.
  - intros [j Hj]%list_elem_of_lookup. eexists. apply Hmap. eauto.
Qed.

(** X21: determineValidNodesFromFile gives a number to exactly the node
    ids of the valid ways: the [j]-th id in the order of first occurrence
    gets [int32(j)].  So, as long as there are at most 2^31 such ids, the
    numbers are the first naturals, each given once. *)
Theorem determineValidNodesFromFile_numbering (objs : list OsmObject) :
  let order := first_seen (valid_way_nodes objs) in
  let result := determineValidNodesFromFile objs in
  NoDup order /\
  (forall n, n ∈ order <-> n ∈ valid_way_nodes objs) /\
  (forall n v, result !! n = Some v <->
     exists j, order !! j = Some n /\ v = int32 (Z.of_nat j)) /\
  (forall n, is_Some (result !! n) <-> n ∈ valid_way_nodes objs) /\
  (Z.of_nat (length order) <= 2 ^ 31 ->
   (forall n v, result !! n = Some v -> 0 <= v < Z.of_nat (length order)) /\
   (forall n m v, result !! n = Some v -> result !! m = Some v -> n = m)).
Proof.
  intros order result.
  destruct (determineValidNodesFromFile_numbered objs) as (_ & Hnd & Hmap).
  fold (determineValidNodesFromFile objs) in Hmap. fold result in Hmap.
  fold order in Hnd, Hmap.
  split; [done|]. split; [apply first_seen_elem|]. split; [done|]. split.
  - apply determineValidNodesFromFile_keys.
  - intros Hlen. split.
    + intros n v (j & Hj & ->)%Hmap. apply lookup_lt_Some in Hj.
      rewrite int32_small by lia. lia.
    + intros n m v (j & Hj & ->)%Hmap (j' & Hj' & E)%Hmap.
      pose proof (lookup_lt_Some _ _ _ Hj). pose proof (lookup_lt_Some _ _ _ Hj').
      rewrite !int32_small in E by lia.
      assert (j = j') as -> by lia. congruence.
Qed.

Lemma determineValidNodesFromFile_numbering_witness :
  let w := {| wID := 7; wTags := {[ "highway" := "primary" ]};
              NodeIDs := [30; 10; 30; 20] |} in
  let result := determineValidNodesFromFile [OsmWayObject w] in
  first_seen (valid_way_nodes [OsmWayObject w]) = [30; 10; 20] /\
  result !! 30 = Some 0 /\ result !! 10 = Some 1 /\ result !! 20 = Some 2 /\
  (forall n m v, result !! n = Some v -> result !! m = Some v -> n = m).
Proof.
  intros w result.
  destruct (determineValidNodesFromFile_numbering [OsmWayObject w])
    as (_ & _ & Hmap & _ & Hinj).
  split; [reflexivity|].
  split; [apply Hmap; by exists 0%nat|].
  split; [apply Hmap; by exists 1%nat|].
  split; [apply Hmap; by exists 2%nat|].
  apply Hinj. vm_compute. discriminate.
Defined.

Lemma Built_ids g :
  Built g -> forall i n, Nodes g !! i = Some n -> ID n = int32 (Z.of_nat i).
Proof.
  induction 1 as [|g n HB IH|g a b w dir m g' HB IH Ha Hb HR]; intros i n'.
  - cbn. by rewrite lookup_nil.
  - cbn. intros [H|[Hi H]]%lookup_app_Some; [eauto|].
    apply list_lookup_singleton_Some in H as [Hi' <-]. cbn. f_equal. lia.
  - pose proof (RelateNodes_adds _ _ _ _ _ _ _ HR) as (HN & _).
    rewrite HN. apply IH.
Qed.

Section BuildGraphFacts.

Variable coordinatesToCellID : float64 -> float64 -> Z.
Variable DistanceMeters : Z -> Z -> float32.
Variable ToLower : string -> string.

(** Every edge is a road: its weight is the distance between its ends, which
    is also the distance of its metadata, and the speed is 50. *)
Definition road_edges (g : Graph) : Prop :=
  forall a e, out_has g a e ->
    Weight e = Distance (Metadata e) /\ Speed (Metadata e) = 50%Q /\
    exists na nb,
      at_index (Nodes g) a = Some na /\
      at_index (Nodes g) (eID e) = Some nb /\
      (Weight e = DistanceMeters (Location na) (Location nb) \/
       Weight e = DistanceMeters (Location nb) (Location na)).

(** What the loop of BuildGraph keeps, apart from the nodes it adds. *)
Definition build_inv (keys : gmap Z Z) (st : BuildState) : Prop :=
  Built (bg st) /\
  (forall k, is_Some (bnodes st !! k) <-> is_Some (keys !! k)) /\
  (forall k v, bnodes st !! k = Some v -> in_int32 v) /\
  (forall n, n ∈ Nodes (bg st) -> Rank n = 0) /\
  road_edges (bg st).

Lemma buildNode_inv keys st node g nodes :
  build_inv keys st ->
  buildNode coordinatesToCellID (bg st) node (bnodes st) = (g, nodes) ->
  build_inv keys {| bg := g; bnodes := nodes; bways := bways st |} /\
  Location <$> Nodes g =
    (Location <$> Nodes (bg st)) ++
    ((fun n => coordinatesToCellID (nLat n) (nLon n)) <$>
       kept_nodes keys [OsmNodeObject node]).
Proof.
  intros (HB & Hk & Hv & Hr & He). unfold buildNode, kept_nodes.
  cbn [mbind list_bind app]. rewrite app_nil_r.
  destruct (bnodes st !! nID node) as [v|] eqn:E.
  - rewrite decide_True by (apply Hk; eauto).
    unfold AddNode. intros [= <- <-]. unfold build_inv.
    cbn [bg bnodes Nodes Location].
    split; [|by rewrite fmap_app].
    split; [|split; [|split; [|split]]].
    + exact (Built_AddNode (bg st)
               {| ID := 0;
                  Location := coordinatesToCellID (nLat node) (nLon node);
                  Rank := 0 |} HB).
    + intros k. rewrite <- Hk. destruct (decide (k = nID node)) as [->|Hne].
      * rewrite lookup_insert_eq, E. split; eauto.
      * by rewrite lookup_insert_ne.
    + intros k v'. destruct (decide (k = nID node)) as [->|Hne].
      * rewrite lookup_insert_eq. intros [= <-]. apply int32_range.
      * rewrite lookup_insert_ne by done. apply Hv.
    + intros n [Hn|Hn%list_elem_of_singleton]%elem_of_app; [eauto|].
      by subst n.
    + intros a e Hout.
      apply (AddNode_out_has (bg st)
               {| ID := 0;
                  Location := coordinatesToCellID (nLat node) (nLon node);
                  Rank := 0 |}) in Hout.
      destruct (He a e Hout) as (H1 & H2 & na & nb & Hna & Hnb & H3).
      split; [done|]. split; [done|]. exists na, nb.
      split; [|split; [|done]].
      * apply at_index_Some in Hna as [? Hna]. apply at_index_Some.
        split; [done|]. by apply lookup_app_l_Some.
      * apply at_index_Some in Hnb as [? Hnb]. apply at_index_Some.
        split; [done|]. by apply lookup_app_l_Some.
  - rewrite decide_False by (rewrite <- Hk, E; by intros [? ?]).
    intros [= <- <-]. cbn. rewrite app_nil_r. split; [|done].
    by destruct st.
Qed.

(** One turn of the loop of buildWay. *)
Lemma buildWay_loop_cons way nodes a b rest g ways :
  buildWay_loop DistanceMeters ToLower way nodes (a :: b :: rest) g ways =
  match nodes !! a, nodes !! b with
  | Some idA, Some idB =>
      nodeA ← at_index (Nodes g) idA;
      nodeB ← at_index (Nodes g) idB;
      let distance := DistanceMeters (Location nodeA) (Location nodeB) in
      let roadType :=
        match wTags way !! Highway with
        | Some highwayTag => ToLower highwayTag
        | None => "n/a"
        end in
      g ← RelateNodes g nodeA nodeB distance (edgeDirectionFromWay way)
             {| Speed := 50; Distance := distance; RoadType := roadType |};
      let ways :=
        <[wID way := default [] (ways !! wID way) ++ [ID nodeA]]> ways in
      let ways :=
        match rest with
        | [] => <[wID way := default [] (ways !! wID way) ++ [ID nodeB]]> ways
        | _ => ways
        end in
      buildWay_loop DistanceMeters ToLower way nodes (b :: rest) g ways
  | _, _ => buildWay_loop DistanceMeters ToLower way nodes (b :: rest) g ways
  end.
Proof. reflexivity. Qed.

Lemma buildWay_loop_inv way nodes ids : forall g ways g' ways',
  (forall k v, nodes !! k = Some v -> in_int32 v) ->
  Built g -> road_edges g ->
  buildWay_loop DistanceMeters ToLower way nodes ids g ways = Some (g', ways') ->
  Built g' /\ road_edges g' /\ Nodes g' = Nodes g.
Proof.
  induction ids as [|a ids IH]; intros g ways g' ways' Hv HB He H.
  - cbn in H. by simplify_eq.
  - destruct ids as [|b rest]; [cbn in H; by simplify_eq|].
    rewrite buildWay_loop_cons in H.
    destruct (nodes !! a) as [idA|] eqn:EA;
      [|exact (IH _ _ _ _ Hv HB He H)].
    destruct (nodes !! b) as [idB|] eqn:EB;
      [|exact (IH _ _ _ _ Hv HB He H)].
    apply bind_Some in H as (nodeA & HA & H).
    apply bind_Some in H as (nodeB & HB' & H).
    apply bind_Some in H as (g1 & Hrel & H).
    assert (Hid : forall id n, in_int32 id -> at_index (Nodes g) id = Some n ->
              ID n = id).
    { intros id n Hin [H0 Hn]%at_index_Some.
      rewrite (Built_ids g HB _ _ Hn), Z2Nat.id by done. by apply int32_id. }
    pose proof (Hid _ _ (Hv _ _ EA) HA) as HidA.
    pose proof (Hid _ _ (Hv _ _ EB) HB') as HidB.
    pose proof (RelateNodes_adds _ _ _ _ _ _ _ Hrel) as (HN & _ & _ & Ho & _).
    assert (HB1 : Built g1).
    { eapply Built_RelateNodes; [exact HB| | |exact Hrel].
      - rewrite HidA. by eapply Hv.
      - rewrite HidB. by eapply Hv. }
    assert (He1 : road_edges g1).
    { intros u e [Hold|(t & Ht & ->)]%Ho.
      - rewrite HN. by apply He.
      - cbn [mkEdge Weight Metadata Distance Speed eID].
        split; [done|]. split; [done|]. rewrite HN, HidA, HidB in *.
        destruct (edgeDirectionFromWay way); cbn in Ht;
          repeat (apply elem_of_cons in Ht as [Ht|Ht]; simplify_eq);
          try (by apply elem_of_nil in Ht); eauto 10. }
    destruct (IH _ _ _ _ Hv HB1 He1 H) as (? & ? & HN').
    split; [done|]. split; [done|]. congruence.
Qed.

Lemma BuildGraph_loop_inv keys objs : forall st st',
  build_inv keys st ->
  BuildGraph_loop coordinatesToCellID DistanceMeters ToLower st objs = Some st' ->
  build_inv keys st' /\
  Location <$> Nodes (bg st') =
    (Location <$> Nodes (bg st)) ++
    ((fun n => coordinatesToCellID (nLat n) (nLon n)) <$> kept_nodes keys objs).
Proof.
  induction objs as [|o objs IH]; intros st st' Hinv H.
  - cbn in H. simplify_eq. split; [done|]. cbn. by rewrite app_nil_r.
  - cbn [BuildGraph_loop] in H. apply bind_Some in H as (st1 & Hstep & H).
    assert (Hk : kept_nodes keys (o :: objs) =
                 kept_nodes keys [o] ++ kept_nodes keys objs).
    { unfold kept_nodes. cbn [mbind list_bind]. by rewrite app_nil_r. }
    rewrite Hk, fmap_app, app_assoc.
    assert (H1 : build_inv keys st1 /\
              Location <$> Nodes (bg st1) =
                (Location <$> Nodes (bg st)) ++
                ((fun n => coordinatesToCellID (nLat n) (nLon n)) <$>
                   kept_nodes keys [o])).
    { destruct o as [node|way|]; cbn [BuildGraph_step] in Hstep.
      - destruct (buildNode _ _ _ _) as [g nodes] eqn:E. simplify_eq.
        by apply buildNode_inv.
      - assert (Hnil : kept_nodes keys [OsmWayObject way] = []) by done.
        rewrite Hnil. cbn [fmap list_fmap]. rewrite app_nil_r.
        destruct (validWay way); [|by simplify_eq].
        apply bind_Some in Hstep as ([g ways] & Hway & Hstep). simplify_eq.
        destruct Hinv as (HB & Hkeys & Hv & Hr & He).
        destruct (buildWay_loop_inv _ _ _ _ _ _ _ Hv HB He Hway)
          as (HB1 & He1 & HN).
        unfold build_inv. cbn [bg bnodes]. rewrite HN. done.
      - simplify_eq. cbn. by rewrite app_nil_r. }
    destruct H1 as [Hinv1 HL1]. destruct (IH _ _ Hinv1 H) as [Hinv' HL'].
    split; [done|]. by rewrite HL', HL1.
Qed.

(** X22: the graph BuildGraph returns is one built with AddNode and
    RelateNodes.  Its nodes are the node objects of the file whose id occurs
    in a valid way, in the order of the file, each with the cell of its
    position, rank 0, and as id the [int32] of its index, which is its
    index as long as the graph has at most 2^31 nodes.  Every edge has the
    distance between its two ends as weight and as distance of its metadata,
    and the speed 50; so no weight is negative when no distance is. *)
Theorem BuildGraph_sound (objs : list OsmObject) (g : Graph) :
  BuildGraph coordinatesToCellID DistanceMeters ToLower objs = Some g ->
  Built g /\
  Location <$> Nodes g =
    (fun n => coordinatesToCellID (nLat n) (nLon n)) <$>
      kept_nodes (determineValidNodesFromFile objs) objs /\
  (forall j n, Nodes g !! j = Some n ->
     ID n = int32 (Z.of_nat j) /\ Rank n = 0 /\
     (Z.of_nat (length (Nodes g)) <= 2 ^ 31 -> ID n = Z.of_nat j)) /\
  road_edges g /\
  ((forall x y, (0 <= DistanceMeters x y)%Q) -> nonneg_weights g).
Proof.
  unfold BuildGraph. intros (st & Hloop & [= <-])%bind_Some.
  assert (H0 : build_inv (determineValidNodesFromFile objs)
                 {| bg := EmptyGraph;
                    bnodes := determineValidNodesFromFile objs;
                    bways := ∅ |}).
  { unfold build_inv. cbn [bg bnodes]. split; [apply Built_empty|].
    split; [done|]. split; [|split].
    - intros k v Hk.
      destruct (determineValidNodesFromFile_model objs k v Hk) as (j & ->).
      apply int32_range.
    - by intros n ?%elem_of_nil.
    - intros a e (es & [_ Hes]%at_index_Some & _). cbn in Hes.
      by rewrite lookup_nil in Hes. }
  destruct (BuildGraph_loop_inv _ objs _ _ H0 Hloop)
    as ((HB & _ & _ & Hr & He) & HL).
  split; [done|]. split; [done|]. split; [|split; [done|]].
  - intros j n Hn. split; [by apply (Built_ids _ HB)|]. split.
    + apply Hr. by eapply list_elem_of_lookup_2.
    + intros Hlen. rewrite (Built_ids _ HB j n Hn).
      apply lookup_lt_Some in Hn. apply int32_small. lia.
  - intros Hd u e Hout.
    destruct (He u e Hout) as (_ & _ & na & nb & _ & _ & [-> | ->]); apply Hd.
Qed.

End BuildGraphFacts.

(** A way is never read from its end to its start. *)
Lemma edgeDirectionFromWay_cases way :
  edgeDirectionFromWay way = LeftToRight \/
  edgeDirectionFromWay way = Bidirectional.
Proof.
  unfold edgeDirectionFromWay. repeat case_bool_decide; auto.
Qed.

Section BuildGraphComplete.

Variable coordinatesToCellID : float64 -> float64 -> Z.
Variable DistanceMeters : Z -> Z -> float32.
Variable ToLower : string -> string.

(** The metadata buildWay gives to the edges of [way] of length [d]. *)
Definition way_meta (way : OsmWay) (d : float32) : MetaData :=
  {| Speed := 50; Distance := d;
     RoadType := match wTags way !! Highway with
                 | Some highwayTag => ToLower highwayTag
                 | None => "n/a"
                 end |}.

(** The edges buildWay adds for the step from [a] to [b] of [way]. *)
Definition way_edges (way : OsmWay) (nodes : gmap Z Z) (g g' : Graph)
    (a b : Z) : Prop :=
  exists ia ib na nb,
    nodes !! a = Some ia /\ nodes !! b = Some ib /\
    at_index (Nodes g) ia = Some na /\ at_index (Nodes g) ib = Some nb /\
    let d := DistanceMeters (Location na) (Location nb) in
    out_has g' ia (mkEdge ib d (way_meta way d)) /\
    (edgeDirectionFromWay way = Bidirectional ->
     out_has g' ib (mkEdge ia d (way_meta way d))).

Lemma buildWay_loop_ok way nodes ids : forall g ways,
  Built g ->
  (forall id, id ∈ ids ->
     exists v, nodes !! id = Some v /\ has_node g v /\ in_int32 v) ->
  exists g' ways',
    buildWay_loop DistanceMeters ToLower way nodes ids g ways =
      Some (g', ways') /\
    Built g' /\ Nodes g' = Nodes g /\
    (forall u e, out_has g u e -> out_has g' u e) /\
    (forall i a b, ids !! i = Some a -> ids !! S i = Some b ->
       way_edges way nodes g g' a b).
Proof.
  induction ids as [|a ids IH]; intros g ways HB Hids.
  - exists g, ways. split; [done|]. split; [done|]. split; [done|].
    split; [done|]. intros i a b Hi. by rewrite lookup_nil in Hi.
  - destruct ids as [|b rest].
    { exists g, ways. split; [done|]. split; [done|]. split; [done|].
      split; [done|]. intros [|i] a' b' _ Hb; cbn in Hb; by simplify_eq. }
    rewrite (buildWay_loop_cons DistanceMeters ToLower).
    destruct (Hids a) as (idA & EA & HhA & HiA); [left|].
    destruct (Hids b) as (idB & EB & HhB & HiB); [right; left|].
    rewrite EA, EB.
    destruct (at_index_is_Some (Nodes g) idA HhA) as [nodeA HA].
    destruct (at_index_is_Some (Nodes g) idB HhB) as [nodeB HB'].
    rewrite HA. cbn [mbind option_bind]. rewrite HB'. cbn [mbind option_bind].
    assert (Hid : forall id n, in_int32 id -> at_index (Nodes g) id = Some n ->
              ID n = id).
    { intros id n Hin [H0 Hn]%at_index_Some.
      rewrite (Built_ids g HB _ _ Hn), Z2Nat.id by done. by apply int32_id. }
    pose proof (Hid _ _ HiA HA) as HidA. pose proof (Hid _ _ HiB HB') as HidB.
    set (d := DistanceMeters (Location nodeA) (Location nodeB)).
    destruct (RelateNodes_is_Some g nodeA nodeB d (edgeDirectionFromWay way)
                (way_meta way d)) as [g1 Hrel].
    { by destruct (Built_wf g HB). }
    { by rewrite HidA. }
    { by rewrite HidB. }
    fold (way_meta way d). rewrite Hrel. cbn [mbind option_bind].
    pose proof (RelateNodes_adds _ _ _ _ _ _ _ Hrel) as (HN & _ & _ & Ho & _).
    assert (HB1 : Built g1).
    { eapply Built_RelateNodes; [exact HB| | |exact Hrel].
      - by rewrite HidA.
      - by rewrite HidB. }
    edestruct (IH g1) as (g' & ways' & -> & HB2 & HN2 & Hmono & Hedges);
      [exact HB1| |].
    { intros id Hid'. destruct (Hids id ltac:(by right)) as (v & ? & ? & ?).
      exists v. unfold has_node. rewrite HN. done. }
    exists g', ways'. split; [done|]. split; [done|].
    split; [congruence|]. split.
    { intros u e Hout. apply Hmono, Ho. by left. }
    intros [|i] a' b' Ha' Hb'; cbn in Ha', Hb'.
    + injection Ha' as <-. injection Hb' as <-.
      exists idA, idB, nodeA, nodeB.
      split; [done|]. split; [done|]. split; [done|]. split; [done|].
      fold d. rewrite HidA, HidB in Ho. split.
      * apply Hmono, Ho. right. exists idB. split; [|done].
        destruct (edgeDirectionFromWay_cases way) as [-> | ->]; left.
      * intros Hdir. apply Hmono, Ho. right. exists idA. split; [|done].
        rewrite Hdir. right. left.
    + destruct (Hedges i a' b' Ha' Hb')
        as (ia & ib & na & nb & ? & ? & Hna & Hnb & ?).
      exists ia, ib, na, nb. rewrite HN in Hna, Hnb. done.
Qed.


Lemma BuildGraph_loop_app l1 l2 : forall st,
  BuildGraph_loop coordinatesToCellID DistanceMeters ToLower st (l1 ++ l2) =
  st1 ← BuildGraph_loop coordinatesToCellID DistanceMeters ToLower st l1;
  BuildGraph_loop coordinatesToCellID DistanceMeters ToLower st1 l2.
Proof.
  induction l1 as [|o l1 IH]; intros st; [done|].
  cbn [app BuildGraph_loop].
  destruct (BuildGraph_step _ _ _ st o) as [st1|]; [|done].
  cbn [mbind option_bind]. apply IH.
Qed.

Lemma kept_nodes_app keys l1 l2 :
  kept_nodes keys (l1 ++ l2) = kept_nodes keys l1 ++ kept_nodes keys l2.
Proof. unfold kept_nodes. by rewrite bind_app. Qed.

Lemma valid_way_nodes_app l1 l2 :
  valid_way_nodes (l1 ++ l2) = valid_way_nodes l1 ++ valid_way_nodes l2.
Proof. unfold valid_way_nodes. by rewrite bind_app. Qed.

Lemma kept_nodes_no_node keys l :
  Forall (fun o => is_node o = false) l -> kept_nodes keys l = [].
Proof.
  induction 1 as [|o l Ho _ IH]; [done|].
  change (o :: l) with ([o] ++ l). rewrite kept_nodes_app, IH.
  by destruct o.
Qed.

Lemma valid_way_nodes_no_way l :
  Forall (fun o => is_way o = false) l -> valid_way_nodes l = [].
Proof.
  induction 1 as [|o l Ho _ IH]; [done|].
  change (o :: l) with ([o] ++ l). rewrite valid_way_nodes_app, IH.
  by destruct o.
Qed.

Lemma kept_nodes_length keys l :
  (length (kept_nodes keys l) <= length l)%nat.
Proof.
  induction l as [|o l IH]; [done|].
  change (o :: l) with ([o] ++ l). rewrite kept_nodes_app, length_app.
  assert (length (kept_nodes keys [o]) <= 1)%nat; [|cbn [length app]; lia].
  unfold kept_nodes. cbn [mbind list_bind]. rewrite app_nil_r.
  destruct o as [n| |]; cbn [length]; try lia.
  destruct (decide _); cbn [length]; lia.
Qed.

(** Among the nodes of a list that have the id [k] there is a last one. *)
Lemma last_index_exists kept k :
  (exists n, n ∈ kept /\ nID n = k) -> exists j, last_index kept k j.
Proof.
  induction kept as [|x kept IH] using rev_ind.
  - intros (n & []%elem_of_nil & _).
  - intros (n & Hn & Hk). destruct (decide (nID x = k)) as [Hx|Hx].
    + exists (length kept). split.
      * exists x. split; [|done]. rewrite lookup_app_r, Nat.sub_diag by lia.
        done.
      * intros j' n' Hj' _. apply lookup_lt_Some in Hj'.
        rewrite length_app in Hj'. cbn in Hj'. lia.
    + apply elem_of_app in Hn as [Hn|Hn%list_elem_of_singleton];
        [|congruence].
      destruct IH as (j & (n0 & Hj & Hn0) & Hlast); [eauto|].
      exists j. split.
      * exists n0. split; [by apply lookup_app_l_Some|done].
      * intros j' n' Hj' Hk'.
        apply lookup_app_Some in Hj' as [Hj'|[_ Hj']]; [eauto|].
        apply list_lookup_singleton_Some in Hj' as [_ <-]. done.
Qed.

(** The nodes of the graph and the numbers of the map follow the nodes
    kept so far. *)
Definition nodes_inv (kept : list OsmNode) (st : BuildState) : Prop :=
  length (Nodes (bg st)) = length kept /\
  forall k j, last_index kept k j -> bnodes st !! k = Some (Z.of_nat j).

Lemma nodes_phase keys objs : forall kept st,
  build_inv DistanceMeters keys st -> nodes_inv kept st ->
  Forall (fun o => is_way o = false) objs ->
  Z.of_nat (length kept + length objs) < 2 ^ 31 ->
  exists st',
    BuildGraph_loop coordinatesToCellID DistanceMeters ToLower st objs =
      Some st' /\
    nodes_inv (kept ++ kept_nodes keys objs) st'.
Proof.
  induction objs as [|o objs IH]; intros kept st Hinv Hn Hobjs Hlen.
  - exists st. split; [done|]. unfold kept_nodes. cbn. by rewrite app_nil_r.
  - apply Forall_cons in Hobjs as [Ho Hobjs].
    change (o :: objs) with ([o] ++ objs).
    rewrite kept_nodes_app, app_assoc. cbn [app BuildGraph_loop].
    cbn [length] in Hlen.
    destruct o as [node|way|]; [|done|]; cbn [BuildGraph_step].
    2:{ cbn [mbind option_bind]. unfold kept_nodes at 1. cbn.
        rewrite app_nil_r. apply IH; try done. lia. }
    destruct (buildNode coordinatesToCellID (bg st) node (bnodes st))
      as [g nodes] eqn:E.
    cbn [mbind option_bind].
    destruct (buildNode_inv coordinatesToCellID DistanceMeters keys st node
                g nodes Hinv E) as [Hinv1 _].
    apply IH; try done.
    2:{ rewrite length_app. unfold kept_nodes. cbn.
        destruct (decide _); cbn; lia. }
    destruct Hinv as (_ & Hk & _). destruct Hn as [Hl Hmap].
    unfold buildNode in E. unfold kept_nodes. cbn [mbind list_bind app].
    rewrite app_nil_r.
    destruct (bnodes st !! nID node) as [v|] eqn:Ev.
    + rewrite decide_True by (apply Hk; eauto).
      unfold AddNode in E. simplify_eq. split; cbn [bg bnodes Nodes].
      * rewrite !length_app. cbn. lia.
      * intros k j [(n & Hj & Hid) Hlast].
        destruct (decide (k = nID node)) as [->|Hne].
        -- assert (j = length kept) as ->.
           { pose proof (Hlast (length kept) node) as H1.
             rewrite lookup_app_r, Nat.sub_diag in H1 by lia.
             specialize (H1 eq_refl eq_refl).
             apply lookup_lt_Some in Hj. rewrite length_app in Hj.
             cbn in Hj. lia. }
           rewrite lookup_insert_eq, Hl, int32_small by lia. done.
        -- rewrite lookup_insert_ne by done. apply Hmap.
           apply lookup_app_Some in Hj as [Hj|[_ Hj]].
           2:{ apply list_lookup_singleton_Some in Hj as [_ <-]. done. }
           split; [eauto|]. intros j' n' Hj' Hid'.
           apply (Hlast j' n'); [|done]. by apply lookup_app_l_Some.
    + rewrite decide_False by (rewrite <- Hk, Ev; by intros [? ?]).
      simplify_eq. by rewrite app_nil_r.
Qed.

Lemma ways_phase objs : forall st,
  Built (bg st) ->
  (forall id, id ∈ valid_way_nodes objs ->
     exists v, bnodes st !! id = Some v /\ has_node (bg st) v /\ in_int32 v) ->
  Forall (fun o => is_node o = false) objs ->
  exists st',
    BuildGraph_loop coordinatesToCellID DistanceMeters ToLower st objs =
      Some st' /\
    Nodes (bg st') = Nodes (bg st) /\
    (forall u e, out_has (bg st) u e -> out_has (bg st') u e) /\
    forall w i a b,
      OsmWayObject w ∈ objs -> validWay w = true ->
      NodeIDs w !! i = Some a -> NodeIDs w !! S i = Some b ->
      way_edges w (bnodes st) (bg st) (bg st') a b.
Proof.
  induction objs as [|o objs IH]; intros st HB Hids Hobjs.
  - exists st. split; [done|]. split; [done|]. split; [done|].
    intros w i a b []%elem_of_nil.
  - apply Forall_cons in Hobjs as [Ho Hobjs].
    change (o :: objs) with ([o] ++ objs) in Hids.
    rewrite valid_way_nodes_app in Hids.
    cbn [BuildGraph_loop].
    assert (Hstep : exists st1,
              BuildGraph_step coordinatesToCellID DistanceMeters ToLower st o
                = Some st1 /\
              Built (bg st1) /\ Nodes (bg st1) = Nodes (bg st) /\
              bnodes st1 = bnodes st /\
              (forall u e, out_has (bg st) u e -> out_has (bg st1) u e) /\
              forall w i a b, o = OsmWayObject w -> validWay w = true ->
                NodeIDs w !! i = Some a -> NodeIDs w !! S i = Some b ->
                way_edges w (bnodes st) (bg st) (bg st1) a b).
    { destruct o as [node|way|]; [done| |]; cbn [BuildGraph_step].
      2:{ exists st. do 5 (split; [done|]). done. }
      destruct (validWay way) eqn:Hvalid.
      2:{ exists st. do 5 (split; [done|]). intros w i a b [= <-]. congruence. }
      destruct (buildWay_loop_ok way (bnodes st) (NodeIDs way) (bg st)
                  (bways st) HB) as (g' & ways' & Hloop & HB' & HN & Hmono & He).
      { intros id Hid. apply Hids. apply elem_of_app. left.
        unfold valid_way_nodes. cbn. rewrite Hvalid, app_nil_r. done. }
      unfold buildWay. rewrite Hloop. cbn [mbind option_bind].
      eexists. split; [done|]. cbn [bg bnodes].
      do 4 (split; [done|]). intros w i a b [= <-] _. apply He. }
    destruct Hstep as (st1 & -> & HB1 & HN1 & Hb1 & Hmono1 & He1).
    cbn [mbind option_bind].
    destruct (IH st1 HB1) as (st' & -> & HN' & Hmono' & He'); [|done|].
    { intros id Hid. destruct (Hids id) as (v & ? & ? & ?).
      - apply elem_of_app. by right.
      - exists v. rewrite Hb1. unfold has_node. rewrite HN1. done. }
    exists st'. split; [done|]. split; [congruence|].
    split; [by auto|].
    intros w i a b [<-|Hw]%elem_of_cons Hvalid Ha Hb.
    + destruct (He1 w i a b eq_refl Hvalid Ha Hb)
        as (ia & ib & na & nb & ? & ? & ? & ? & Hout & Hback).
      exists ia, ib, na, nb. do 4 (split; [done|]). cbn zeta in *.
      split; [by apply Hmono'|]. intros Hd. by apply Hmono', Hback.
    + destruct (He' w i a b Hw Hvalid Ha Hb)
        as (ia & ib & na & nb & Hia & Hib & Hna & Hnb & Hout).
      exists ia, ib, na, nb. rewrite Hb1 in Hia, Hib. rewrite HN1 in Hna, Hnb.
      done.
Qed.

(** X23: on a file that lists its nodes before its ways, holds a node for
    every node id of a valid way, and has fewer than 2^31 objects before
    the ways, BuildGraph returns (no index is out of range), and for every
    two consecutive node ids of a valid way the graph holds the edge between
    the nodes added for them, those of the last node objects with these ids:
    its weight and its distance are the distance between the two nodes, and
    the edge back is there as well when the way is not one-way. *)
Theorem BuildGraph_complete (pre post : list OsmObject) :
  Forall (fun o => is_way o = false) pre ->
  Forall (fun o => is_node o = false) post ->
  (forall id, id ∈ valid_way_nodes post ->
     exists n, OsmNodeObject n ∈ pre /\ nID n = id) ->
  Z.of_nat (length pre) < 2 ^ 31 ->
  let kept :=
    kept_nodes (determineValidNodesFromFile (pre ++ post)) (pre ++ post) in
  exists g,
    BuildGraph coordinatesToCellID DistanceMeters ToLower (pre ++ post) =
      Some g /\
    length (Nodes g) = length kept /\
    forall w i a b,
      OsmWayObject w ∈ post -> validWay w = true ->
      NodeIDs w !! i = Some a -> NodeIDs w !! S i = Some b ->
      exists ia ib na nb,
        last_index kept a ia /\ last_index kept b ib /\
        Nodes g !! ia = Some na /\ Nodes g !! ib = Some nb /\
        let d := DistanceMeters (Location na) (Location nb) in
        out_has g (Z.of_nat ia) (mkEdge (Z.of_nat ib) d (way_meta w d)) /\
        (edgeDirectionFromWay w = Bidirectional ->
         out_has g (Z.of_nat ib) (mkEdge (Z.of_nat ia) d (way_meta w d))).
Proof.
  intros Hpre Hpost Hhave Hlen kept.
  set (keys := determineValidNodesFromFile (pre ++ post)) in *.
  assert (Hkept : kept = kept_nodes keys pre).
  { unfold kept. rewrite kept_nodes_app, (kept_nodes_no_node _ post Hpost).
    by rewrite app_nil_r. }
  assert (Hways : valid_way_nodes (pre ++ post) = valid_way_nodes post).
  { by rewrite valid_way_nodes_app, (valid_way_nodes_no_way pre Hpre). }
  set (st0 := {| bg := EmptyGraph; bnodes := keys; bways := ∅ |}).
  assert (H0 : build_inv DistanceMeters keys st0).
  { unfold build_inv. cbn [bg bnodes]. split; [apply Built_empty|].
    split; [done|]. split; [|split].
    - intros k v Hk.
      destruct (determineValidNodesFromFile_model _ k v Hk) as (j & ->).
      apply int32_range.
    - by intros n ?%elem_of_nil.
    - intros a e (es & [_ Hes]%at_index_Some & _). cbn in Hes.
      by rewrite lookup_nil in Hes. }
  destruct (nodes_phase keys pre [] st0 H0) as (st1 & Hloop1 & Hl1 & Hmap1);
    [|done|cbn; lia|].
  { split; [done|]. intros k j [(n & Hj & _) _]. by rewrite lookup_nil in Hj. }
  cbn [app] in Hl1, Hmap1. rewrite <- Hkept in Hl1, Hmap1.
  destruct (BuildGraph_loop_inv coordinatesToCellID DistanceMeters ToLower
              keys pre _ _ H0 Hloop1) as [(HB1 & _) _].
  assert (Hlk : Z.of_nat (length kept) < 2 ^ 31).
  { pose proof (kept_nodes_length keys pre). rewrite Hkept. lia. }
  assert (Hnum : forall id, id ∈ valid_way_nodes post ->
            exists j, last_index kept id j /\
                      bnodes st1 !! id = Some (Z.of_nat j) /\
                      (j < length kept)%nat).
  { intros id Hid. destruct (Hhave id Hid) as (n & Hn & Hnid).
    destruct (last_index_exists kept id) as (j & Hj).
    { exists n. split; [|done]. rewrite Hkept. unfold kept_nodes.
      apply list_elem_of_bind. exists (OsmNodeObject n). split; [|done].
      rewrite decide_True; [by left|].
      apply determineValidNodesFromFile_keys. rewrite Hways. by rewrite Hnid. }
    exists j. split; [done|]. split; [by apply Hmap1|].
    destruct Hj as [(n0 & Hj & _) _]. by apply lookup_lt_Some in Hj. }
  destruct (ways_phase post st1 HB1) as (st2 & Hloop2 & HN2 & _ & Hedges);
    [|done|].
  { intros id Hid. destruct (Hnum id Hid) as (j & _ & Hj & Hlt).
    exists (Z.of_nat j). split; [done|]. unfold has_node, in_int32.
    rewrite Hl1. lia. }
  exists (bg st2). unfold BuildGraph. fold keys. fold st0.
  rewrite BuildGraph_loop_app, Hloop1. cbn [mbind option_bind].
  rewrite Hloop2. cbn [mbind option_bind]. split; [done|].
  split; [congruence|].
  intros w i a b Hw Hvalid Ha Hb.
  destruct (Hedges w i a b Hw Hvalid Ha Hb)
    as (ia & ib & na & nb & Hia & Hib & Hna & Hnb & Hout).
  assert (Ha' : a ∈ valid_way_nodes post).
  { unfold valid_way_nodes. apply list_elem_of_bind.
    exists (OsmWayObject w). split; [|done]. rewrite Hvalid.
    by eapply list_elem_of_lookup_2. }
  assert (Hb' : b ∈ valid_way_nodes post).
  { unfold valid_way_nodes. apply list_elem_of_bind.
    exists (OsmWayObject w). split; [|done]. rewrite Hvalid.
    by eapply list_elem_of_lookup_2. }
  destruct (Hnum a Ha') as (ja & Hla & Hja & _).
  destruct (Hnum b Hb') as (jb & Hlb & Hjb & _).
  assert (ia = Z.of_nat ja) as -> by congruence.
  assert (ib = Z.of_nat jb) as -> by congruence.
  exists ja, jb, na, nb. split; [done|]. split; [done|].
  apply at_index_Some in Hna as [_ Hna]. apply at_index_Some in Hnb as [_ Hnb].
  rewrite Nat2Z.id in Hna, Hnb. rewrite HN2. done.
Qed.

End BuildGraphComplete.

(** ** The index of the nodes *)

Section BuildNodeIndexFacts.

Variable sort_Slice : (Vector -> Vector -> bool) -> list Vector -> list Vector.
Hypothesis sort_Slice_Permutation : forall lt l, sort_Slice lt l ≡ₚ l.
Hypothesis sort_Slice_sorted : forall (key : Vector -> Q) l,
  StronglySorted (fun a b => (key a <= key b)%Q)
    (sort_Slice (fun a b => fltb (key a) (key b)) l).

Variable Sqrt : Q -> Q.
Hypothesis Sqrt_ge : forall x, (0 <= x)%Q ->
  (0 <= Sqrt x)%Q /\ (x <= Sqrt x * Sqrt x)%Q.

Variable LatDegrees LngDegrees : Z -> float64.
Variable LatLngToMeters : float64 -> float64 -> float64 * float64.

Lemma index_vectors_ok g ns : forall vectors,
  (forall n, n ∈ ns -> 0 <= ID n < Z.of_nat (length (OutgoingEdges g))) ->
  index_vectors LatDegrees LngDegrees LatLngToMeters g ns vectors =
  Some (vectors ++
        (node_vector LatDegrees LngDegrees LatLngToMeters <$>
           filter (fun n => has_outgoing g n = true) ns)).
Proof.
  induction ns as [|n ns IH]; intros vectors Hns.
  - cbn. by rewrite app_nil_r.
  - cbn [index_vectors].
    destruct (at_index_is_Some (OutgoingEdges g) (ID n)) as [es Hes].
    { apply Hns. left. }
    rewrite Hes. cbn [mbind option_bind]. rewrite filter_cons.
    destruct es as [|e es].
    + assert (Ho : has_outgoing g n = false)
        by (unfold has_outgoing; by rewrite Hes).
      cbn [length]. change (0 <? Z.of_nat 0) with false. cbn iota.
      rewrite decide_False by congruence.
      apply IH. intros m Hm. apply Hns. by right.
    + assert (Ho : has_outgoing g n = true)
        by (unfold has_outgoing; by rewrite Hes).
      assert (0 <? Z.of_nat (length (e :: es)) = true) as ->
        by (apply Z.ltb_lt; cbn [length]; lia).
      rewrite decide_True by done. cbn [fmap list_fmap].
      destruct (LatLngToMeters _ _) as [x y] eqn:E.
      assert (Hnv : node_vector LatDegrees LngDegrees LatLngToMeters n =
                    {| vID := ID n; Components := [x; y] |})
        by (unfold node_vector; by rewrite E).
      rewrite Hnv, IH by (intros m Hm; apply Hns; by right).
      by rewrite <- app_assoc.
Qed.

(** X24: on a graph built with AddNode and RelateNodes that has at most
    2^31 nodes, BuildNodeIndex returns: no index is out of range.  The
    tree holds one point for every node that has an outgoing edge, with the
    id of the node, and no other point.  So the point FindNearest returns
    for a target of two components, which is a nearest one, carries the id
    of a node of the graph that has an outgoing edge. *)
Theorem BuildNodeIndex_index (g : Graph) (target : Vector) :
  Built g -> Z.of_nat (length (Nodes g)) <= 2 ^ 31 ->
  exists t,
    BuildNodeIndex sort_Slice LatDegrees LngDegrees LatLngToMeters g = Some t /\
    points (root t) ≡ₚ indexed LatDegrees LngDegrees LatLngToMeters g /\
    (forall p, p ∈ points (root t) ->
       valid_id g (vID p) /\ (exists e, out_has g (vID p) e) /\
       exists n, at_index (Nodes g) (vID p) = Some n /\
                 p = node_vector LatDegrees LngDegrees LatLngToMeters n) /\
    (length (Components target) = 2%nat ->
     (exists q dq, q ∈ points (root t) /\
        squaredDistance q target = Some dq /\ (dq < MaxFloat64)%Q) ->
     exists v d,
       FindNearest Sqrt t target = Some (v, d) /\
       v ∈ points (root t) /\ squaredDistance v target = Some d /\
       forall q dq, q ∈ points (root t) ->
         squaredDistance q target = Some dq -> (d <= dq)%Q).
Proof.
  intros HB Hlen.
  destruct (Built_wf g HB) as [[HAO _] _].
  assert (Hid : forall i n, Nodes g !! i = Some n -> ID n = Z.of_nat i).
  { intros i n Hn. rewrite (Built_ids g HB i n Hn).
    apply lookup_lt_Some in Hn. apply int32_small. lia. }
  set (pts := indexed LatDegrees LngDegrees LatLngToMeters g).
  assert (Hdim : all_dim 2 pts).
  { intros p (n & -> & _)%list_elem_of_fmap. unfold node_vector.
    by destruct (LatLngToMeters _ _). }
  destruct (build_ok sort_Slice sort_Slice_Permutation sort_Slice_sorted
              2 (length pts) pts 0) as (nd & Hnd & Hperm & Hord);
    [done|done|lia|lia|].
  exists {| root := nd |}. cbn [root].
  assert (Hin : forall q, q ∈ points nd <-> q ∈ pts).
  { intros q. by rewrite Hperm. }
  split; [|split; [done|split]].
  - assert (Hiv : index_vectors LatDegrees LngDegrees LatLngToMeters g
                    (Nodes g) [] = Some pts).
    { rewrite index_vectors_ok; [done|].
      intros n [i Hn]%list_elem_of_lookup. rewrite (Hid i n Hn), HAO.
      apply lookup_lt_Some in Hn. lia. }
    unfold BuildNodeIndex. rewrite Hiv. cbn [mbind option_bind].
    unfold BuildKDTree. by rewrite Hnd.
  - intros p (n & -> & Hn)%Hin%list_elem_of_fmap.
    apply list_elem_of_filter in Hn as [Hout [i Hn]%list_elem_of_lookup].
    assert (Hv : vID (node_vector LatDegrees LngDegrees LatLngToMeters n) =
                 Z.of_nat i).
    { unfold node_vector. destruct (LatLngToMeters _ _). cbn. by apply Hid. }
    rewrite Hv. pose proof (lookup_lt_Some _ _ _ Hn) as Hlt.
    split; [unfold valid_id, has_node, in_int32; lia|]. split.
    + unfold has_outgoing in Hout. rewrite (Hid i n Hn) in Hout.
      destruct (at_index (OutgoingEdges g) (Z.of_nat i)) as [[|e es]|] eqn:E;
        try done.
      exists e, (e :: es). split; [done|]. left.
    + exists n. split; [|done]. apply at_index_Some. split; [lia|].
      by rewrite Nat2Z.id.
  - intros Ht (q & dq & Hq & Hdq & Hlt).
    assert (Hdim' : all_dim 2 (points nd)).
    { intros p Hp%Hin. by apply Hdim. }
    destruct (nearest_opt Sqrt Sqrt_ge 2 nd target 0 nil_node
                MaxFloat64 Hdim')
      as (best & d & Hn & Hd0 & Hle & Hall & Hcase);
      [by rewrite Ht|lia|lia|done|done|].
    unfold FindNearest. cbn [root]. rewrite Hn. cbn [mbind option_bind].
    destruct Hcase as [[-> ->]|(v & l & r & -> & Hv & Hdv & _)].
    + pose proof (Hall q dq Hq Hdq). Lqa.lra.
    + exists v, d. done.
Qed.

End BuildNodeIndexFacts.

Lemma BuildGraph_sound_witness :
  let cell := fun lat _ : Q => Qnum lat in
  let dist := fun a b : Z => inject_Z (Z.abs (a - b)) in
  let g := default EmptyGraph
             (BuildGraph cell dist (fun s => s) small_map) in
  Built g /\ Location <$> Nodes g = [1; 4; 8] /\
  (forall j n, Nodes g !! j = Some n -> ID n = Z.of_nat j /\ Rank n = 0) /\
  road_edges dist g /\ nonneg_weights g.
Proof.
  intros cell dist g.
  assert (H : BuildGraph cell dist (fun s => s) small_map = Some g)
    by (vm_compute; reflexivity).
  destruct (BuildGraph_sound cell dist (fun s => s) small_map g H)
    as (HB & HL & Hid & He & Hn).
  split; [exact HB|]. split; [vm_compute; reflexivity|].
  split.
  { intros j n Hj. destruct (Hid j n Hj) as (_ & Hr & Hi).
    split; [|exact Hr]. apply Hi. vm_compute. discriminate. }
  split; [exact He|].
  apply Hn. intros x y. unfold dist. unfold Qle. cbn. lia.
Defined.

Lemma BuildGraph_complete_witness :
  let cell := fun lat _ : Q => Qnum lat in
  let dist := fun a b : Z => inject_Z (Z.abs (a - b)) in
  exists g ia ib na nb,
    BuildGraph cell dist (fun s => s) small_map = Some g /\
    length (Nodes g) = 3%nat /\
    Nodes g !! ia = Some na /\ Nodes g !! ib = Some nb /\
    out_has g (Z.of_nat ia)
      (mkEdge (Z.of_nat ib) (dist (Location na) (Location nb))
         (way_meta (fun s => s) small_way
            (dist (Location na) (Location nb)))) /\
    out_has g (Z.of_nat ib)
      (mkEdge (Z.of_nat ia) (dist (Location na) (Location nb))
         (way_meta (fun s => s) small_way
            (dist (Location na) (Location nb)))).
Proof.
  intros cell dist.
  destruct (BuildGraph_complete cell dist (fun s => s) small_nodes
              [OsmWayObject small_way]) as (g & Hg & Hlen & He).
  - repeat constructor.
  - repeat constructor.
  - intros k Hk.
    assert (E : valid_way_nodes [OsmWayObject small_way] = [10; 20; 30])
      by reflexivity.
    rewrite E in Hk. unfold small_nodes.
    apply elem_of_cons in Hk as [->|Hk];
      [eexists; split; [left|reflexivity]|].
    apply elem_of_cons in Hk as [->|Hk];
      [eexists; split; [right; left|reflexivity]|].
    apply elem_of_cons in Hk as [->|Hk];
      [eexists; split; [right; right; left|reflexivity]|].
    by apply elem_of_nil in Hk.
  - cbn. lia.
  - destruct (He small_way 0%nat 10 20) as (ia & ib & na & nb & _ & _ & Hna & Hnb & Hout & Hback);
      [left|reflexivity|reflexivity|reflexivity|].
    exists g, ia, ib, na, nb. split; [exact Hg|]. split; [exact Hlen|].
    split; [exact Hna|]. split; [exact Hnb|]. split; [exact Hout|].
    apply Hback. reflexivity.
Defined.

Lemma BuildNodeIndex_index_witness :
  let target := {| vID := 0; Components := [0%Q; 0%Q] |} in
  exists t,
    BuildNodeIndex insertion_sort inject_Z inject_Z (fun x y => (x, y))
      triangle = Some t /\
    length (points (root t)) = 2%nat /\
    forall p, p ∈ points (root t) ->
      valid_id triangle (vID p) /\ exists e, out_has triangle (vID p) e.
Proof.
  intros target.
  destruct (BuildNodeIndex_index insertion_sort insertion_sort_Permutation
              insertion_sort_sorted sqrt_up sqrt_up_ge inject_Z inject_Z
              (fun x y => (x, y)) triangle target triangle_Built)
    as (t & Ht & Hp & Hall & _).
  - vm_compute. discriminate.
  - exists t. split; [exact Ht|]. split.
    + rewrite Hp. reflexivity.
    + intros p Hpt. destruct (Hall p Hpt) as (Hv & He & _). by split.
Defined.

(** ** The nodes of the tree *)

Section DijkstraVisited.

Variable g : Graph.
Variable srcs : list Z.
Hypothesis g_wf : wf g.
Hypothesis g_nonneg : nonneg_weights g.
Hypothesis srcs_valid : forall s, s ∈ srcs -> valid_id g s.

(** Every visited node has a node in the tree. *)
Definition visited_in_tree (s : DijkstraSearch) : Prop :=
  forall v, Z.testbit (visited s) v = true -> v ∈ Rank <$> Nodes (previous s).

Lemma visited_step st cid o :
  graph st = g -> inv g srcs no_pend (engine st) ->
  tinv g srcs (engine st) -> isFinished (engine st) = false ->
  visited_in_tree (engine st) -> Run_body st cid = Some o ->
  match o with
  | Return st' => visited_in_tree (engine st')
  | Continue st' _ => visited_in_tree (engine st')
  end.
Proof.
  intros Hg Hinv Ht Hfin HJ Hbody.
  destruct (Run_body_cases _ _ _ Hbody)
    as (m & err & s1 & cid1 & HMin & Hm0 & Hs1 & Hprev & Hvis & _).
  assert (H : visited_in_tree (engine (outcome_state o))).
  { intros v. rewrite Hvis, Hprev. rewrite Z.setbit_eqb by done.
    destruct (Z.testbit (visited (engine st)) (Value m)) eqn:Hseen.
    - destruct Hs1 as [-> _]. destruct (Z.eqb_spec (Value m) v) as [<-|_].
      + intros _. by apply HJ.
      + cbn. apply HJ.
    - destruct (addPrevious_tree _ _ _ Hs1)
        as (m' & err' & HMin' & _ & -> & _).
      assert (m' = m) as -> by congruence.
      rewrite fmap_app. cbn [fmap list_fmap Rank].
      destruct (Z.eqb_spec (Value m) v) as [<-|_].
      + intros _. apply elem_of_app. right. left.
      + cbn. intros Hv. apply elem_of_app. left. by apply HJ. }
  by destruct o.
Qed.

(** Run on the engine NewDijkstra made for the sources: the tree holds the
    visited nodes. *)
Lemma Run_spec_visited t search :
  add_sources t srcs = Some search ->
  exists st',
    Run_loop (Run_fuel search g) {| graph := g; engine := search |} 0 =
      Some (response st', st') /\
    loop_post g srcs search st' /\ visited_in_tree (engine st').
Proof.
  intros Hs.
  destruct (Run_spec g srcs g_wf g_nonneg srcs_valid t search Hs)
    as (st' & Hrun & Hpost).
  exists st'. split; [done|]. split; [done|].
  pose proof (add_sources_spec _ _ _ Hs) as (_ & _ & _ & Hv0 & _).
  assert (H0 : visited_in_tree search).
  { intros v. rewrite Hv0, Z.bits_0. done. }
  destruct (Run_loop_extra g srcs g_wf g_nonneg srcs_valid visited_in_tree
              (fun st => visited_in_tree (engine st))
              visited_step _ {| graph := g; engine := search |} 0 _ _ eq_refl
              (inv_init g srcs srcs_valid _ _ Hs) (tinv_init g srcs _ _ Hs)
              H0 Hrun) as [(_ & _ & H)|H]; done.
Qed.

End DijkstraVisited.

(** X25: on a graph built with AddNode and RelateNodes, with no negative
    weight, and for valid sources, when no target is set, or the first
    target cannot be reached, the tree Run returns holds exactly the nodes
    the map gives a cost to, and these are exactly the nodes whose least
    path weight from a source is below INFINITE. *)
Theorem Run_tree_all g c :
  Built g -> nonneg_weights g ->
  (forall s, s ∈ Source c -> valid_id g s) ->
  first_target c < 0 \/ ~ reachable g (Source c) (first_target c) ->
  exists search r,
    NewDijkstra c = Some search /\ Run search g = Some r /\
    forall v,
      (v ∈ Rank <$> Nodes (SearchSpace r) <-> is_Some (Costs r !! v)) /\
      (is_Some (Costs r !! v) <->
       exists d, shortest g (Source c) v d /\ (d < INFINITE)%Q).
Proof.
  intros Hb Hn Hv Hno.
  assert (H0 : Forall (fun s => 0 <= s) (Source c)).
  { apply Forall_forall. intros s Hs. by destruct (Hv s Hs) as [[? _] _]. }
  destruct (add_sources_is_Some (first_target c) _ H0) as [search Hs].
  destruct (Run_spec_visited g (Source c) (Built_wf g Hb) Hn Hv _ _ Hs)
    as (st' & Hrun & Hpost & Hvis).
  exists search, (response st'). rewrite NewDijkstra_add_sources.
  split; [done|]. split; [unfold Run; by rewrite Hrun|].
  cbn [response SearchSpace Costs].
  destruct (Run_costs g (Source c) Hn _ _ _ Hs Hpost) as (_ & _ & _ & Hall).
  specialize (Hall Hno).
  destruct Hpost as (_ & Ht & Htg & (pend & Hinv) & Hcase).
  assert (Hnil : inv g (Source c) no_pend (engine st') /\
                 items (pq (engine st')) = []).
  { destruct Hcase as [?|[Ht0 Htv]]; [done|].
    pose proof (add_sources_spec _ _ _ Hs) as (_ & _ & _ & _ & _ & Htarget & _).
    rewrite Htarget in *.
    destruct Hno as [?|Hno]; [lia|]. destruct Hno.
    destruct (proj2 (inv_visited _ _ _ _ Hinv) _ Htv) as [x Hx].
    destruct (inv_cost _ _ _ _ Hinv _ _ Hx)
      as (_ & _ & _ & src & total & ? & ? & _).
    by exists src, total. }
  destruct Hnil as [Hinv0 Hnil].
  intros v. split; [split|split].
  - intros (n & -> & [j Hj]%list_elem_of_lookup)%list_elem_of_fmap.
    destruct (t_nodes _ _ _ Ht j n Hj) as [_ Hbit].
    by apply (inv_visited _ _ _ _ Hinv0).
  - intros [x Hx]. apply Hvis.
    destruct (Z.testbit (visited (engine st')) v) eqn:E; [done|].
    destruct (inv_queued _ _ _ _ Hinv0 _ _ Hx E) as (y & Hy & _).
    rewrite Hnil in Hy. by apply elem_of_nil in Hy.
  - intros [x Hx]. exists x. split; [by apply (Hall v)|].
    by destruct (inv_cost _ _ _ _ Hinv0 _ _ Hx) as (_ & ? & _).
  - intros (d & Hsh & Hd). destruct (proj2 (Hall v) d Hsh Hd) as (x & Hx & _).
    eauto.
Qed.

Lemma Run_tree_all_witness :
  exists search r,
    NewDijkstra {| Source := [0]; Targets := [] |} = Some search /\
    Run search chain = Some r /\
    forall v,
      (v ∈ Rank <$> Nodes (SearchSpace r) <-> is_Some (Costs r !! v)) /\
      (is_Some (Costs r !! v) <->
       exists d, shortest chain [0] v d /\ (d < INFINITE)%Q).
Proof.
  apply (Run_tree_all chain {| Source := [0]; Targets := [] |}
           chain_Built (nonneg_weightsb_true chain eq_refl)
           (valid_id_check chain [0] eq_refl)).
  left. cbn. lia.
Defined.

(** X26: when no source is a node of the graph (every source id is at
    least the number of outgoing entries) and the first target is not among
    the sources, Run panics in its first iteration, on the outgoing entries
    of the source it takes from the queue. *)
Theorem Run_source_out_of_range g c search :
  NewDijkstra c = Some search -> Source c <> [] ->
  (forall s, s ∈ Source c -> Z.of_nat (length (OutgoingEdges g)) <= s) ->
  first_target c ∉ Source c ->
  Run search g = None.
Proof.
  rewrite NewDijkstra_add_sources. intros Hs Hne Hout Htg.
  destruct (add_sources_spec _ _ _ Hs)
    as (Hok & Hp & _ & Hv0 & Hprev & Htarget & _).
  assert (Hitems : items (pq search) <> []).
  { intros E. rewrite E in Hp. symmetry in Hp.
    apply Permutation_nil_r in Hp. apply fmap_nil_inv in Hp. done. }
  destruct (Min_ok _ Hok Hitems) as (m & HMin & _ & Hm & _).
  assert (Hsrc : Value m ∈ Source c).
  { rewrite Hp in Hm. apply list_elem_of_fmap in Hm as (s & -> & Hs'). done. }
  assert (Hprev0 : Previous m = 0).
  { rewrite Hp in Hm. by apply list_elem_of_fmap in Hm as (s & -> & _). }
  pose proof (Hout _ Hsrc) as Hge.
  unfold Run, Run_fuel.
  destruct (length (items (pq search))) as [|n] eqn:El.
  { destruct (items (pq search)); [done|discriminate]. }
  cbn [Nat.add Run_loop engine]. unfold isFinished.
  destruct (IsEmpty (pq search)) eqn:Hemp.
  { by apply (IsEmpty_items _ Hok) in Hemp. }
  assert (Hadd : exists s1 cid1, addPrevious search = Some (s1, cid1)).
  { unfold addPrevious. rewrite HMin. cbn [mbind option_bind].
    rewrite Hprev, Hprev0. cbn. eauto. }
  destruct Hadd as (s1 & cid1 & Hadd).
  destruct (addPrevious_frame _ _ _ Hadd) as (_ & Hv1 & _ & _ & Ht1).
  assert (Hnone : at_index (OutgoingEdges g) (Value m) = None).
  { unfold at_index. destruct (Z.ltb_spec (Value m) 0); [done|].
    apply lookup_ge_None. lia. }
  assert (Hbody : Run_body {| graph := g; engine := search |} 0 = None).
  { unfold Run_body. cbn [engine graph]. rewrite HMin.
    cbn [mbind option_bind].
    unfold wasVisited, Exists. destruct (Z.ltb_spec (Value m) 0); [lia|].
    cbn [mbind option_bind]. rewrite Hv0, Z.bits_0. cbn [negb].
    rewrite Hadd. cbn [mbind option_bind].
    unfold Set_. destruct (Z.ltb_spec (Value m) 0); [lia|].
    cbn [mbind option_bind]. unfold reachTarget. cbn [target].
    rewrite Ht1, Htarget.
    destruct ((0 <=? first_target c) && (Value m =? first_target c)) eqn:Hr.
    { apply andb_true_iff in Hr as [_ ?%Z.eqb_eq]. congruence. }
    by rewrite Hnone. }
  by rewrite Hbody.
Qed.

Lemma Run_source_out_of_range_witness :
  exists search,
    NewDijkstra {| Source := [3; 5]; Targets := [1] |} = Some search /\
    Run search triangle = None.
Proof.
  destruct (NewDijkstra {| Source := [3; 5]; Targets := [1] |})
    as [search|] eqn:E; [|vm_compute in E; discriminate E].
  exists search. split; [reflexivity|].
  apply (Run_source_out_of_range triangle
           {| Source := [3; 5]; Targets := [1] |} search E).
  - discriminate.
  - intros s Hs.
    apply elem_of_cons in Hs as [->|Hs]; [vm_compute; discriminate|].
    apply elem_of_cons in Hs as [->|Hs]; [vm_compute; discriminate|].
    by apply elem_of_nil in Hs.
  - intros Hs. cbn in Hs.
    apply elem_of_cons in Hs as [Hs|Hs]; [discriminate|].
    apply elem_of_cons in Hs as [Hs|Hs]; [discriminate|].
    by apply elem_of_nil in Hs.
Defined.

Lemma Run_frame_witness :
  exists r st',
    Run_loop 10 {| graph := triangle;
                   engine := default
                     {| pq := Create; visited := NewBigInt;
                        previous := EmptyGraph; costs := ∅;
                        sources := NewBigInt; target := -1 |}
                     (NewDijkstra {| Source := [0]; Targets := [1] |}) |} 0 =
      Some (r, st') /\
    graph st' = triangle /\ target (engine st') = 1.
Proof.
  destruct (Run_loop 10 {| graph := triangle;
                   engine := default
                     {| pq := Create; visited := NewBigInt;
                        previous := EmptyGraph; costs := ∅;
                        sources := NewBigInt; target := -1 |}
                     (NewDijkstra {| Source := [0]; Targets := [1] |}) |} 0)
    as [[r st']|] eqn:E; [|vm_compute in E; discriminate E].
  exists r, st'. split; [reflexivity|].
  destruct (Run_frame _ _ _ _ _ E) as (Hg & _ & _ & _ & _ & Ht).
  split; [exact Hg|exact Ht].
Defined.

